(** * Request-orchestration core of thinktapflow-ai-core

    A shallow embedding of the four collaborating utilities of the
    package -- the fingerprint cache [createCache] with its key
    generator [generateCacheKey], the sliding-window rate limiter
    [createRateLimiter], the retry controller [createRetryHandler] and
    the batch processor [createBatchProcessor] -- and the properties
    their specification states about them.  The second part of the
    development covers the code around them: the metrics collector
    [createMetricsCollector], the provider choice of
    [createMultiProvider], [generateCompletion] of a provider, which
    puts limiter, cache and retry together, and [countSyllables].

    Modelling conventions.
    - A JavaScript number that holds a time stamp, a duration, a size or
      a count is an integer [Z]; the back-off delays, which involve the
      factor [0.1] and [Math.random()], are exact rationals [Q].
    - [Date.now()] is a parameter [now] of every operation that reads
      the clock; one operation reads one clock value.
    - A string is a sequence of Latin-1 code units (the domain on which
      [btoa] is defined), so [String.length] is the JavaScript [length].
    - A [Map] is an association list in insertion order with pairwise
      distinct keys.
    - [undefined] results are [VUndefined]; a raised exception is the
      [Throw] completion.
    - A plain object used as a tally is a finite map [gmap]; the
      average latency and the provider weights are rationals, like the
      delays. *)

From Stdlib Require Import ZArith QArith Qminmax Qpower Qround Lia Lqa Bool.
From Stdlib Require Import Ascii String DecimalString.
From Stdlib Require OrderedTypeEx.
From stdpp Require Import base list strings sorting gmap.

Local Open Scope Z_scope.

(** ** JavaScript values and built-ins used by the package *)

Module Js.

(** Values that flow through the cache and the option bags. *)
#[warnings="-register-all"]
Inductive value : Type :=
| VUndefined
| VNull
| VBool (b : bool)
| VNum (z : Z)
| VStr (s : string)
| VArr (items : list value)
| VObj (fields : list (string * value)).

(** Result of a call: it returns normally or raises. *)
Inductive completion (A E : Type) : Type :=
| Normal (a : A)
| Throw (e : E).
Arguments Normal {A E} a.
Arguments Throw {A E} e.

(** [Array.prototype.sort(cmp)]: a stable sort; [cmp a b <= 0] keeps
    [a] in front of [b]. *)
Fixpoint sort_insert {A} (cmp : A -> A -> Z) (x : A) (l : list A) : list A :=
  match l with
  | [] => [x]
  | y :: r => if cmp x y <=? 0 then x :: y :: r else y :: sort_insert cmp x r
  end.

Definition sort {A} (cmp : A -> A -> Z) (l : list A) : list A :=
  foldr (sort_insert cmp) [] l.

(** The default comparator of [sort()] on strings: code-unit order. *)
Definition string_cmp (a b : string) : Z :=
  match String.compare a b with
  | Lt => -1
  | Eq => 0
  | Gt => 1
  end.

Definition Object_keys {V} (o : list (string * V)) : list string := fmap fst o.

(** [String.prototype.includes] *)
Definition includes (needle hay : string) : bool :=
  match String.index 0 needle hay with
  | Some _ => true
  | None => false
  end.

(** [String.prototype.slice(0, n)] *)
Definition slice0 (n : nat) (s : string) : string := String.substring 0 n s.

(** Decimal rendering of an integral number, all digits: what
    JavaScript prints for an integer below [10^21]; the statements that
    depend on the text of a number take a safe integer, [|z| < 2^53]. *)
Definition Number_toString (z : Z) : string :=
  NilZero.string_of_int (Z.to_int z).

Definition hex_digit (n : N) : ascii :=
  match String.get (N.to_nat n) "0123456789abcdef" with
  | Some c => c
  | None => "0"%char
  end.

(** The quotation mark, code unit 34. *)
Definition dquote : ascii := ascii_of_N 34.

(** One code unit inside [QuoteJSONString]. *)
Definition quote_char (c : ascii) : string :=
  let n := N_of_ascii c in
  if (n =? 34)%N then String "\" (String dquote EmptyString)
  else if (n =? 92)%N then String "\" (String "\" EmptyString)
  else if (n =? 8)%N then String "\" (String "b" EmptyString)
  else if (n =? 12)%N then String "\" (String "f" EmptyString)
  else if (n =? 10)%N then String "\" (String "n" EmptyString)
  else if (n =? 13)%N then String "\" (String "r" EmptyString)
  else if (n =? 9)%N then String "\" (String "t" EmptyString)
  else if (n <? 32)%N then
    String "\" (String "u" (String "0" (String "0"
      (String (hex_digit (n / 16)) (String (hex_digit (n mod 16)) EmptyString)))))
  else String c EmptyString.

Fixpoint quote_body (s : string) : string :=
  match s with
  | EmptyString => EmptyString
  | String c r => quote_char c +:+ quote_body r
  end.

Definition QuoteJSONString (s : string) : string :=
  String dquote (quote_body s +:+ String dquote EmptyString).

Definition join_comma (l : list string) : string := String.concat "," l.

(** [SerializeJSONProperty]: [None] is the [undefined] result.  With a
    property list [pl] (an array replacer) every object, at every depth,
    is rendered through the keys of [pl], in the order of [pl]; without
    one, through its own keys in enumeration order. *)
Fixpoint SerializeJSONProperty (pl : option (list string)) (v : value)
  : option string :=
  match v with
  | VUndefined => None
  | VNull => Some "null"%string
  | VBool true => Some "true"%string
  | VBool false => Some "false"%string
  | VNum z => Some (Number_toString z)
  | VStr s => Some (QuoteJSONString s)
  | VArr items =>
      let elems :=
        (fix elems (l : list value) : list string :=
           match l with
           | [] => []
           | x :: r =>
               match SerializeJSONProperty pl x with
               | Some s => s
               | None => "null"%string
               end :: elems r
           end) items in
      Some ("[" +:+ join_comma elems +:+ "]")
  | VObj fields =>
      let member (K : string) : option string :=
        (fix find (fs : list (string * value)) : option string :=
           match fs with
           | [] => None
           | (k, x) :: r =>
               if String.eqb k K then
                 match SerializeJSONProperty pl x with
                 | Some s => Some (QuoteJSONString K +:+ ":" +:+ s)
                 | None => None
                 end
               else find r
           end) fields in
      let own :=
        (fix own (fs : list (string * value)) : list string :=
           match fs with
           | [] => []
           | (k, x) :: r =>
               match SerializeJSONProperty pl x with
               | Some s => (QuoteJSONString k +:+ ":" +:+ s) :: own r
               | None => own r
               end
           end) fields in
      match pl with
      | Some keys => Some ("{" +:+ join_comma (omap member keys) +:+ "}")
      | None => Some ("{" +:+ join_comma own +:+ "}")
      end
  end.

Definition JSON_stringify (v : value) (replacer : option (list string))
  : option string :=
  SerializeJSONProperty replacer v.

(** Interpolation of a possibly undefined string in a template literal. *)
Definition template (o : option string) : string :=
  match o with
  | Some s => s
  | None => "undefined"
  end.

Definition b64_alphabet : string :=
  "ABCDEFGHIJKLMNOPQRSTUVWXYZabcdefghijklmnopqrstuvwxyz0123456789+/".

Definition b64_char (n : N) : ascii :=
  match String.get (N.to_nat n) b64_alphabet with
  | Some c => c
  | None => "="%char
  end.

(** Base64 of a byte sequence, three bytes to four characters. *)
Fixpoint b64_encode (l : list N) : list ascii :=
  match l with
  | [] => []
  | [a] =>
      [b64_char (N.shiftr a 2); b64_char (N.shiftl (N.land a 3) 4);
       "="%char; "="%char]
  | [a; b] =>
      [b64_char (N.shiftr a 2);
       b64_char (N.lor (N.shiftl (N.land a 3) 4) (N.shiftr b 4));
       b64_char (N.shiftl (N.land b 15) 2); "="%char]
  | a :: b :: c :: r =>
      b64_char (N.shiftr a 2)
      :: b64_char (N.lor (N.shiftl (N.land a 3) 4) (N.shiftr b 4))
      :: b64_char (N.lor (N.shiftl (N.land b 15) 2) (N.shiftr c 6))
      :: b64_char (N.land c 63)
      :: b64_encode r
  end.

Definition code_units (s : string) : list N :=
  map N_of_ascii (list_ascii_of_string s).

(** [btoa] on a Latin-1 string. *)
Definition btoa (s : string) : string :=
  string_of_list_ascii (b64_encode (code_units s)).

(** [Map.prototype.get], [set] and [delete] on an insertion-ordered
    association list; [set] on a present key keeps its position. *)
Fixpoint Map_get {V} (k : string) (m : list (string * V)) : option V :=
  match m with
  | [] => None
  | (k', v) :: r => if String.eqb k' k then Some v else Map_get k r
  end.

Fixpoint Map_set {V} (k : string) (v : V) (m : list (string * V))
  : list (string * V) :=
  match m with
  | [] => [(k, v)]
  | (k', v') :: r =>
      if String.eqb k' k then (k, v) :: r else (k', v') :: Map_set k v r
  end.

Fixpoint Map_delete {V} (k : string) (m : list (string * V))
  : list (string * V) :=
  match m with
  | [] => []
  | (k', v') :: r =>
      if String.eqb k' k then r else (k', v') :: Map_delete k r
  end.

End Js.

Import Js.

(** ** The fingerprint cache ([createCache], [generateCacheKey]) *)

Module Cache.

Record CacheEntry : Type := {
  data : value;
  timestamp : Z;
  ttl : Z;
  key : string;
  size : Z
}.

(** The variables captured by the closures of [createCache]. *)
Record state : Type := {
  cache : list (string * CacheEntry);
  currentSize : Z
}.

Definition createCache : state := {| cache := []; currentSize := 0 |}.

Definition isExpired (now : Z) (entry : CacheEntry) : bool :=
  now >? timestamp entry + ttl entry.

(** The recurring pair [currentSize -= entry.size; cache.delete(key)]. *)
Definition drop (k : string) (entry : CacheEntry) (st : state) : state :=
  {| cache := Map_delete k (cache st);
     currentSize := currentSize st - size entry |}.

(** The [for ... of cache.entries()] loop of [cleanup]; every entry
    is visited once, and the visited entry may be deleted. *)
Fixpoint cleanup_loop (now : Z) (es : list (string * CacheEntry))
  (st : state) : state :=
  match es with
  | [] => st
  | (k, entry) :: r =>
      if now >? timestamp entry + ttl entry
      then cleanup_loop now r (drop k entry st)
      else cleanup_loop now r st
  end.

Definition cleanup (now : Z) (st : state) : state :=
  cleanup_loop now (cache st) st.

Definition by_timestamp (a b : string * CacheEntry) : Z :=
  timestamp (snd a) - timestamp (snd b).

Definition evictLRU (st : state) : state :=
  match head (sort by_timestamp (cache st)) with
  | Some (k, entry) => drop k entry st
  | None => st
  end.

Definition touch (now : Z) (entry : CacheEntry) : CacheEntry :=
  {| data := data entry; timestamp := now; ttl := ttl entry;
     key := key entry; size := size entry |}.

Definition get (now : Z) (k : string) (st : state) : value * state :=
  match Map_get k (cache st) with
  | None => (VUndefined, st)
  | Some entry =>
      if isExpired now entry then (VUndefined, drop k entry st)
      else (data entry,
            {| cache := Map_set k (touch now entry) (cache st);
               currentSize := currentSize st |})
  end.

Definition del (k : string) (st : state) : bool * state :=
  match Map_get k (cache st) with
  | Some entry => (true, drop k entry st)
  | None => (false, st)
  end.

Definition clear (st : state) : state := {| cache := []; currentSize := 0 |}.

Section createCache.

Variables (maxSize defaultTtl : Z).

Definition over_capacity (sz : Z) (st : state) : bool :=
  (currentSize st + sz >? maxSize) && (Z.of_nat (length (cache st)) >? 0).

(** [while (currentSize + size > maxSize && cache.size > 0) evictLRU()];
    every turn removes an entry, so [length (cache st)] turns are
    enough (lemma [evict_while_exits]). *)
Fixpoint evict_while (fuel : nat) (sz : Z) (st : state) : state :=
  match fuel with
  | O => st
  | S n =>
      if over_capacity sz st then evict_while n sz (evictLRU st) else st
  end.

(** The state in which [set] builds and stores the new entry. *)
Definition make_room (now : Z) (sz : Z) (st : state) : state :=
  let st1 := cleanup now st in
  evict_while (length (cache st1)) sz st1.

(** [set]; [JSON.stringify(data).length] raises a [TypeError] when
    [data] has no JSON text. *)
Definition set (now : Z) (k : string) (d : value) (ttl_arg : option Z)
  (st : state) : completion unit string * state :=
  let st1 := cleanup now st in
  match JSON_stringify d None with
  | None => (Throw "TypeError", st1)
  | Some text =>
      let sz := Z.of_nat (String.length text) in
      let st2 := evict_while (length (cache st1)) sz st1 in
      let entry :=
        {| data := d; timestamp := now;
           ttl := default defaultTtl ttl_arg; key := k; size := sz |} in
      (Normal tt,
       {| cache := Map_set k entry (cache st2);
          currentSize := currentSize st2 + sz |})
  end.

Record Stats : Type := {
  stats_size : Z;
  stats_currentSize : Z;
  stats_maxSize : Z;
  stats_hitRate : Z
}.

Definition getStats (st : state) : Stats :=
  {| stats_size := Z.of_nat (length (cache st));
     stats_currentSize := currentSize st;
     stats_maxSize := maxSize;
     stats_hitRate := 0 |}.

End createCache.

(** [generateCacheKey]; [options] lists the own properties of the
    option bag in enumeration order. *)
Definition generateCacheKey (provider prompt : string)
  (options : list (string * value)) : string :=
  let optionsString :=
    JSON_stringify (VObj options)
      (Some (sort string_cmp (Object_keys options))) in
  let hash :=
    slice0 32
      (btoa (provider +:+ ":" +:+ prompt +:+ ":" +:+ template optionsString)) in
  "ai:" +:+ hash.

End Cache.

(** ** The sliding-window rate limiter ([createRateLimiter]) *)

Module RateLimiter.

Record RateLimitInfo : Type := {
  limit : Z;
  remaining : Z;
  resetTime : Z;
  retryAfter : option Z
}.

Section createRateLimiter.

Variables (requestsPerMinute windowSizeMs : Z).

(** [while (requests.length > 0 && requests[0] < windowStart)
    requests.shift()] *)
Fixpoint purge (windowStart : Z) (requests : list Z) : list Z :=
  match requests with
  | [] => []
  | t :: r => if t <? windowStart then purge windowStart r else t :: r
  end.

Definition isAllowed (now : Z) (requests : list Z) : bool * list Z :=
  let windowStart := now - windowSizeMs in
  let requests' := purge windowStart requests in
  (Z.of_nat (length requests') <? requestsPerMinute, requests').

Definition addRequest (now : Z) (requests : list Z) : list Z :=
  requests ++ [now].

(** [Math.ceil(x / 1000)] on integers. *)
Definition ceil_div_1000 (x : Z) : Z := - ((- x) / 1000).

Definition getRateLimitInfo (now : Z) (requests : list Z)
  : RateLimitInfo * list Z :=
  let windowStart := now - windowSizeMs in
  let requests' := purge windowStart requests in
  let remaining := Z.max 0 (requestsPerMinute - Z.of_nat (length requests')) in
  let resetTime :=
    match head requests' with
    | Some oldestRequest =>
        if oldestRequest =? 0 then now else oldestRequest + windowSizeMs
    | None => now
    end in
  ({| limit := requestsPerMinute;
      remaining := remaining;
      resetTime := resetTime;
      retryAfter :=
        if remaining =? 0 then Some (ceil_div_1000 (resetTime - now))
        else None |},
   requests').

(** [waitForSlot]: the number of milliseconds the caller is suspended. *)
Definition waitForSlot (now : Z) (requests : list Z) : Z * list Z :=
  let '(info, requests') := getRateLimitInfo now requests in
  match retryAfter info with
  | Some s => if (remaining info =? 0) && negb (s =? 0)
              then (s * 1000, requests') else (0, requests')
  | None => (0, requests')
  end.

End createRateLimiter.

End RateLimiter.

(** ** The retry controller ([createRetryHandler]) *)

Module Retry.

(** The fields of a thrown object that the classification reads. *)
Record error : Type := {
  code : option string;
  statusCode : option Z;
  message : option string
}.

(** A thrown value: an object, or a falsy value ([None]). *)
Definition thrown : Type := option error.

Definition retryableCodes : list string :=
  ["ECONNRESET"; "ENOTFOUND"; "ECONNREFUSED"; "ETIMEDOUT";
   "RATE_LIMITED"; "SERVER_ERROR"; "TIMEOUT"]%string.

Definition retryableStatusCodes : list Z := [429; 500; 502; 503; 504].

Definition isRetryableError (e : thrown) : bool :=
  match e with
  | None => false
  | Some err =>
      match code err with
      | Some c => existsb (String.eqb c) retryableCodes
      | None => false
      end
      || match statusCode err with
         | Some n => existsb (Z.eqb n) retryableStatusCodes
         | None => false
         end
      || match message err with
         | Some m => includes "timeout" m
         | None => false
         end
      || match message err with
         | Some m => includes "rate limit" m
         | None => false
         end
  end.

(** What one call of [retry] did: how it completed, how often it
    invoked the operation, and the delays it slept, in order. *)
Record run (T : Type) : Type := {
  outcome : completion T thrown;
  invocations : nat;
  delays : list Q
}.
Arguments outcome {T} r.
Arguments invocations {T} r.
Arguments delays {T} r.

Section createRetryHandler.

Variable maxRetries : Z.
Variables (baseDelayMs maxDelayMs backoffMultiplier : Q).

(** The un-jittered delay [baseDelayMs * Math.pow(backoffMultiplier,
    attempt - 1)]. *)
Definition base_delay (attempt : Z) : Q :=
  (baseDelayMs * backoffMultiplier ^ (attempt - 1))%Q.

(** [Math.random() * 0.1 * delay] for the draw [r]. *)
Definition jitter (r : Q) (attempt : Z) : Q :=
  (r * (1 # 10) * base_delay attempt)%Q.

(** [calculateDelay], with the value [r] of [Math.random()] explicit:
    the value of the delay as long as no intermediate result leaves
    the finite numbers; [Double.calculateDelay] below follows the same
    computation through infinities and [NaN]. *)
Definition calculateDelay (r : Q) (attempt : Z) : Q :=
  let delay := base_delay attempt in
  let jitter := (r * (1 # 10) * delay)%Q in
  Qmin (delay + jitter) maxDelayMs.

Section retry.

Context {T : Type}.

(** [operation n] is how the [n]-th invocation (from 0) of the
    operation completes; [random n] is the [n]-th draw. *)
Variable operation : nat -> completion T thrown.
Variable random : nat -> Q.

(** The [for] loop of [retry]; [calls] counts the invocations made
    so far.  [None] only when [fuel] runs out. *)
Fixpoint retry_loop (fuel : nat) (attempt : Z) (calls : nat)
  (lastError : thrown) (slept : list Q) : option (run T) :=
  match fuel with
  | O => None
  | S n =>
      if attempt <=? maxRetries + 1 then
        match operation calls with
        | Normal v =>
            Some {| outcome := Normal v; invocations := S calls;
                    delays := slept |}
        | Throw e =>
            if (attempt >? maxRetries) || negb (isRetryableError e)
            then Some {| outcome := Throw e; invocations := S calls;
                         delays := slept |}
            else
              let delay := calculateDelay (random calls) attempt in
              retry_loop n (attempt + 1) (S calls) e (slept ++ [delay])
        end
      else Some {| outcome := Throw lastError; invocations := calls;
                   delays := slept |}
  end.

Definition retry : option (run T) :=
  retry_loop (S (Z.to_nat (maxRetries + 1))) 1 0%nat None [].

End retry.

End createRetryHandler.

End Retry.

(** ** [calculateDelay] beyond the finite numbers *)

Module Double.

(** A JavaScript number as far as overflow matters: a finite value,
    kept exact (the rounding of a finite result to 53 bits is not
    modelled), an infinity, or [NaN]. *)
Inductive number : Type :=
| Finite (q : Q)
| Infinity (negative : bool)
| NaN.

(** A result whose magnitude reaches [2^1024 - 2^970], half a unit
    beyond [Number.MAX_VALUE], is an infinity. *)
Definition finite_limit : Q := (2 ^ 1024 - 2 ^ 970)%Q.

Definition round (q : Q) : number :=
  if Qle_bool finite_limit q then Infinity false
  else if Qle_bool q (- finite_limit) then Infinity true
  else Finite q.

Definition is_negative (q : Q) : bool := negb (Qle_bool 0 q).

(** [a * b] *)
Definition mul (a b : number) : number :=
  match a, b with
  | NaN, _ | _, NaN => NaN
  | Finite x, Finite y => round (x * y)
  | Finite x, Infinity s | Infinity s, Finite x =>
      if Qeq_bool x 0 then NaN else Infinity (xorb s (is_negative x))
  | Infinity s, Infinity s' => Infinity (xorb s s')
  end.

(** [a + b] *)
Definition add (a b : number) : number :=
  match a, b with
  | NaN, _ | _, NaN => NaN
  | Finite x, Finite y => round (x + y)
  | Finite _, Infinity s | Infinity s, Finite _ => Infinity s
  | Infinity s, Infinity s' => if eqb s s' then Infinity s else NaN
  end.

(** [Math.min(a, b)] *)
Definition Math_min (a b : number) : number :=
  match a, b with
  | NaN, _ | _, NaN => NaN
  | Infinity true, _ | _, Infinity true => Infinity true
  | Infinity false, y => y
  | x, Infinity false => x
  | Finite x, Finite y => Finite (Qmin x y)
  end.


(** [Math.pow(x, k)] for a finite [x] and an integer [k]; a negative
    power of zero is an infinity. *)
Definition Math_pow (x : Q) (k : Z) : number :=
  if Qeq_bool x 0 && (k <? 0) then Infinity false
  else round (x ^ k).

Section createRetryHandler.

Variables (baseDelayMs maxDelayMs backoffMultiplier : Q).

(** [calculateDelay], with the value [r] of [Math.random()] explicit:
    the computation of [Retry.calculateDelay], step by step, with the
    overflow of each intermediate result. *)
Definition calculateDelay (r : Q) (attempt : Z) : number :=
  let delay :=
    mul (Finite baseDelayMs) (Math_pow backoffMultiplier (attempt - 1)) in
  let jitter := mul (mul (Finite r) (Finite (1 # 10))) delay in
  Math_min (add delay jitter) (Finite maxDelayMs).

End createRetryHandler.

End Double.

(** ** The batch processor ([createBatchProcessor]) *)

Module Batch.

Record BatchRequest : Type := {
  id : string;
  priority : option Z;
  prompt : string
}.

Inductive Status : Type := pending | processing | completed | failed.

Record BatchResponse : Type := {
  response_id : string;
  status : Status;
  result : option string;
  error : option string;
  startTime : option Z;
  endTime : option Z
}.

(** How the promise of one [processRequest] call settles: fulfilled
    with a text, or rejected; the payload of a rejection is the text
    the [catch] clause stores ([error.message], or [String(error)]). *)
Definition settlement : Type := completion string string.

(** A function object: what calling it does, and its own enumerable
    properties. *)
Record Function : Type := {
  call : BatchRequest -> settlement;
  properties : list (string * value)
}.

(** [Object.assign(target, source)] copies the own enumerable
    properties of [source] onto [target] and returns [target]. *)
Definition Object_assign (target source : Function) : Function :=
  {| call := call target;
     properties :=
       foldl (fun m kv => Map_set (fst kv) (snd kv) m)
         (properties target) (properties source) |}.

(** The [processRequest] declared inside [createBatchProcessor]. *)
Definition processRequest_stub : Function :=
  {| call := fun _ => Throw "processRequest function must be injected"%string;
     properties := [] |}.

(** The closure variables of [createBatchProcessor], and where the
    drain loop is suspended.  Response objects live in [heap]; the
    [results] map and the closures in flight hold references to them. *)
Record state : Type := {
  queue : list BatchRequest;
  results : list (string * nat);
  heap : list BatchResponse;
  isProcessing : bool;
  processRequest : Function;
  inflight : list (nat * settlement);
  sleeping : bool
}.

Definition createBatchProcessor : state :=
  {| queue := []; results := []; heap := []; isProcessing := false;
     processRequest := processRequest_stub; inflight := [];
     sleeping := false |}.

Definition by_priority (a b : BatchRequest) : Z :=
  default 0 (priority b) - default 0 (priority a).

Definition mark_processing (now : Z) (r : BatchResponse) : BatchResponse :=
  {| response_id := response_id r; status := processing;
     result := result r; error := error r;
     startTime := Some now; endTime := endTime r |}.

(** The two branches after [await processRequest(request)]. *)
Definition finish (now : Z) (o : settlement) (r : BatchResponse)
  : BatchResponse :=
  match o with
  | Normal text =>
      {| response_id := response_id r; status := completed;
         result := Some text; error := error r;
         startTime := startTime r; endTime := Some now |}
  | Throw msg =>
      {| response_id := response_id r; status := failed;
         result := result r; error := Some msg;
         startTime := startTime r; endTime := Some now |}
  end.

Definition is_terminal (s : Status) : bool :=
  match s with
  | completed | failed => true
  | _ => false
  end.

Section createBatchProcessor.

Variables (batchSize processingDelayMs : Z).

(** The part of one [batch.map] closure that runs before its
    [await]: it fetches the response object, marks it, and calls
    [processRequest]. *)
Definition launch (now : Z) (st : state) (request : BatchRequest) : state :=
  match Map_get (id request) (results st) with
  | Some ref =>
      {| queue := queue st; results := results st;
         heap := alter (mark_processing now) ref (heap st);
         isProcessing := isProcessing st;
         processRequest := processRequest st;
         inflight :=
           inflight st ++ [(ref, call (processRequest st) request)];
         sleeping := sleeping st |}
  | None => st
  end.

(** After [await Promise.allSettled(...)]: sleep when items remain,
    else leave the loop. *)
Definition after_batch (st : state) : state :=
  match queue st with
  | [] =>
      {| queue := []; results := results st; heap := heap st;
         isProcessing := false; processRequest := processRequest st;
         inflight := inflight st; sleeping := false |}
  | _ :: _ =>
      {| queue := queue st; results := results st; heap := heap st;
         isProcessing := isProcessing st;
         processRequest := processRequest st;
         inflight := inflight st; sleeping := true |}
  end.

(** One turn of [while (queue.length > 0)], up to its first [await]. *)
Definition loop_head (now : Z) (st : state) : state :=
  match queue st with
  | [] =>
      {| queue := []; results := results st; heap := heap st;
         isProcessing := false; processRequest := processRequest st;
         inflight := inflight st; sleeping := false |}
  | _ :: _ =>
      let batch := take (Z.to_nat batchSize) (queue st) in
      let st1 :=
        {| queue := drop (Z.to_nat batchSize) (queue st);
           results := results st; heap := heap st;
           isProcessing := isProcessing st;
           processRequest := processRequest st;
           inflight := inflight st; sleeping := false |} in
      let st2 := foldl (launch now) st1 batch in
      match inflight st2 with
      | [] => after_batch st2
      | _ :: _ => st2
      end
  end.

Definition processQueue (now : Z) (st : state) : state :=
  if isProcessing st || bool_decide (queue st = []) then st
  else
    loop_head now
      {| queue := queue st; results := results st; heap := heap st;
         isProcessing := true; processRequest := processRequest st;
         inflight := inflight st; sleeping := sleeping st |}.

Definition addRequest (now : Z) (request : BatchRequest) (st : state)
  : state :=
  let response :=
    {| response_id := id request; status := pending; result := None;
       error := None; startTime := None; endTime := None |} in
  let st1 :=
    {| queue := sort by_priority (queue st ++ [request]);
       results := Map_set (id request) (length (heap st)) (results st);
       heap := heap st ++ [response];
       isProcessing := isProcessing st;
       processRequest := processRequest st;
       inflight := inflight st; sleeping := sleeping st |} in
  if negb (isProcessing st1) then processQueue now st1 else st1.

(** The [i]-th promise in flight settles and its closure resumes;
    when it was the last one, the drain loop resumes too. *)
Definition settle (now : Z) (i : nat) (st : state) : state :=
  match inflight st !! i with
  | None => st
  | Some (ref, o) =>
      let st1 :=
        {| queue := queue st; results := results st;
           heap := alter (finish now o) ref (heap st);
           isProcessing := isProcessing st;
           processRequest := processRequest st;
           inflight := delete i (inflight st);
           sleeping := sleeping st |} in
      match inflight st1 with
      | [] => after_batch st1
      | _ :: _ => st1
      end
  end.

(** The inter-batch [setTimeout] fires. *)
Definition timer (now : Z) (st : state) : state :=
  if sleeping st then loop_head now st else st.

Definition setProcessor (processor : Function) (st : state) : state :=
  {| queue := queue st; results := results st; heap := heap st;
     isProcessing := isProcessing st;
     processRequest := Object_assign (processRequest st) processor;
     inflight := inflight st; sleeping := sleeping st |}.

Definition getStatus (i : string) (st : state) : option BatchResponse :=
  Map_get i (results st) ≫= fun ref => heap st !! ref.

Definition getAllStatuses (st : state) : list BatchResponse :=
  omap (fun kv => heap st !! snd kv) (results st).

Definition getQueueSize (st : state) : Z := Z.of_nat (length (queue st)).

Definition clearCompleted (st : state) : state :=
  {| queue := queue st;
     results :=
       List.filter (fun kv =>
                      match heap st !! snd kv with
                      | Some r => negb (is_terminal (status r))
                      | None => true
                      end) (results st);
     heap := heap st; isProcessing := isProcessing st;
     processRequest := processRequest st;
     inflight := inflight st; sleeping := sleeping st |}.

(** [checkResult] of the promise returned by [addRequest]: settled
    once the response in the map is terminal, polling until then. *)
Definition checkResult (i : string) (st : state)
  : option (completion BatchResponse string) :=
  match getStatus i st with
  | Some r =>
      match status r with
      | completed => Some (Normal r)
      | failed => Some (Throw (default "undefined"%string (error r)))
      | _ => None
      end
  | None => None
  end.

(** What can happen to a processor, with the clock value it sees. *)
Inductive event : Type :=
| Submit (request : BatchRequest)
| Settle (i : nat)
| Timer
| SetProcessor (processor : Function)
| ClearCompleted.

Definition step (st : state) (ev : Z * event) : state :=
  match snd ev with
  | Submit request => addRequest (fst ev) request st
  | Settle i => settle (fst ev) i st
  | Timer => timer (fst ev) st
  | SetProcessor processor => setProcessor processor st
  | ClearCompleted => clearCompleted st
  end.

Definition run (evs : list (Z * event)) (st : state) : state :=
  foldl step st evs.

(** The event loop left alone: promises settle in launch order, the
    timer fires [processingDelayMs] later, until the loop is idle. *)
Fixpoint drain (fuel : nat) (now : Z) (st : state) : state :=
  match fuel with
  | O => st
  | S n =>
      match inflight st with
      | _ :: _ => drain n now (settle now 0 st)
      | [] =>
          if sleeping st
          then drain n (now + processingDelayMs)
                 (timer (now + processingDelayMs) st)
          else st
      end
  end.

End createBatchProcessor.

End Batch.

(** ** The metrics collector ([createMetricsCollector]) *)

Module Metrics.

(** The fields of a metric that the collector reads. *)
Record GenerationMetrics : Type := {
  requestTime : Z;
  responseTime : Z;
  success : bool;
  tokensUsed : Z;
  error : option string
}.

Definition maxMetrics : Z := 10000.

(** [record]: [push], then [splice(0, length - maxMetrics)] when the
    array has grown beyond [maxMetrics]. *)
Definition record (metrics : list GenerationMetrics)
  (metric : GenerationMetrics) : list GenerationMetrics :=
  let pushed := metrics ++ [metric] in
  if Z.of_nat (length pushed) >? maxMetrics
  then drop (Z.to_nat (Z.of_nat (length pushed) - maxMetrics)) pushed
  else pushed.

Definition getMetrics (metrics : list GenerationMetrics)
  : list GenerationMetrics := metrics.

Definition clear (metrics : list GenerationMetrics)
  : list GenerationMetrics := [].

(** An own property of the [errorTypes] object: a count, or the text
    that [+ 1] makes of a member inherited from [Object.prototype],
    with the number of [1]s appended to it so far. *)
Inductive tally : Type :=
| Count (n : Z)
| Garbled (ones : nat).

(** The properties every plain object inherits. *)
Definition Object_prototype_members : list string :=
  ["constructor"; "__defineGetter__"; "__defineSetter__"; "hasOwnProperty";
   "__lookupGetter__"; "__lookupSetter__"; "isPrototypeOf";
   "propertyIsEnumerable"; "toString"; "valueOf"; "__proto__";
   "toLocaleString"]%string.

(** [errorTypes[e] = (errorTypes[e] || 0) + 1] on an object literal:
    an inherited member is read where no own property exists, and an
    assignment of a string to [__proto__] is ignored. *)
Definition bump (errorTypes : gmap string tally) (e : string)
  : gmap string tally :=
  match errorTypes !! e with
  | Some (Count n) => <[e := Count (n + 1)]> errorTypes
  | Some (Garbled ones) => <[e := Garbled (S ones)]> errorTypes
  | None =>
      if String.eqb e "__proto__" then errorTypes
      else if existsb (String.eqb e) Object_prototype_members
           then <[e := Garbled 1]> errorTypes
           else <[e := Count 1]> errorTypes
  end.

(** The body of [recentMetrics.forEach]; the empty string is falsy. *)
Definition count_error (errorTypes : gmap string tally)
  (m : GenerationMetrics) : gmap string tally :=
  match error m with
  | Some e => if String.eqb e "" then errorTypes else bump errorTypes e
  | None => errorTypes
  end.

Record AIMetrics : Type := {
  totalRequests : Z;
  successfulRequests : Z;
  failedRequests : Z;
  averageLatency : Q;
  totalTokensUsed : Z;
  cacheHitRate : Z;
  rateLimitHits : Z;
  providerUsage : gmap string Z;
  modelUsage : gmap string Z;
  errorTypes : gmap string tally
}.

Definition getAggregatedMetrics (timeWindowMs : Z) (now : Z)
  (metrics : list GenerationMetrics) : AIMetrics :=
  let windowStart := now - timeWindowMs in
  let recentMetrics :=
    List.filter (fun m => requestTime m >=? windowStart) metrics in
  let totalRequests := Z.of_nat (length recentMetrics) in
  let successfulRequests :=
    Z.of_nat (length (List.filter success recentMetrics)) in
  let failedRequests := totalRequests - successfulRequests in
  let latencies : list Z :=
    (fun m => responseTime m - requestTime m) <$> recentMetrics in
  let sum_latencies := foldl (fun sum lat => sum + lat) 0 latencies in
  let averageLatency :=
    if Z.of_nat (length latencies) >? 0
    then (inject_Z sum_latencies / inject_Z (Z.of_nat (length latencies)))%Q
    else 0%Q in
  let totalTokensUsed :=
    foldl (fun sum m => sum + tokensUsed m) 0 recentMetrics in
  {| totalRequests := totalRequests;
     successfulRequests := successfulRequests;
     failedRequests := failedRequests;
     averageLatency := averageLatency;
     totalTokensUsed := totalTokensUsed;
     cacheHitRate := 0;
     rateLimitHits := 0;
     providerUsage := ∅;
     modelUsage := ∅;
     errorTypes := foldl count_error ∅ recentMetrics |}.

End Metrics.

(** ** The multi-provider manager ([createMultiProvider]) *)

Module MultiProvider.

Inductive strategy : Type := random | weighted | round_robin | other.

Section createMultiProvider.

Context {AIProvider AIServiceConfig : Type}.

Record entry : Type := {
  provider : AIProvider;
  weight : Q;
  type : string
}.

Variable createAIProvider : string -> AIServiceConfig -> AIProvider.

(** [configs.map(({ type, config, weight = 1 }) => ...)] *)
Definition createMultiProvider
  (configs : list (string * AIServiceConfig * option Q)) : list entry :=
  (fun c =>
     {| provider := createAIProvider (fst (fst c)) (snd (fst c));
        weight := default 1%Q (snd c);
        type := fst (fst c) |}) <$> configs.

Variable providers : list entry.

(** [providers[i].provider]: reading a property of [undefined] raises
    a [TypeError]. *)
Definition provider_at (i : Z) : completion AIProvider string :=
  if i <? 0 then Throw "TypeError"%string
  else match providers !! Z.to_nat i with
       | Some p => Normal (provider p)
       | None => Throw "TypeError"%string
       end.

(** The [for (const p of providers)] loop of the weighted strategy.
    Weights and the draw are exact rationals here, whereas the
    subtractions of the source round to doubles: only what does not
    depend on the rounding is stated of this loop, namely that its
    result, if any, is the provider of a member of the list. *)
Fixpoint weighted_loop (random : Q) (ps : list entry) : option AIProvider :=
  match ps with
  | [] => None
  | p :: rest =>
      let random' := (random - weight p)%Q in
      if Qle_bool random' 0 then Some (provider p)
      else weighted_loop random' rest
  end.

(** [getProvider]; [r] is the value of [Math.random()] and [now] that
    of [Date.now()].  A remainder by zero is [NaN], which indexes
    nothing. *)
Definition getProvider (s : strategy) (r : Q) (now : Z)
  : completion AIProvider string :=
  match s with
  | random =>
      provider_at (Qfloor (r * inject_Z (Z.of_nat (length providers))))
  | weighted =>
      let totalWeight :=
        foldl (fun sum p => (sum + weight p)%Q) 0%Q providers in
      match weighted_loop (r * totalWeight)%Q providers with
      | Some p => Normal p
      | None => provider_at 0
      end
  | round_robin =>
      if bool_decide (providers = []) then Throw "TypeError"%string
      else provider_at (Z.rem now (Z.of_nat (length providers)))
  | other => provider_at 0
  end.

Definition getAllProviders : list AIProvider := provider <$> providers.

End createMultiProvider.

End MultiProvider.

(** ** [generateCompletion] of a provider ([createGroqProvider],
    [createOpenAIProvider]) *)

Module Provider.

(** Truthiness of a value, as [if (cached)] tests it. *)
Definition ToBoolean (v : value) : bool :=
  match v with
  | VUndefined | VNull => false
  | VBool b => b
  | VNum z => negb (z =? 0)
  | VStr s => negb (String.eqb s "")
  | VArr _ | VObj _ => true
  end.

(** What the closures of a provider share with the rest of the
    package: the request log of its rate limiter and the global
    cache. *)
Record state : Type := {
  requests : list Z;
  cache : Cache.state
}.

(** The clock values one call reads, by the place that reads them. *)
Record clock : Type := {
  at_isAllowed : Z;
  at_waitForSlot : Z;
  at_get : Z;
  at_addRequest : nat -> Z;
  at_set : Z
}.

(** What one call did: how it completed, how long it waited for a
    slot, how often it called the client, and the back-off delays. *)
Record trace : Type := {
  outcome : completion value Retry.thrown;
  waited : Z;
  invocations : nat;
  delays : list Q
}.

Section createProvider.

(** The name under which the provider caches, the parameters of its
    rate limiter, of the global cache and of the global retry handler,
    and the error it raises for an empty response. *)
Variable name : string.
Variables (requestsPerMinute windowSizeMs : Z).
Variables (maxSize defaultTtl : Z).
Variable maxRetries : Z.
Variables (baseDelayMs maxDelayMs backoffMultiplier : Q).
Variable empty_response : Retry.thrown.

(** The operation handed to [retry], after its [addRequest]:
    [client n] is how the [n]-th call of the client settles, with the
    content of its first choice if there is one. *)
Definition operation (client : nat -> completion (option string) Retry.thrown)
  (n : nat) : completion value Retry.thrown :=
  match client n with
  | Normal (Some content) =>
      if String.eqb content "" then Throw empty_response
      else Normal (VStr content)
  | Normal None => Throw empty_response
  | Throw e => Throw e
  end.

(** [generateCompletion]; every invocation of the operation starts
    with [rateLimiter.addRequest()], and a string always has a JSON
    text, so that [globalCache.set] returns.  [None] only when the
    retry loop runs out of fuel. *)
Definition generateCompletion (prompt : string)
  (options : list (string * value)) (clk : clock)
  (client : nat -> completion (option string) Retry.thrown)
  (random : nat -> Q) (st : state) : option (trace * state) :=
  let '(allowed, requests1) :=
    RateLimiter.isAllowed requestsPerMinute windowSizeMs
      (at_isAllowed clk) (requests st) in
  let '(wait, requests2) :=
    if allowed then (0, requests1)
    else RateLimiter.waitForSlot requestsPerMinute windowSizeMs
           (at_waitForSlot clk) requests1 in
  let cacheKey := Cache.generateCacheKey name prompt options in
  let '(cached, cache1) := Cache.get (at_get clk) cacheKey (cache st) in
  if ToBoolean cached then
    Some ({| outcome := Normal cached; waited := wait;
             invocations := 0; delays := [] |},
          {| requests := requests2; cache := cache1 |})
  else
    match Retry.retry maxRetries baseDelayMs maxDelayMs backoffMultiplier
            (operation client) random with
    | None => None
    | Some r =>
        let requests3 :=
          requests2 ++ (at_addRequest clk <$> seq 0 (Retry.invocations r)) in
        match Retry.outcome r with
        | Normal result =>
            Some ({| outcome := Normal result; waited := wait;
                     invocations := Retry.invocations r;
                     delays := Retry.delays r |},
                  {| requests := requests3;
                     cache :=
                       snd (Cache.set maxSize defaultTtl (at_set clk)
                              cacheKey result None cache1) |})
        | Throw e =>
            Some ({| outcome := Throw e; waited := wait;
                     invocations := Retry.invocations r;
                     delays := Retry.delays r |},
                  {| requests := requests3; cache := cache1 |})
        end
    end.

End createProvider.

End Provider.

(** ** Syllable counting ([countSyllables]) *)

Module Content.

(** [String.prototype.toLowerCase] on a Latin-1 code unit. *)
Definition toLowerCase_unit (c : ascii) : ascii :=
  let n := N_of_ascii c in
  if ((65 <=? n) && (n <=? 90))%N
     || ((192 <=? n) && (n <=? 222) && negb (n =? 215))%N
  then ascii_of_N (n + 32)
  else c.

Fixpoint toLowerCase (s : string) : string :=
  match s with
  | EmptyString => EmptyString
  | String c r => String (toLowerCase_unit c) (toLowerCase r)
  end.

(** ['aeiouy'.includes(c)] for a single code unit [c]. *)
Definition isVowel (c : ascii) : bool :=
  includes (String c EmptyString) "aeiouy".

(** The [for] loop over the code units of the word. *)
Fixpoint count_loop (previousWasVowel : bool) (syllables : Z) (word : string)
  : Z :=
  match word with
  | EmptyString => syllables
  | String c r =>
      count_loop (isVowel c)
        (if isVowel c && negb previousWasVowel then syllables + 1
         else syllables) r
  end.

(** [word.endsWith('e')] *)
Fixpoint endsWith_e (word : string) : bool :=
  match word with
  | EmptyString => false
  | String c EmptyString => Ascii.eqb c "e"
  | String _ r => endsWith_e r
  end.

Definition countSyllables (word : string) : Z :=
  let word := toLowerCase word in
  if (String.length word <=? 3)%nat then 1
  else
    let syllables := count_loop false 0 word in
    let syllables := if endsWith_e word then syllables - 1 else syllables in
    Z.max 1 syllables.

End Content.

(** ** Vocabulary of the statements *)

(** Successive [addRequest] calls at the times [ts], oldest first. *)
Definition record_calls (ts : list Z) (requests : list Z) : list Z :=
  foldl (fun r t => RateLimiter.addRequest t r) requests ts.

(** The keys of a [Map] are pairwise distinct. *)
Definition Map_wf {V} (m : list (string * V)) : Prop := NoDup (fmap fst m).

(** Sum of the [size] fields of the stored entries. *)
Definition live_size (m : list (string * Cache.CacheEntry)) : Z :=
  foldr (fun kv acc => Cache.size (snd kv) + acc) 0 m.

(** An entry that a sweep at time [now] keeps. *)
Definition unexpired (now : Z) (kv : string * Cache.CacheEntry) : Prop :=
  now <= Cache.timestamp (snd kv) + Cache.ttl (snd kv).

#[global] Instance unexpired_dec now kv : Decision (unexpired now kv) :=
  Z_le_dec _ _.

(** The representation invariant of a cache: distinct keys, a counter
    that equals the sum of the stored sizes, sizes that are string
    lengths, and a total within the capacity unless at most one entry
    is stored. *)
Definition cache_inv (maxSize : Z) (st : Cache.state) : Prop :=
  Map_wf (Cache.cache st) /\
  Cache.currentSize st = live_size (Cache.cache st) /\
  Forall (fun kv => 0 <= Cache.size (snd kv)) (Cache.cache st) /\
  (live_size (Cache.cache st) <= maxSize \/
   (length (Cache.cache st) <= 1)%nat).


(** Deleting the keys of [victims] one after the other. *)
Definition delete_all {V} (victims : list (string * V))
  (m : list (string * V)) : list (string * V) :=
  foldl (fun acc kv => Map_delete (fst kv) acc) m victims.

(** The operations of a cache, each with the clock value it reads. *)
Inductive cache_op : Type :=
| OpGet (now : Z) (k : string)
| OpSet (now : Z) (k : string) (d : value) (ttl_arg : option Z)
| OpDel (k : string)
| OpClear
| OpCleanup (now : Z).

Definition exec (maxSize defaultTtl : Z) (st : Cache.state) (o : cache_op)
  : Cache.state :=
  match o with
  | OpGet now k => snd (Cache.get now k st)
  | OpSet now k d ttl_arg => snd (Cache.set maxSize defaultTtl now k d ttl_arg st)
  | OpDel k => snd (Cache.del k st)
  | OpClear => Cache.clear st
  | OpCleanup now => Cache.cleanup now st
  end.

Definition exec_all (maxSize defaultTtl : Z) (ops : list cache_op)
  (st : Cache.state) : Cache.state :=
  foldl (exec maxSize defaultTtl) st ops.

(** [set] is about to store its entry under a key that is still
    present after the sweep and the evictions. *)
Definition overwrites (maxSize : Z) (st : Cache.state) (o : cache_op) : bool :=
  match o with
  | OpSet now k d _ =>
      match JSON_stringify d None with
      | Some text =>
          bool_decide
            (is_Some
               (Map_get k
                  (Cache.cache
                     (Cache.make_room maxSize now
                        (Z.of_nat (String.length text)) st))))
      | None => false
      end
  | _ => false
  end.

(** No [set] of the sequence overwrites a stored entry. *)
Fixpoint no_overwrite (maxSize defaultTtl : Z) (ops : list cache_op)
  (st : Cache.state) : bool :=
  match ops with
  | [] => true
  | o :: rest =>
      negb (overwrites maxSize st o)
      && no_overwrite maxSize defaultTtl rest (exec maxSize defaultTtl st o)
  end.


(** Successive [get]s of one key at the times [ts]. *)
Fixpoint gets (k : string) (ts : list Z) (st : Cache.state)
  : list value * Cache.state :=
  match ts with
  | [] => ([], st)
  | t :: rest =>
      let '(v, st1) := Cache.get t k st in
      let '(vs, st2) := gets k rest st1 in
      (v :: vs, st2)
  end.

(** Each time of [ts] is at most [gap] after the one before it,
    starting from [t0]. *)
Fixpoint spaced (gap t0 : Z) (ts : list Z) : Prop :=
  match ts with
  | [] => True
  | t :: rest => t <= t0 + gap /\ spaced gap t rest
  end.

(** A value whose JSON text has 40 characters, and one whose JSON text
    has 62. *)
Definition payload_40 : value :=
  VStr "abcdefghijklmnopqrstuvwxyz0123456789AB".
Definition payload_62 : value :=
  VStr "abcdefghijklmnopqrstuvwxyz0123456789ABCDEFGHIJKLMNOPQRSTUVWX".

(** The processor as [setProcessor] is meant to leave it: its
    [processRequest] runs [f]. *)
Definition processor_running (f : Batch.BatchRequest -> Batch.settlement)
  : Batch.state :=
  {| Batch.queue := []; Batch.results := []; Batch.heap := [];
     Batch.isProcessing := false;
     Batch.processRequest := {| Batch.call := f; Batch.properties := [] |};
     Batch.inflight := []; Batch.sleeping := false |}.

(** In-place updates of the cells [fst p] of an array by [snd p], in
    list order. *)
Definition alter_all {A} (gs : list (nat * (A -> A))) (h : list A) : list A :=
  foldl (fun acc p => alter (snd p) (fst p) acc) h gs.

(** The first [n] promises in flight settle, in launch order. *)
Fixpoint settle_all (now : Z) (n : nat) (st : Batch.state) : Batch.state :=
  match n with
  | O => st
  | S m => settle_all now m (Batch.settle now 0 st)
  end.

(** The text with which the [processRequest] of the package rejects. *)
Definition not_injected : string := "processRequest function must be injected".

(** Three requests of equal priority. *)
Definition request_first : Batch.BatchRequest :=
  {| Batch.id := "first"; Batch.priority := None; Batch.prompt := "p0" |}.
Definition request_X : Batch.BatchRequest :=
  {| Batch.id := "X"; Batch.priority := None; Batch.prompt := "p1" |}.
Definition request_Y : Batch.BatchRequest :=
  {| Batch.id := "Y"; Batch.priority := None; Batch.prompt := "p2" |}.

(** The invariant behind the batch results: [processRequest] rejects
    every request, so does every promise in flight, and no response
    object is [completed]. *)
Definition never_completes (st : Batch.state) : Prop :=
  (forall r, Batch.call (Batch.processRequest st) r = Throw not_injected) /\
  Forall (fun p => snd p = Throw not_injected) (Batch.inflight st) /\
  Forall (fun r => Batch.status r <> Batch.completed) (Batch.heap st).

(** An operation every invocation of which raises: the [n]-th one
    raises [errs n]. *)
Definition always_throws {T} (errs : nat -> Retry.thrown)
  : nat -> completion T Retry.thrown :=
  fun n => Throw (errs n).

(** The error object [{ statusCode: 503 }]. *)
Definition error_503 : Retry.thrown :=
  Some {| Retry.code := None; Retry.statusCode := Some 503;
          Retry.message := None |}.

(** What every reachable cache state satisfies, overwrites included:
    distinct keys, a counter that is not below the stored total, and a
    stored total within the capacity unless at most one entry is
    stored. *)
Definition cache_bound (maxSize : Z) (st : Cache.state) : Prop :=
  Map_wf (Cache.cache st) /\
  live_size (Cache.cache st) <= Cache.currentSize st /\
  Forall (fun kv => 0 <= Cache.size (snd kv)) (Cache.cache st) /\
  (live_size (Cache.cache st) <= maxSize \/
   (length (Cache.cache st) <= 1)%nat).

(** Where the drain loop of a batch processor stands: idle with an
    empty queue, waiting for the promises of a batch, or asleep between
    two batches; [isProcessing] is set exactly while it is not idle. *)
Definition scheduled (st : Batch.state) : Prop :=
  match Batch.inflight st, Batch.sleeping st with
  | [], false => Batch.queue st = [] /\ Batch.isProcessing st = false
  | [], true => Batch.isProcessing st = true
  | _ :: _, false => Batch.isProcessing st = true
  | _ :: _, true => False
  end.

(** What the event loop has left to do for a batch processor. *)
Definition batch_measure (st : Batch.state) : nat :=
  3 * length (Batch.queue st) + 2 * length (Batch.inflight st)
  + (if Batch.sleeping st then 1 else 0).

(** Every response listed in [results] is an object of the heap, and
    it is terminal unless its request is still queued or in flight. *)
Definition tracked (st : Batch.state) : Prop :=
  Map_wf (Batch.results st) /\
  forall i ref, (i, ref) ∈ Batch.results st ->
    (ref < length (Batch.heap st))%nat /\
    (i ∈ Batch.id <$> Batch.queue st \/
     ref ∈ fst <$> Batch.inflight st \/
     forall r, Batch.heap st !! ref = Some r ->
               Batch.is_terminal (Batch.status r) = true).

(** [processRequest] rejects every request with the text of the
    declared function, so does every promise in flight, and every
    response object satisfies [P]. *)
Definition stub_inv (P : Batch.BatchResponse -> Prop) (st : Batch.state)
  : Prop :=
  (forall r, Batch.call (Batch.processRequest st) r = Throw not_injected) /\
  Forall (fun p => snd p = Throw not_injected) (Batch.inflight st) /\
  Forall P (Batch.heap st).

(** A response that is not [completed] and, when [failed], carries
    the text of the declared [processRequest]. *)
Definition rejected_by_stub (r : Batch.BatchResponse) : Prop :=
  Batch.status r <> Batch.completed /\
  (Batch.status r = Batch.failed -> Batch.error r = Some not_injected).

(** The requests submitted by a sequence of events. *)
Definition submitted {E} (evs : list (E * Batch.event))
  : list Batch.BatchRequest :=
  omap (fun ev => match snd ev with
                  | Batch.Submit request => Some request
                  | _ => None
                  end) evs.

(** A processor that launches nothing: idle with an empty queue, or
    asleep between two empty batches with a non-empty queue; no
    promise is in flight and every response is [pending]. *)
Definition starving (st : Batch.state) : Prop :=
  Batch.inflight st = [] /\
  Forall (fun r => Batch.status r = Batch.pending) (Batch.heap st) /\
  (Batch.queue st = [] /\ Batch.isProcessing st = false /\
   Batch.sleeping st = false
   \/ Batch.queue st <> [] /\ Batch.isProcessing st = true /\
      Batch.sleeping st = true).

(** The order of the queue: no request precedes one of higher
    priority; a missing priority counts as 0. *)
Definition priority_order (a b : Batch.BatchRequest) : Prop :=
  default 0 (Batch.priority b) <= default 0 (Batch.priority a).

(** The metrics of the window of [getAggregatedMetrics]. *)
Definition recent (timeWindowMs now : Z)
  (metrics : list Metrics.GenerationMetrics)
  : list Metrics.GenerationMetrics :=
  List.filter (fun m => Metrics.requestTime m >=? now - timeWindowMs) metrics.

(** How many of the metrics carry the error text [e]. *)
Definition count_errors (e : string)
  (metrics : list Metrics.GenerationMetrics) : Z :=
  Z.of_nat
    (length
       (List.filter (fun m => bool_decide (Metrics.error m = Some e)) metrics)).

(** What [errorTypes] holds for an error text that occurred [c]
    times: a count, unless the text names a member of
    [Object.prototype]. *)
Definition tally_for (e : string) (c : Z) : option Metrics.tally :=
  if c =? 0 then None
  else if String.eqb e "__proto__" then None
  else if existsb (String.eqb e) Metrics.Object_prototype_members
       then Some (Metrics.Garbled (Z.to_nat c))
       else Some (Metrics.Count c).





(** Every number in the value is an integer that a double holds
    exactly, [|z| < 2^53]: the numbers that [Number_toString] prints as
    JavaScript does. *)
Fixpoint safe_integers (v : value) : bool :=
  match v with
  | VNum z => Z.abs z <? 2 ^ 53
  | VArr items => forallb safe_integers items
  | VObj fields => forallb (fun kv => safe_integers (snd kv)) fields
  | _ => true
  end.

(** [get(k)] at time [now] finds a value. *)
Definition hits (now : Z) (k : string) (st : Cache.state) : bool :=
  match Map_get k (Cache.cache st) with
  | Some e => negb (Cache.isExpired now e)
  | None => false
  end.

(** The operation accesses [k] at the time it returns: a [set] of [k]
    that stores its value, or a [get] of [k] that finds one. *)
Definition accesses (k : string) (st : Cache.state) (o : cache_op)
  : option Z :=
  match o with
  | OpGet now k' =>
      if String.eqb k' k && hits now k st then Some now else None
  | OpSet now k' d _ =>
      if String.eqb k' k && bool_decide (is_Some (JSON_stringify d None))
      then Some now else None
  | _ => None
  end.

(** The time of the last access to [k] in a run of operations from the
    state [st]; [last] is the time of the last access before the run. *)
Fixpoint last_access (maxSize defaultTtl : Z) (k : string)
  (ops : list cache_op) (st : Cache.state) (last : option Z) : option Z :=
  match ops with
  | [] => last
  | o :: rest =>
      last_access maxSize defaultTtl k rest (exec maxSize defaultTtl st o)
        (match accesses k st o with
         | Some t => Some t
         | None => last
         end)
  end.

(** * Properties *)

(** ** Rate limiter *)

Section rate_limiter_facts.

Variables (N W : Z).

Lemma record_calls_app ts requests :
  record_calls ts requests = requests ++ ts.
Proof.
  revert requests. induction ts as [|t ts IH]; intros requests; simpl.
  - by rewrite app_nil_r.
  - rewrite IH. unfold RateLimiter.addRequest. by rewrite <- app_assoc.
Qed.

Lemma purge_length_le ws (l : list Z) :
  (length (RateLimiter.purge ws l) <= length l)%nat.
Proof.
  induction l as [|t l IH]; simpl; [lia|].
  destruct (t <? ws); simpl; lia.
Qed.

(** The purge stops at the first time stamp inside the window, so a
    run of in-window calls at the end of the list survives whole. *)
Lemma purge_keeps_recent ws (old recent : list Z) :
  Forall (fun t => ws <= t) recent ->
  exists kept, RateLimiter.purge ws (old ++ recent) = kept ++ recent.
Proof.
  intros Hrecent. induction old as [|t old IH]; simpl.
  - exists []. destruct Hrecent as [|t recent Ht Hrest]; simpl; [done|].
    destruct (t <? ws) eqn:E; [lia|done].
  - destruct (t <? ws); [exact IH|]. by exists (t :: old).
Qed.

(** C5, as amended.  With limit [N] and window [W]: once [N] calls
    have been recorded whose time stamps all lie in the trailing
    window [[now - W, now]] (both ends included), [isAllowed] answers
    [false], whatever was recorded before them; and on a limiter that
    recorded exactly these [N] calls, [isAllowed] answers [true]
    again at any time [later] with [later - W] strictly above the
    time [t0] of the oldest call, that is, when more than [W]
    milliseconds have passed since that call. *)
Theorem rate_limiter_sliding_window
  (earlier : list Z) (t0 : Z) (rest : list Z) (now later : Z) :
  Z.of_nat (length (t0 :: rest)) = N ->
  Forall (fun t => now - W <= t) (t0 :: rest) ->
  t0 < later - W ->
  fst (RateLimiter.isAllowed N W now (record_calls (t0 :: rest) earlier))
    = false /\
  fst (RateLimiter.isAllowed N W later (record_calls (t0 :: rest) []))
    = true.
Proof.
  intros HN Hin Hout. rewrite !record_calls_app. split.
  - unfold RateLimiter.isAllowed. cbn [fst].
    destruct (purge_keeps_recent (now - W) earlier (t0 :: rest) Hin)
      as [kept ->].
    apply Z.ltb_ge. rewrite length_app. lia.
  - unfold RateLimiter.isAllowed. cbn [fst app RateLimiter.purge].
    apply Z.ltb_lt in Hout as ->.
    apply Z.ltb_lt.
    pose proof (purge_length_le (later - W) rest).
    cbn [length] in HN. lia.
Qed.

End rate_limiter_facts.

(** The scenario of C5 as an instance: limit 2, window 1000 ms, two
    calls at time 0.  At time 1000 the calls are still inside the
    window, at time 1001 they are not. *)
Lemma rate_limiter_sliding_window_witness :
  fst (RateLimiter.isAllowed 2 1000 1000 (record_calls [0; 0] [])) = false /\
  fst (RateLimiter.isAllowed 2 1000 1001 (record_calls [0; 0] [])) = true.
Proof.
  apply (rate_limiter_sliding_window 2 1000 [] 0 [0] 1000 1001).
  - reflexivity.
  - repeat constructor; lia.
  - lia.
Defined.

(** C5 as stated fails on the boundary: with limit 2 and window
    1000 ms, two calls recorded at time 0 are refused at time 0 and are
    still refused when exactly 1000 ms have elapsed. *)
Lemma rate_limiter_1000ms_counterexample :
  let requests := record_calls [0; 0] [] in
  let '(first, requests1) := RateLimiter.isAllowed 2 1000 0 requests in
  let '(second, _) := RateLimiter.isAllowed 2 1000 (0 + 1000) requests1 in
  first = false /\ second <> true.
Proof. vm_compute. split; [reflexivity | discriminate]. Qed.

(** ** Retry controller *)

Section retry_facts.

Variable maxRetries : Z.
Variables (baseDelayMs maxDelayMs backoffMultiplier : Q).

Local Abbreviation calculateDelay :=
  (Retry.calculateDelay baseDelayMs maxDelayMs backoffMultiplier).
Local Abbreviation base_delay :=
  (Retry.base_delay baseDelayMs backoffMultiplier).
Local Abbreviation jitter := (Retry.jitter baseDelayMs backoffMultiplier).

Section attempts.

Context {T : Type}.
Variable random : nat -> Q.

Local Abbreviation retry_loop :=
  (Retry.retry_loop (T := T) maxRetries baseDelayMs maxDelayMs
     backoffMultiplier).

Variable errs : nat -> Retry.thrown.

(** A fatal error stops the loop at the invocation that raised it. *)
Lemma retry_loop_fatal fuel attempt calls last slept :
  Retry.isRetryableError (errs calls) = false ->
  attempt <= maxRetries + 1 ->
  retry_loop (always_throws errs) random (S fuel) attempt calls last slept
  = Some {| Retry.outcome := Throw (errs calls);
            Retry.invocations := S calls;
            Retry.delays := slept |}.
Proof.
  intros Hfatal Hle. cbn [Retry.retry_loop always_throws].
  apply Z.leb_le in Hle as ->. rewrite Hfatal.
  by rewrite orb_true_r.
Qed.

(** With [n] attempts left after the current one, an operation that
    keeps raising retryable errors is invoked [n + 1] more times,
    and the error of the last invocation is the one re-raised. *)
Lemma retry_loop_retryable (n : nat) :
  (forall i, Retry.isRetryableError (errs i) = true) ->
  forall fuel attempt calls last slept,
    Z.of_nat n = maxRetries + 1 - attempt ->
    (n < fuel)%nat ->
    exists slept',
      retry_loop (always_throws errs) random fuel attempt calls last slept
      = Some {| Retry.outcome := Throw (errs (calls + n)%nat);
                Retry.invocations := S (calls + n);
                Retry.delays := slept' |}.
Proof.
  intros Hretry. induction n as [|n IH];
    intros fuel attempt calls last slept Hn Hfuel;
    (destruct fuel as [|fuel]; [lia|]);
    cbn [Retry.retry_loop always_throws].
  - replace (attempt <=? maxRetries + 1) with true
      by (symmetry; apply Z.leb_le; lia).
    replace (attempt >? maxRetries) with true
      by (symmetry; apply Z.gtb_lt; lia).
    cbn [orb]. exists slept. by rewrite Nat.add_0_r.
  - replace (attempt <=? maxRetries + 1) with true
      by (symmetry; apply Z.leb_le; lia).
    replace (attempt >? maxRetries) with false
      by (symmetry; rewrite Z.gtb_ltb; apply Z.ltb_ge; lia).
    rewrite Hretry. cbn [orb negb].
    destruct (IH fuel (attempt + 1) (S calls) (errs calls)
                (slept ++ [calculateDelay (random calls) attempt]))
      as [slept' ->]; [lia|lia|].
    exists slept'. by replace (S calls + n)%nat with (calls + S n)%nat by lia.
Qed.

(** C4.  For a retry bound [maxRetries >= 0] and an operation every
    invocation of which raises, all errors being fatal
    ([retryable = false]) or all being retryable
    ([retryable = true]): [retry] returns (the loop does not run out
    of fuel); it invokes the operation exactly once in the fatal
    case and exactly [maxRetries + 1] times in the retryable case;
    and it re-raises the error of the last invocation. *)
Theorem retry_attempt_counts (retryable : bool) :
  0 <= maxRetries ->
  (forall i, Retry.isRetryableError (errs i) = retryable) ->
  exists r,
    Retry.retry (T := T) maxRetries baseDelayMs maxDelayMs
      backoffMultiplier (always_throws errs) random = Some r /\
    Retry.invocations r =
      (if retryable then Z.to_nat (maxRetries + 1) else 1%nat) /\
    Retry.outcome r = Throw (errs (pred (Retry.invocations r))).
Proof.
  intros Hmax Hclass. unfold Retry.retry. destruct retryable.
  - destruct (retry_loop_retryable (Z.to_nat maxRetries) Hclass
                (S (Z.to_nat (maxRetries + 1))) 1 0%nat None [])
      as [slept' Heq]; [lia|lia|].
    eexists. split; [exact Heq|]. cbn. split; [lia|done].
  - rewrite retry_loop_fatal by (done || lia).
    eexists. split; [done|]. by cbn.
Qed.

End attempts.


End retry_facts.

(** The scenario of C4: [maxRetries = 2] and an operation that always
    raises [{ statusCode: 503 }]: three invocations, then the 503 error
    reaches the caller. *)
Lemma retry_attempt_counts_witness :
  exists r,
    Retry.retry (T := unit) 2 1000 30000 2
      (always_throws (fun _ => error_503)) (fun _ => 0%Q) = Some r /\
    Retry.invocations r = 3%nat /\
    Retry.outcome r = Throw error_503.
Proof.
  apply (retry_attempt_counts 2 1000 30000 2 (T := unit) (fun _ => 0%Q)
           (fun _ => error_503) true).
  - lia.
  - reflexivity.
Defined.

(** ** Maps as association lists *)

Section map_facts.

Context {V : Type}.
Implicit Types (m : list (string * V)) (k : string) (v : V).

Lemma Map_get_None k m : Map_get k m = None <-> k ∉ fmap fst m.
Proof.
  induction m as [|[k' v'] m IH]; simpl.
  - split; [intros _; apply not_elem_of_nil | done].
  - rewrite not_elem_of_cons. destruct (String.eqb_spec k' k) as [->|Hne].
    + split; [done | intros [? _]; done].
    + rewrite IH. split; [intros ?; split; [congruence | done] | tauto].
Qed.

Lemma Map_get_elem_of k v m : Map_get k m = Some v -> (k, v) ∈ m.
Proof.
  induction m as [|[k' v'] m IH]; simpl; [done|].
  destruct (String.eqb_spec k' k) as [->|Hne].
  - intros [= ->]. left.
  - intros H. right. auto.
Qed.

Lemma elem_of_Map_get k v m : Map_wf m -> (k, v) ∈ m -> Map_get k m = Some v.
Proof.
  unfold Map_wf. induction m as [|[k' v'] m IH]; simpl.
  - intros _ H. by apply elem_of_nil in H.
  - rewrite NoDup_cons. intros [Hk' Hm] Hin.
    apply elem_of_cons in Hin as [[= -> ->]|Hin].
    + by rewrite String.eqb_refl.
    + destruct (String.eqb_spec k' k) as [->|Hne]; [|auto].
      exfalso. apply Hk'. apply list_elem_of_fmap. by exists (k, v).
Qed.

Lemma Map_get_set_eq k v m : Map_get k (Map_set k v m) = Some v.
Proof.
  induction m as [|[k' v'] m IH]; simpl.
  - by rewrite String.eqb_refl.
  - destruct (String.eqb_spec k' k) as [->|Hne]; simpl.
    + by rewrite String.eqb_refl.
    + by apply String.eqb_neq in Hne as ->.
Qed.

Lemma Map_get_set_ne k k' v m :
  k' <> k -> Map_get k (Map_set k' v m) = Map_get k m.
Proof.
  intros Hne. induction m as [|[k0 v0] m IH]; simpl.
  - by apply String.eqb_neq in Hne as ->.
  - destruct (String.eqb_spec k0 k') as [->|Hne0]; simpl.
    + by apply String.eqb_neq in Hne as ->.
    + by rewrite IH.
Qed.

Lemma Map_get_delete_ne k k' m :
  k' <> k -> Map_get k (Map_delete k' m) = Map_get k m.
Proof.
  intros Hne. induction m as [|[k0 v0] m IH]; simpl; [done|].
  destruct (String.eqb_spec k0 k') as [->|Hne0]; simpl.
  - by apply String.eqb_neq in Hne as ->.
  - by rewrite IH.
Qed.

Lemma Map_delete_absent k m : Map_get k m = None -> Map_delete k m = m.
Proof.
  induction m as [|[k' v'] m IH]; simpl; [done|].
  destruct (String.eqb_spec k' k) as [->|Hne]; [done|].
  intros H. by rewrite IH.
Qed.

Lemma Map_delete_keys_sub k m x :
  x ∈ fmap fst (Map_delete k m) -> x ∈ fmap fst m.
Proof.
  induction m as [|[k' v'] m IH]; simpl; [done|].
  destruct (String.eqb k' k); simpl.
  - intros H. by right.
  - rewrite !elem_of_cons. intros [->|H]; [by left | right; auto].
Qed.

Lemma Map_delete_sub k m x : x ∈ Map_delete k m -> x ∈ m.
Proof.
  induction m as [|[k' v'] m IH]; simpl; [done|].
  destruct (String.eqb k' k); simpl.
  - intros H. by right.
  - rewrite !elem_of_cons. intros [->|H]; [by left | right; auto].
Qed.

Lemma Map_delete_wf k m : Map_wf m -> Map_wf (Map_delete k m).
Proof.
  unfold Map_wf. induction m as [|[k' v'] m IH]; simpl; [done|].
  rewrite NoDup_cons. intros [Hk' Hm].
  destruct (String.eqb k' k); simpl; [done|].
  apply NoDup_cons. split; [|auto].
  intros H. apply Hk'. eapply Map_delete_keys_sub, H.
Qed.

Lemma Map_get_delete_eq k m : Map_wf m -> Map_get k (Map_delete k m) = None.
Proof.
  unfold Map_wf. induction m as [|[k' v'] m IH]; simpl; [done|].
  rewrite NoDup_cons. intros [Hk' Hm].
  destruct (String.eqb_spec k' k) as [->|Hne]; simpl.
  - by apply Map_get_None.
  - apply String.eqb_neq in Hne as ->. auto.
Qed.

Lemma Map_set_keys k v m :
  fmap fst (Map_set k v m)
  = if Map_get k m is Some _ then fmap fst m else fmap fst m ++ [k].
Proof.
  induction m as [|[k' v'] m IH]; csimpl; [done|].
  destruct (String.eqb_spec k' k) as [->|Hne]; csimpl; [done|].
  rewrite IH. by destruct (Map_get k m).
Qed.

Lemma Map_set_wf k v m : Map_wf m -> Map_wf (Map_set k v m).
Proof.
  unfold Map_wf. rewrite Map_set_keys.
  destruct (Map_get k m) eqn:E; [done|].
  intros Hm. apply NoDup_app. split; [done|]. split.
  - intros x Hx Hk. apply list_elem_of_singleton in Hk as ->.
    by apply Map_get_None in E.
  - apply NoDup_singleton.
Qed.

Lemma Map_set_absent k v m : Map_get k m = None -> Map_set k v m = m ++ [(k, v)].
Proof.
  induction m as [|[k' v'] m IH]; simpl; [done|].
  destruct (String.eqb_spec k' k) as [->|Hne]; [done|].
  intros H. by rewrite IH.
Qed.

Lemma Map_delete_length k v m :
  Map_get k m = Some v -> S (length (Map_delete k m)) = length m.
Proof.
  induction m as [|[k' v'] m IH]; simpl; [done|].
  destruct (String.eqb k' k); simpl; [done|].
  intros H. by rewrite IH.
Qed.

Lemma Map_set_length_present k v v' m :
  Map_get k m = Some v' -> length (Map_set k v m) = length m.
Proof.
  induction m as [|[k' v0] m IH]; simpl; [done|].
  destruct (String.eqb k' k); simpl; [done|].
  intros H. by rewrite IH.
Qed.

End map_facts.

(** ** The stable sort *)

Section sort_facts.

Context {A : Type} (cmp : A -> A -> Z).

Lemma sort_insert_perm x (l : list A) : sort_insert cmp x l ≡ₚ x :: l.
Proof.
  induction l as [|y l IH]; simpl; [done|].
  destruct (cmp x y <=? 0); [done|].
  rewrite IH. apply Permutation_swap.
Qed.

Lemma sort_perm (l : list A) : sort cmp l ≡ₚ l.
Proof.
  induction l as [|x l IH]; simpl; [done|].
  by rewrite sort_insert_perm, IH.
Qed.

Lemma sort_length (l : list A) : length (sort cmp l) = length l.
Proof. by rewrite sort_perm. Qed.

Lemma sort_elem_of x (l : list A) : x ∈ sort cmp l <-> x ∈ l.
Proof. by rewrite sort_perm. Qed.

Section ordered.

Hypothesis cmp_total : forall x y, 0 < cmp x y -> cmp y x <= 0.
Hypothesis cmp_trans :
  forall x y z, cmp x y <= 0 -> cmp y z <= 0 -> cmp x z <= 0.

Lemma sort_insert_sorted x (l : list A) :
  StronglySorted (fun a b => cmp a b <= 0) l ->
  StronglySorted (fun a b => cmp a b <= 0) (sort_insert cmp x l).
Proof.
  induction 1 as [|y l Hl IH Hy]; simpl.
  - repeat constructor.
  - destruct (cmp x y <=? 0) eqn:E.
    + apply Z.leb_le in E. constructor; [by constructor|].
      constructor; [done|].
      eapply Forall_impl; [exact Hy|]. intros z Hz. eauto.
    + apply Z.leb_gt in E. constructor; [done|].
      rewrite sort_insert_perm. constructor; [auto|done].
Qed.

Lemma sort_sorted (l : list A) :
  StronglySorted (fun a b => cmp a b <= 0) (sort cmp l).
Proof.
  induction l as [|x l IH]; simpl; [constructor|].
  by apply sort_insert_sorted.
Qed.

End ordered.

End sort_facts.

(** Deleting from a map the key at the head of its sorted entries
    leaves the tail of the sorted entries. *)
Lemma sort_delete_head {V} (cmp : string * V -> string * V -> Z)
  (m : list (string * V)) k v :
  Map_wf m ->
  head (sort cmp m) = Some (k, v) ->
  sort cmp (Map_delete k m) = tail (sort cmp m).
Proof.
  unfold Map_wf. induction m as [|[k' v'] m IH]; csimpl; [done|].
  rewrite NoDup_cons. intros [Hk' Hm] Hhd.
  destruct (sort cmp m) as [|y s] eqn:Hs; simpl in Hhd.
  - injection Hhd as -> ->. rewrite String.eqb_refl. simpl.
    apply (f_equal length) in Hs. rewrite sort_length in Hs.
    by destruct m.
  - destruct (cmp (k', v') y <=? 0) eqn:E; simpl in Hhd.
    + injection Hhd as -> ->. rewrite String.eqb_refl, Hs. simpl.
      by rewrite E.
    + injection Hhd as ->.
      assert ((k, v) ∈ m) as Hin
        by (apply (sort_elem_of cmp); rewrite Hs; left).
      assert (k' <> k) as Hne.
      { intros ->. apply Hk'. apply list_elem_of_fmap. by exists (k, v). }
      apply String.eqb_neq in Hne as ->. simpl.
      rewrite IH by done. simpl. by rewrite E.
Qed.

(** ** Fingerprint cache *)

Section cache_facts.

Implicit Types (m : list (string * Cache.CacheEntry)) (st : Cache.state).

Lemma live_size_app m1 m2 : live_size (m1 ++ m2) = live_size m1 + live_size m2.
Proof. induction m1 as [|kv m1 IH]; simpl; lia. Qed.

Lemma live_size_perm m1 m2 : m1 ≡ₚ m2 -> live_size m1 = live_size m2.
Proof. induction 1; simpl; lia. Qed.

Lemma live_size_delete k e m :
  Map_get k m = Some e ->
  live_size (Map_delete k m) = live_size m - Cache.size e.
Proof.
  induction m as [|[k' e'] m IH]; simpl; [done|].
  destruct (String.eqb k' k); simpl.
  - intros [= ->]. lia.
  - intros H. rewrite IH by done. lia.
Qed.

Lemma live_size_set_present k e e' m :
  Map_get k m = Some e ->
  live_size (Map_set k e' m) = live_size m - Cache.size e + Cache.size e'.
Proof.
  induction m as [|[k' e0] m IH]; simpl; [done|].
  destruct (String.eqb k' k); simpl.
  - intros [= ->]. lia.
  - intros H. rewrite IH by done. lia.
Qed.

Lemma live_size_set_absent k e' m :
  Map_get k m = None ->
  live_size (Map_set k e' m) = live_size m + Cache.size e'.
Proof.
  intros H. rewrite Map_set_absent by done.
  rewrite live_size_app. simpl. lia.
Qed.

Lemma live_size_nonneg m :
  Forall (fun kv => 0 <= Cache.size (snd kv)) m -> 0 <= live_size m.
Proof. induction 1; simpl; lia. Qed.

(** The sweep, entry by entry: with the entries still to visit at the
    end of the map, it keeps the visited part and filters the rest,
    and the counter drops by the sizes of what it removed. *)
Lemma cleanup_loop_spec now es : forall pre st,
  Cache.cache st = pre ++ es ->
  Map_wf (pre ++ es) ->
  Cache.cache (Cache.cleanup_loop now es st)
    = pre ++ filter (unexpired now) es /\
  Cache.currentSize (Cache.cleanup_loop now es st)
    = Cache.currentSize st
      - (live_size es - live_size (filter (unexpired now) es)).
Proof.
  induction es as [|[k e] es IH]; intros pre st Hst Hwf; simpl.
  - split; [done|lia].
  - assert (Map_get k (pre ++ (k, e) :: es) = Some e) as Hget
      by (apply elem_of_Map_get; [done|]; apply elem_of_app; right; left).
    destruct (now >? Cache.timestamp e + Cache.ttl e) eqn:E.
    + rewrite filter_cons_False by (unfold unexpired; simpl; lia).
      assert (Map_delete k (pre ++ (k, e) :: es) = pre ++ es) as Hdel.
      { clear -Hwf. unfold Map_wf in Hwf.
        induction pre as [|[k' e'] pre IHp]; simpl.
        - by rewrite String.eqb_refl.
        - csimpl in Hwf. apply NoDup_cons in Hwf as [Hk' Hwf].
          destruct (String.eqb_spec k' k) as [->|Hne].
          + exfalso. apply Hk'. rewrite fmap_app. apply elem_of_app.
            right. left.
          + by rewrite IHp. }
      destruct (IH pre (Cache.drop k e st)) as [-> ->].
      * simpl. by rewrite Hst, Hdel.
      * rewrite <- Hdel. by apply Map_delete_wf.
      * split; [done|]. simpl. lia.
    + rewrite filter_cons_True by (unfold unexpired; simpl; lia).
      destruct (IH (pre ++ [(k, e)]) st) as [-> ->].
      * by rewrite <- app_assoc.
      * by rewrite <- app_assoc.
      * split; [by rewrite <- app_assoc|]. simpl. lia.
Qed.

Lemma cleanup_spec now st :
  Map_wf (Cache.cache st) ->
  Cache.cache (Cache.cleanup now st) = filter (unexpired now) (Cache.cache st) /\
  Cache.currentSize (Cache.cleanup now st)
    = Cache.currentSize st
      - (live_size (Cache.cache st)
         - live_size (filter (unexpired now) (Cache.cache st))).
Proof. intros Hwf. by apply (cleanup_loop_spec now _ [] st). Qed.

Section capacity.

Variables (maxSize defaultTtl : Z).

Local Abbreviation inv := (cache_inv maxSize).

Lemma createCache_inv : inv Cache.createCache.
Proof.
  unfold cache_inv, Map_wf. simpl.
  split; [apply NoDup_nil_2|]. split; [done|]. split; [done|]. right. lia.
Qed.

Lemma drop_inv k e st :
  Map_get k (Cache.cache st) = Some e -> inv st -> inv (Cache.drop k e st).
Proof.
  intros Hget (Hwf & Hacc & Hsz & Hbound). unfold cache_inv. simpl.
  assert (0 <= Cache.size e) as He.
  { rewrite Forall_forall in Hsz.
    apply (Hsz (k, e)). by apply Map_get_elem_of. }
  split; [by apply Map_delete_wf|].
  split; [rewrite (live_size_delete k e) by done; lia|].
  split.
  - rewrite Forall_forall in Hsz |- *.
    intros x Hx. eapply Hsz, Map_delete_sub, Hx.
  - rewrite (live_size_delete k e) by done.
    pose proof (Map_delete_length k e _ Hget). lia.
Qed.

Lemma cleanup_loop_inv now es : forall st,
  NoDup (fst <$> es) ->
  (forall k e, (k, e) ∈ es -> Map_get k (Cache.cache st) = Some e) ->
  inv st -> inv (Cache.cleanup_loop now es st).
Proof.
  induction es as [|[k e] es IH]; intros st Hnd Hes Hinv; csimpl; [done|].
  apply NoDup_cons in Hnd as [Hk Hnd].
  destruct (now >? Cache.timestamp e + Cache.ttl e).
  - apply IH; [done| |].
    + intros k' e' Hin. simpl.
      rewrite Map_get_delete_ne; [apply Hes; by right|].
      intros ->. apply Hk. apply list_elem_of_fmap. by exists (k', e').
    + apply drop_inv; [|done]. apply Hes. left.
  - apply IH; [done| |done]. intros k' e' Hin. apply Hes. by right.
Qed.

Lemma cleanup_inv now st : inv st -> inv (Cache.cleanup now st).
Proof.
  intros Hinv. apply cleanup_loop_inv; [apply Hinv| |done].
  intros k e. apply elem_of_Map_get, Hinv.
Qed.

Lemma evictLRU_head st k e :
  Map_wf (Cache.cache st) ->
  head (sort Cache.by_timestamp (Cache.cache st)) = Some (k, e) ->
  Map_get k (Cache.cache st) = Some e.
Proof.
  intros Hwf Hhd. apply elem_of_Map_get; [done|].
  apply (sort_elem_of Cache.by_timestamp).
  destruct (sort _ _); simplify_eq/=. left.
Qed.

Lemma evictLRU_inv st : inv st -> inv (Cache.evictLRU st).
Proof.
  intros Hinv. unfold Cache.evictLRU.
  destruct (head _) as [[k e]|] eqn:Hhd; [|done].
  apply drop_inv; [|done]. apply evictLRU_head; [apply Hinv|done].
Qed.

Lemma evict_while_inv fuel sz : forall st,
  inv st -> inv (Cache.evict_while maxSize fuel sz st).
Proof.
  induction fuel as [|fuel IH]; intros st Hinv; simpl; [done|].
  destruct (Cache.over_capacity _ _ _); [|done].
  by apply IH, evictLRU_inv.
Qed.

Lemma evictLRU_length st :
  Map_wf (Cache.cache st) ->
  length (Cache.cache (Cache.evictLRU st))
  = pred (length (Cache.cache st)).
Proof.
  intros Hwf. unfold Cache.evictLRU.
  destruct (head _) as [[k e]|] eqn:Hhd.
  - simpl. pose proof (evictLRU_head st k e Hwf Hhd) as Hget.
    apply Map_delete_length in Hget. lia.
  - apply head_None in Hhd. apply (f_equal length) in Hhd.
    rewrite sort_length in Hhd. simpl in Hhd. by rewrite Hhd.
Qed.

(** The eviction loop ends because the condition fails, not because
    the fuel is used up. *)
Lemma evict_while_exits fuel sz : forall st,
  inv st ->
  (length (Cache.cache st) <= fuel)%nat ->
  Cache.over_capacity maxSize sz (Cache.evict_while maxSize fuel sz st)
  = false.
Proof.
  induction fuel as [|fuel IH]; intros st Hinv Hlen; simpl.
  - unfold Cache.over_capacity.
    replace (length (Cache.cache st)) with 0%nat by lia.
    by rewrite andb_false_r.
  - destruct (Cache.over_capacity maxSize sz st) eqn:Hover; [|done].
    apply IH; [by apply evictLRU_inv|].
    rewrite evictLRU_length by apply Hinv. lia.
Qed.

Lemma make_room_inv now sz st :
  inv st -> inv (Cache.make_room maxSize now sz st).
Proof. intros Hinv. by apply evict_while_inv, cleanup_inv. Qed.

Lemma make_room_exits now sz st :
  inv st ->
  Cache.over_capacity maxSize sz (Cache.make_room maxSize now sz st)
  = false.
Proof.
  intros Hinv. apply evict_while_exits; [by apply cleanup_inv|done].
Qed.

Lemma get_inv now k st : inv st -> inv (snd (Cache.get now k st)).
Proof.
  intros Hinv. unfold Cache.get.
  destruct (Map_get k (Cache.cache st)) as [e|] eqn:Hget; [|done].
  destruct (Cache.isExpired now e); [by apply drop_inv|].
  destruct Hinv as (Hwf & Hacc & Hsz & Hbound). unfold cache_inv. simpl.
  split; [by apply Map_set_wf|].
  split; [rewrite (live_size_set_present k e) by done; simpl; lia|].
  assert (0 <= Cache.size e) as He.
  { rewrite Forall_forall in Hsz.
    apply (Hsz (k, e)). by apply Map_get_elem_of. }
  split.
  - clear -Hsz He. induction (Cache.cache st) as [|[k' e'] m IH]; simpl.
    + by repeat constructor.
    + apply Forall_cons in Hsz as [H1 H2].
      destruct (String.eqb k' k); constructor; auto.
  - rewrite (live_size_set_present k e) by done.
    rewrite (Map_set_length_present k _ e) by done. simpl. lia.
Qed.

Lemma del_inv k st : inv st -> inv (snd (Cache.del k st)).
Proof.
  intros Hinv. unfold Cache.del.
  destruct (Map_get k (Cache.cache st)) as [e|] eqn:Hget; [|done].
  by apply drop_inv.
Qed.

(** [set] keeps the invariant when it does not overwrite. *)
Lemma set_inv now k d ttl_arg st :
  overwrites maxSize st (OpSet now k d ttl_arg) = false ->
  inv st ->
  inv (snd (Cache.set maxSize defaultTtl now k d ttl_arg st)).
Proof.
  intros Hfresh Hinv. unfold Cache.set. simpl in Hfresh.
  destruct (JSON_stringify d None) as [text|]; [|by apply cleanup_inv].
  set (sz := Z.of_nat (String.length text)) in *.
  fold (Cache.make_room maxSize now sz st).
  pose proof (make_room_inv now sz st Hinv) as (Hwf & Hacc & Hsz & Hbound).
  pose proof (make_room_exits now sz st Hinv) as Hexit.
  set (st2 := Cache.make_room maxSize now sz st) in *.
  apply bool_decide_eq_false in Hfresh.
  assert (Map_get k (Cache.cache st2) = None) as Hnone
    by (destruct (Map_get k (Cache.cache st2)); [exfalso; eauto|done]).
  unfold cache_inv. simpl.
  split; [by apply Map_set_wf|].
  split; [rewrite live_size_set_absent by done; simpl; lia|].
  rewrite live_size_set_absent, Map_set_absent by done. simpl.
  split; [apply Forall_app; split; [done|]; repeat constructor; simpl; lia|].
  unfold Cache.over_capacity in Hexit.
  apply andb_false_iff in Hexit as [Hfit|Hempty].
  - left. rewrite Z.gtb_ltb in Hfit. apply Z.ltb_ge in Hfit. lia.
  - right. rewrite Z.gtb_ltb in Hempty. apply Z.ltb_ge in Hempty.
    rewrite length_app. simpl. lia.
Qed.

Lemma exec_inv st o :
  overwrites maxSize st o = false ->
  inv st -> inv (exec maxSize defaultTtl st o).
Proof.
  destruct o; simpl exec; intros Hfresh Hinv.
  - by apply get_inv.
  - by apply set_inv.
  - by apply del_inv.
  - apply createCache_inv.
  - by apply cleanup_inv.
Qed.

Lemma exec_all_inv ops : forall st,
  no_overwrite maxSize defaultTtl ops st = true ->
  inv st -> inv (exec_all maxSize defaultTtl ops st).
Proof.
  induction ops as [|o ops IH]; intros st Hfresh Hinv; simpl; [done|].
  simpl in Hfresh. apply andb_true_iff in Hfresh as [Ho Hrest].
  apply negb_true_iff in Ho.
  apply IH; [done|]. by apply exec_inv.
Qed.

(** C3, as amended.  For a capacity [maxSize >= 0] and every
    sequence of cache operations ([get], [set] with any value and
    ttl, [del], [clear], [cleanup]) that starts from the empty cache
    and in which no [set] overwrites a stored entry: the counter
    [currentSize] equals the sum of the sizes of the stored entries,
    and that sum is at most [maxSize] unless the cache holds exactly
    one entry whose own size exceeds [maxSize]. *)
Theorem cache_capacity_invariant (ops : list cache_op) :
  0 <= maxSize ->
  no_overwrite maxSize defaultTtl ops Cache.createCache = true ->
  let st := exec_all maxSize defaultTtl ops Cache.createCache in
  Cache.currentSize st = live_size (Cache.cache st) /\
  (live_size (Cache.cache st) <= maxSize \/
   exists k e, Cache.cache st = [(k, e)] /\ maxSize < Cache.size e).
Proof.
  intros Hmax Hfresh st.
  destruct (exec_all_inv ops _ Hfresh createCache_inv)
    as (_ & Hacc & _ & Hbound).
  fold st in Hacc, Hbound. split; [done|].
  destruct Hbound as [Hle|Hlen]; [by left|].
  destruct (Cache.cache st) as [|[k e] [|? ?]] eqn:Hc;
    simpl in *; [left; lia| |lia].
  destruct (decide (Cache.size e <= maxSize)); [left; lia|].
  right. exists k, e. split; [done|lia].
Qed.

End capacity.

End cache_facts.

(** *** Eviction order *)

Section eviction.

Variables (maxSize : Z).

Lemma by_timestamp_total x y :
  0 < Cache.by_timestamp x y -> Cache.by_timestamp y x <= 0.
Proof. unfold Cache.by_timestamp. lia. Qed.

Lemma by_timestamp_trans x y z :
  Cache.by_timestamp x y <= 0 -> Cache.by_timestamp y z <= 0 ->
  Cache.by_timestamp x z <= 0.
Proof. unfold Cache.by_timestamp. lia. Qed.

(** The loop removes a prefix of the entries in time-stamp order, one
    entry per turn, and takes a turn only while the counter says that
    the new entry does not fit. *)
Lemma evict_while_spec fuel sz : forall st,
  Map_wf (Cache.cache st) ->
  exists n,
    let sorted := sort Cache.by_timestamp (Cache.cache st) in
    let st' := Cache.evict_while maxSize fuel sz st in
    Cache.cache st' = delete_all (take n sorted) (Cache.cache st) /\
    Cache.currentSize st'
      = Cache.currentSize st - live_size (take n sorted) /\
    sort Cache.by_timestamp (Cache.cache st') = drop n sorted /\
    forall j, (j < n)%nat ->
      maxSize < Cache.currentSize st - live_size (take j sorted) + sz.
Proof.
  induction fuel as [|fuel IH]; intros st Hwf; simpl.
  - exists 0%nat. simpl. rewrite drop_0.
    split; [done|]. split; [lia|]. split; [done|]. lia.
  - destruct (Cache.over_capacity maxSize sz st) eqn:Hover; cycle 1.
    { exists 0%nat. simpl. rewrite drop_0.
      split; [done|]. split; [lia|]. split; [done|]. lia. }
    unfold Cache.over_capacity in Hover.
    apply andb_true_iff in Hover as [Hbig Hne].
    rewrite Z.gtb_ltb in Hbig. apply Z.ltb_lt in Hbig.
    unfold Cache.evictLRU.
    destruct (sort Cache.by_timestamp (Cache.cache st))
      as [|[k e] sorted] eqn:Hsort.
    { apply (f_equal length) in Hsort. rewrite sort_length in Hsort.
      simpl in Hsort. rewrite Hsort in Hne. done. }
    simpl head. cbv iota.
    assert (sort Cache.by_timestamp (Map_delete k (Cache.cache st)) = sorted)
      as Htail.
    { rewrite (sort_delete_head _ _ k e) by (by rewrite ?Hsort).
      by rewrite Hsort. }
    destruct (IH (Cache.drop k e st)) as (n & Hc & Hs & Hd & Hneed).
    { by apply Map_delete_wf. }
    simpl in Hc, Hs, Hd, Hneed. rewrite Htail in Hc, Hs, Hd, Hneed.
    exists (S n). simpl.
    split; [done|]. split; [lia|]. split; [done|].
    intros [|j] Hj; simpl; [lia|].
    specialize (Hneed j). lia.
Qed.

End eviction.

(** Settles the integer comparisons of the goal that linear
    arithmetic decides from the context. *)
Ltac settle_comparisons :=
  repeat match goal with
    | |- context [?a >? ?b] =>
        first
          [ replace (a >? b) with true
              by (symmetry; rewrite Z.gtb_ltb; apply Z.ltb_lt; lia)
          | replace (a >? b) with false
              by (symmetry; rewrite Z.gtb_ltb; apply Z.ltb_ge; lia) ]
    | |- context [?a <=? ?b] =>
        first
          [ replace (a <=? b) with true by (symmetry; apply Z.leb_le; lia)
          | replace (a <=? b) with false by (symmetry; apply Z.leb_gt; lia) ]
    end.

(** Settles the key comparisons of the goal from the disequalities of
    the context. *)
Ltac settle_keys :=
  repeat match goal with
    | |- context [String.eqb ?a ?a] => rewrite (String.eqb_refl a)
    | H : ?a <> ?b |- context [String.eqb ?a ?b] =>
        rewrite (proj2 (String.eqb_neq a b) H)
    | H : ?b <> ?a |- context [String.eqb ?a ?b] =>
        rewrite (proj2 (String.eqb_neq a b) (not_eq_sym H))
    end.

(** [set] of a value that has a JSON text. *)
Lemma set_stores maxSize defaultTtl now k d ttl_arg st text :
  JSON_stringify d None = Some text ->
  Cache.set maxSize defaultTtl now k d ttl_arg st
  = (Normal tt,
     let sz := Z.of_nat (String.length text) in
     let st2 := Cache.make_room maxSize now sz st in
     {| Cache.cache :=
          Map_set k
            {| Cache.data := d; Cache.timestamp := now;
               Cache.ttl := default defaultTtl ttl_arg; Cache.key := k;
               Cache.size := sz |}
            (Cache.cache st2);
        Cache.currentSize := Cache.currentSize st2 + sz |}).
Proof. intros H. unfold Cache.set. by rewrite H. Qed.

(** C3 on a run that sets, reads, deletes, sweeps and finally stores an
    entry larger than the capacity of 100. *)
Lemma cache_capacity_invariant_witness :
  let st :=
    exec_all 100 3600000
      [OpSet 0 "k1" payload_40 None; OpSet 1 "k2" payload_40 (Some 5);
       OpGet 2 "k1"; OpSet 3 "k3" payload_40 None; OpDel "k2";
       OpCleanup 10; OpSet 11 "k4" (VArr [payload_62; payload_62]) None;
       OpClear; OpSet 12 "k5" VUndefined None]
      Cache.createCache in
  Cache.currentSize st = live_size (Cache.cache st) /\
  (live_size (Cache.cache st) <= 100 \/
   exists k e, Cache.cache st = [(k, e)] /\ 100 < Cache.size e).
Proof.
  apply (cache_capacity_invariant 100 3600000); [lia|].
  vm_compute. reflexivity.
Defined.

(** C3 as stated fails: with capacity 10, one [set] of a value whose
    JSON text has 40 characters leaves 40 bytes stored. *)
Lemma cache_capacity_counterexample :
  let st := exec_all 10 3600000 [OpSet 0 "k" payload_40 None] Cache.createCache in
  ~ (live_size (Cache.cache st) <= 10 /\
     Cache.currentSize st = live_size (Cache.cache st)).
Proof. vm_compute. intros [H _]. apply H. reflexivity. Qed.

(** What the amended C3 leaves open: [set] on a stored key replaces
    the entry and adds the new size without subtracting the old one. *)
Lemma cache_overwrite_counter :
  let st :=
    exec_all 100 3600000
      [OpSet 0 "k" payload_40 None; OpSet 1 "k" payload_40 None]
      Cache.createCache in
  live_size (Cache.cache st) = 40 /\ Cache.currentSize st = 80.
Proof. vm_compute. split; reflexivity. Qed.

(** *** Distinct keys are preserved *)

Lemma cleanup_loop_wf now es : forall st,
  Map_wf (Cache.cache st) -> Map_wf (Cache.cache (Cache.cleanup_loop now es st)).
Proof.
  induction es as [|[k e] es IH]; intros st Hwf; simpl; [done|].
  destruct (now >? Cache.timestamp e + Cache.ttl e); [|auto].
  apply IH. by apply Map_delete_wf.
Qed.

Lemma evict_while_wf maxSize fuel sz : forall st,
  Map_wf (Cache.cache st) ->
  Map_wf (Cache.cache (Cache.evict_while maxSize fuel sz st)).
Proof.
  induction fuel as [|fuel IH]; intros st Hwf; simpl; [done|].
  destruct (Cache.over_capacity _ _ _); [|done].
  apply IH. unfold Cache.evictLRU.
  destruct (head _) as [[k e]|]; [|done]. by apply Map_delete_wf.
Qed.


(** *** Round trip and expiry *)

Section roundtrip.

Variables (maxSize defaultTtl : Z).
Variables (k : string) (e0 : Cache.CacheEntry).







End roundtrip.


(** *** Hits refresh the time stamp *)

Section refresh.

Variable k : string.

(** While every [get] comes at most one ttl after the previous
    access, every [get] hits, and the entry ends up stamped with the
    time of the last access. *)
Lemma gets_hit ts : forall st e,
  Map_get k (Cache.cache st) = Some e ->
  spaced (Cache.ttl e) (Cache.timestamp e) ts ->
  Forall (fun r => r = Cache.data e) (fst (gets k ts st)) /\
  Map_get k (Cache.cache (snd (gets k ts st)))
  = Some (Cache.touch (default (Cache.timestamp e) (last ts)) e).
Proof.
  induction ts as [|t ts IH]; intros st e Hget Hsp; simpl.
  - split; [done|]. rewrite Hget. by destruct e.
  - destruct Hsp as [Ht Hsp]. unfold Cache.get, Cache.isExpired.
    rewrite Hget. settle_comparisons.
    set (st1 := {| Cache.cache := _ |}).
    destruct (IH st1 (Cache.touch t e)) as [Hall Hlast].
    { apply Map_get_set_eq. }
    { done. }
    destruct (gets k ts st1) as [vs st2]. simpl in *.
    split; [by constructor|]. rewrite Hlast. f_equal.
    unfold Cache.touch. simpl. f_equal.
    destruct ts as [|t' ts]; [done|].
    by rewrite !last_cons; destruct (last ts).
Qed.

End refresh.

(** C10.  After [set(k, v, ttl)] returned normally at time [t0], let
    [get(k)] be called at the times [ts], each at most [ttl] after the
    access before it (the first at most [ttl] after [t0]).  Then every
    one of these calls returns [v], however far the times run past
    [t0 + ttl]; and a [get(k)] that comes more than [ttl] after the last
    of them (after [t0] when there was none) returns absent. *)
Theorem cache_hit_extends_lifetime
  (maxSize defaultTtl : Z) (st : Cache.state) (k : string) (v : value)
  (ttl_arg : option Z) (text : string) (t0 : Z) (ts : list Z) (late : Z) :
  JSON_stringify v None = Some text ->
  let ttl := default defaultTtl ttl_arg in
  let st1 := snd (Cache.set maxSize defaultTtl t0 k v ttl_arg st) in
  spaced ttl t0 ts ->
  default t0 (last ts) + ttl < late ->
  Forall (fun r => r = v) (fst (gets k ts st1)) /\
  fst (Cache.get late k (snd (gets k ts st1))) = VUndefined.
Proof.
  intros Hv ttl st1 Hsp Hlate.
  set (e0 := {| Cache.data := v; Cache.timestamp := t0; Cache.ttl := ttl;
                Cache.key := k;
                Cache.size := Z.of_nat (String.length text) |}).
  assert (Map_get k (Cache.cache st1) = Some e0) as Hst1.
  { unfold st1. rewrite (set_stores _ _ _ _ _ _ _ text Hv). simpl.
    apply Map_get_set_eq. }
  destruct (gets_hit k ts st1 e0 Hst1 Hsp) as [Hall Hlast].
  split; [done|].
  unfold Cache.get, Cache.isExpired. rewrite Hlast. simpl.
  by settle_comparisons.
Qed.

(** C10 with a ttl of 100 ms: stored at time 0 and read at times 90,
    180 and 270, the value is returned each time, the last time 170 ms
    after the ttl counted from the insertion ran out; the read at time
    371 finds nothing. *)
Lemma cache_hit_extends_lifetime_witness :
  let st1 := snd (Cache.set 100 3600000 0 "a" payload_40 (Some 100)
                    Cache.createCache) in
  Forall (fun r => r = payload_40) (fst (gets "a" [90; 180; 270] st1)) /\
  fst (Cache.get 371 "a" (snd (gets "a" [90; 180; 270] st1))) = VUndefined.
Proof.
  apply (cache_hit_extends_lifetime 100 3600000 Cache.createCache "a"
           payload_40 (Some 100)
           (default ""%string (JSON_stringify payload_40 None))
           0 [90; 180; 270] 371).
  - reflexivity.
  - simpl. lia.
  - simpl. lia.
Defined.

(** ** Cache keys *)

Section key_order.

Local Abbreviation lts := OrderedTypeEx.String_as_OT.lt.

Lemma string_cmp_le a b : string_cmp a b <= 0 <-> a = b \/ lts a b.
Proof.
  unfold string_cmp.
  destruct (String.compare a b) eqn:E.
  - apply OrderedTypeEx.String_as_OT.cmp_eq in E. split; [by left|lia].
  - apply OrderedTypeEx.String_as_OT.cmp_lt in E. split; [by right|lia].
  - split; [lia|]. intros [->|Hlt].
    + assert (String.compare b b = Eq) as Hb
        by by apply OrderedTypeEx.String_as_OT.cmp_eq.
      congruence.
    + apply OrderedTypeEx.String_as_OT.cmp_lt in Hlt.
      unfold OrderedTypeEx.String_as_OT.cmp in Hlt. congruence.
Qed.

Lemma string_cmp_total a b : 0 < string_cmp a b -> string_cmp b a <= 0.
Proof.
  unfold string_cmp.
  pose proof (OrderedTypeEx.String_as_OT.cmp_antisym b a) as H.
  unfold OrderedTypeEx.String_as_OT.cmp in H. rewrite H.
  destruct (String.compare a b); simpl; lia.
Qed.

Lemma string_cmp_trans a b c :
  string_cmp a b <= 0 -> string_cmp b c <= 0 -> string_cmp a c <= 0.
Proof.
  rewrite !string_cmp_le. intros [->|Hab] [->|Hbc]; auto.
  right. eapply OrderedTypeEx.String_as_OT.lt_trans; eauto.
Qed.

Lemma string_cmp_antisym a b :
  string_cmp a b <= 0 -> string_cmp b a <= 0 -> a = b.
Proof.
  intros H1 H2.
  destruct (proj1 (string_cmp_le a b) H1) as [->|Hab]; [done|].
  destruct (proj1 (string_cmp_le b a) H2) as [->|Hba]; [done|].
  exfalso.
  exact (OrderedTypeEx.String_as_OT.lt_not_eq a a
           (OrderedTypeEx.String_as_OT.lt_trans a b a Hab Hba) eq_refl).
Qed.

(** [Object.keys(o).sort()] does not depend on the enumeration order. *)
Lemma sort_keys_perm (l1 l2 : list string) :
  l1 ≡ₚ l2 -> sort string_cmp l1 = sort string_cmp l2.
Proof.
  intros Hperm.
  apply (StronglySorted_unique_strong (fun a b => string_cmp a b <= 0)).
  - intros. by apply string_cmp_antisym.
  - apply sort_sorted; [apply string_cmp_total|apply string_cmp_trans].
  - apply sort_sorted; [apply string_cmp_total|apply string_cmp_trans].
  - by rewrite !sort_perm.
Qed.

End key_order.

Lemma Map_get_perm {V} (k : string) (m1 m2 : list (string * V)) :
  Map_wf m1 -> m1 ≡ₚ m2 -> Map_get k m1 = Map_get k m2.
Proof.
  intros Hwf1 Hperm.
  assert (Map_wf m2) as Hwf2 by (unfold Map_wf in *; by rewrite <- Hperm).
  destruct (Map_get k m1) as [v|] eqn:E1.
  - symmetry. apply elem_of_Map_get; [done|].
    rewrite <- Hperm. by apply Map_get_elem_of.
  - symmetry. apply Map_get_None. apply Map_get_None in E1.
    by rewrite <- Hperm.
Qed.

(** With a property list, an object is rendered through look-ups of
    the listed keys only. *)
Lemma SerializeJSONProperty_object keys (fields : list (string * value)) :
  SerializeJSONProperty (Some keys) (VObj fields)
  = Some ("{" +:+
          join_comma
            (omap (fun K =>
                     x ← Map_get K fields;
                     s ← SerializeJSONProperty (Some keys) x;
                     Some (QuoteJSONString K +:+ ":" +:+ s)) keys)
          +:+ "}").
Proof.
  cbn [SerializeJSONProperty]. do 4 f_equal.
  apply list_omap_ext, Forall2_same_length_lookup_2; [done|].
  intros i K K' HK HK'. simplify_eq.
  induction fields as [|[k x] fields IH]; simpl; [done|].
  destruct (String.eqb k K); [|done].
  csimpl. by destruct (SerializeJSONProperty (Some keys) x).
Qed.

(** X28, the stable half of C2: two option bags with the same
    properties, enumerated in any order, have the same key. *)
Lemma generateCacheKey_stable provider prompt
  (options1 options2 : list (string * value)) :
  Map_wf options1 -> options1 ≡ₚ options2 ->
  Cache.generateCacheKey provider prompt options1
  = Cache.generateCacheKey provider prompt options2.
Proof.
  intros Hwf Hperm. unfold Cache.generateCacheKey, JSON_stringify, Object_keys.
  rewrite (sort_keys_perm (fst <$> options1) (fst <$> options2))
    by by rewrite Hperm.
  rewrite !SerializeJSONProperty_object.
  set (keys := sort string_cmp (fst <$> options2)).
  match goal with
  | |- context [omap ?f keys] =>
      match goal with
      | |- context [omap ?g keys] =>
          assert (omap f keys = omap g keys) as Hsame;
          [|assert_fails (constr_eq f g); by rewrite Hsame]
      end
  end.
  apply list_omap_ext, Forall2_same_length_lookup_2; [done|].
  intros i K K' HK HK'. simplify_eq.
  by rewrite (Map_get_perm K options1 options2).
Qed.

(** *** Only 24 code units reach the key *)

Lemma code_units_app (a b : string) :
  code_units (a +:+ b) = code_units a ++ code_units b.
Proof.
  unfold code_units. rewrite <- map_app. f_equal.
  induction a as [|c a IH]; simpl; [done|]. by rewrite IH.
Qed.

Lemma code_units_length (a : string) : length (code_units a) = String.length a.
Proof.
  unfold code_units. rewrite length_map.
  induction a as [|c a IH]; simpl; [done|]. by rewrite IH.
Qed.

(** Base64 works on groups of three bytes, so it distributes over a
    split after a multiple of three. *)
Lemma b64_encode_app (n : nat) : forall l1 l2 : list N,
  length l1 = (3 * n)%nat ->
  b64_encode (l1 ++ l2) = b64_encode l1 ++ b64_encode l2 /\
  length (b64_encode l1) = (4 * n)%nat.
Proof.
  induction n as [|n IH]; intros l1 l2 Hlen.
  - destruct l1; [done|simpl in Hlen; lia].
  - destruct l1 as [|a [|b [|c l1]]]; simpl in Hlen; try lia.
    destruct (IH l1 l2) as [Happ Hl]; [lia|].
    cbn [app b64_encode]. rewrite Happ. split; [done|].
    cbn [length]. rewrite Hl. lia.
Qed.

Lemma slice0_app (A B : list ascii) :
  slice0 (length A) (string_of_list_ascii (A ++ B)) = string_of_list_ascii A.
Proof.
  unfold slice0. induction A as [|c A IH]; simpl.
  - by destruct (string_of_list_ascii B).
  - by rewrite IH.
Qed.

(** The hash is the Base64 text of the first 24 code units. *)
Lemma slice_btoa (s : string) :
  (24 <= String.length s)%nat ->
  slice0 32 (btoa s) = string_of_list_ascii (b64_encode (take 24 (code_units s))).
Proof.
  intros Hlen. unfold btoa.
  rewrite <- (take_drop 24 (code_units s)) at 1.
  destruct (b64_encode_app 8 (take 24 (code_units s)) (drop 24 (code_units s)))
    as [-> Hl].
  { rewrite length_take, code_units_length. lia. }
  change 32%nat with (4 * 8)%nat. rewrite <- Hl. apply slice0_app.
Qed.


(** C2 at a failing input: provider [groq], a 24-character prompt, and
    two option bags that differ in the value of [maxTokens] obtain the
    same key. *)
Theorem generateCacheKey_collision :
  let options1 := [("maxTokens", VNum 100)]%string in
  let options2 := [("maxTokens", VNum 200)]%string in
  Map_get "maxTokens" options1 <> Map_get "maxTokens" options2 /\
  Cache.generateCacheKey "groq" "Write a tweet about cats" options1
  = "ai:Z3JvcTpXcml0ZSBhIHR3ZWV0IGFib3V0"%string /\
  Cache.generateCacheKey "groq" "Write a tweet about cats" options2
  = "ai:Z3JvcTpXcml0ZSBhIHR3ZWV0IGFib3V0"%string.
Proof. vm_compute. split; [discriminate|by split]. Qed.

(** ** Batch processor *)

Section batch_facts.

Variables (batchSize processingDelayMs : Z).

Local Abbreviation step := (Batch.step batchSize).
Local Abbreviation run := (Batch.run batchSize).

Lemma after_batch_never st :
  never_completes st -> never_completes (Batch.after_batch st).
Proof. unfold Batch.after_batch. by destruct (Batch.queue st). Qed.

Lemma launch_never now st request :
  never_completes st -> never_completes (Batch.launch now st request).
Proof.
  intros (Hcall & Hfly & Hheap). unfold Batch.launch.
  destruct (Map_get _ _) as [ref|]; [|done].
  split; [done|]. simpl. split.
  - apply Forall_app. split; [done|]. repeat constructor. apply Hcall.
  - apply Forall_alter; [done|]. by intros r _ _.
Qed.

Lemma launch_all_never now batch : forall st,
  never_completes st -> never_completes (foldl (Batch.launch now) st batch).
Proof.
  induction batch as [|request batch IH]; intros st Hst; simpl; [done|].
  by apply IH, launch_never.
Qed.

Lemma loop_head_never now st :
  never_completes st -> never_completes (Batch.loop_head batchSize now st).
Proof.
  intros Hst. unfold Batch.loop_head.
  destruct (Batch.queue st) as [|request queue] eqn:Hq; [done|].
  set (st1 := {| Batch.queue := _ |}).
  assert (never_completes (foldl (Batch.launch now) st1
                             (take (Z.to_nat batchSize) (request :: queue))))
    as Hlaunched by by apply launch_all_never.
  destruct (Batch.inflight (foldl _ _ _));
    [by apply after_batch_never|done].
Qed.

(** Whatever is submitted, injected, settled or cleared, the
    invariant holds: [setProcessor] leaves [processRequest] as it
    was declared. *)
Lemma step_never st ev : never_completes st -> never_completes (step st ev).
Proof.
  intros Hst. destruct ev as [now [request|i| |processor|]];
    unfold Batch.step; cbn [fst snd].
  - unfold Batch.addRequest. cbn [Batch.isProcessing].
    assert (forall q b,
              never_completes
                {| Batch.queue := q;
                   Batch.results :=
                     Map_set (Batch.id request) (length (Batch.heap st))
                       (Batch.results st);
                   Batch.heap :=
                     Batch.heap st ++
                     [{| Batch.response_id := Batch.id request;
                         Batch.status := Batch.pending;
                         Batch.result := None; Batch.error := None;
                         Batch.startTime := None; Batch.endTime := None |}];
                   Batch.isProcessing := b;
                   Batch.processRequest := Batch.processRequest st;
                   Batch.inflight := Batch.inflight st;
                   Batch.sleeping := Batch.sleeping st |}) as Hst1.
    { intros q b. destruct Hst as (Hcall & Hfly & Hheap). split; [done|].
      split; [done|]. simpl. apply Forall_app. split; [done|].
      by repeat constructor. }
    destruct (Batch.isProcessing st); cbn [negb]; [apply Hst1|].
    unfold Batch.processQueue. cbn [Batch.isProcessing orb].
    destruct (bool_decide _); [apply Hst1|]. apply loop_head_never, Hst1.
  - unfold Batch.settle.
    destruct (Batch.inflight st !! i) as [[ref o]|] eqn:Hi; [|done].
    destruct Hst as (Hcall & Hfly & Hheap).
    pose proof (Forall_lookup_1 _ _ _ _ Hfly Hi) as Ho. simpl in Ho. subst o.
    assert (never_completes
              {| Batch.queue := Batch.queue st;
                 Batch.results := Batch.results st;
                 Batch.heap :=
                   alter (Batch.finish now (Throw not_injected)) ref
                     (Batch.heap st);
                 Batch.isProcessing := Batch.isProcessing st;
                 Batch.processRequest := Batch.processRequest st;
                 Batch.inflight := delete i (Batch.inflight st);
                 Batch.sleeping := Batch.sleeping st |}) as Hst1.
    { split; [done|]. simpl. split; [by apply Forall_delete|].
      apply Forall_alter; [done|]. by intros r _ _. }
    cbn [Batch.inflight]. destruct (delete i (Batch.inflight st));
      [by apply after_batch_never|done].
  - unfold Batch.timer. destruct (Batch.sleeping st); [|done].
    by apply loop_head_never.
  - done.
  - done.
Qed.

(** Whatever is submitted, and whichever processor is injected at
    whatever moment, no response ever reaches [completed]. *)
Lemma no_response_completes (evs : list (Z * Batch.event)) :
  Forall (fun r => Batch.status r <> Batch.completed)
    (Batch.heap (run evs Batch.createBatchProcessor)).
Proof.
  assert (forall st, never_completes st -> never_completes (run evs st))
    as Hrun.
  { induction evs as [|ev evs IH]; intros st Hst; simpl; [done|].
    by apply IH, step_never. }
  apply Hrun. by repeat split.
Qed.

End batch_facts.

(** *** One batch, item by item *)

Lemma alter_all_cons {A} (r0 : nat) (g0 : A -> A) gs h :
  alter_all ((r0, g0) :: gs) h = alter_all gs (alter g0 r0 h).
Proof. done. Qed.

Lemma alter_all_lookup_ne {A} (gs : list (nat * (A -> A))) : forall h ref,
  ref ∉ fst <$> gs -> alter_all gs h !! ref = h !! ref.
Proof.
  induction gs as [|[r0 g0] gs IH]; intros h ref Hnot; [done|].
  rewrite fmap_cons in Hnot. apply not_elem_of_cons in Hnot as [Hne Hnot].
  rewrite alter_all_cons, IH by done.
  by apply list_lookup_alter_ne.
Qed.

Lemma alter_all_lookup {A} (gs : list (nat * (A -> A))) : forall h ref g,
  NoDup (fst <$> gs) -> (ref, g) ∈ gs ->
  alter_all gs h !! ref = g <$> h !! ref.
Proof.
  induction gs as [|[r0 g0] gs IH]; intros h ref g Hnd Hin.
  - by apply elem_of_nil in Hin.
  - rewrite fmap_cons in Hnd. apply NoDup_cons in Hnd as [Hr0 Hnd].
    rewrite alter_all_cons.
    apply elem_of_cons in Hin as [[= -> ->]|Hin].
    + rewrite alter_all_lookup_ne by done. apply list_lookup_alter_eq.
    + rewrite (IH _ ref g) by done.
      rewrite list_lookup_alter_ne; [done|].
      intros ->. apply Hr0. apply list_elem_of_fmap. by exists (ref, g).
Qed.

(** The closures of a batch, run up to their [await]: each marks its
    own response object and puts its own promise in flight. *)
Lemma launch_all_spec now (plan : list (Batch.BatchRequest * nat)) :
  forall st,
    Forall (fun p => Map_get (Batch.id (fst p)) (Batch.results st)
                     = Some (snd p)) plan ->
    let st1 := foldl (Batch.launch now) st (fst <$> plan) in
    Batch.results st1 = Batch.results st /\
    Batch.processRequest st1 = Batch.processRequest st /\
    Batch.inflight st1
    = Batch.inflight st ++
      ((fun p => (snd p, Batch.call (Batch.processRequest st) (fst p)))
         <$> plan) /\
    Batch.heap st1
    = alter_all ((fun p => (snd p, Batch.mark_processing now)) <$> plan)
        (Batch.heap st).
Proof.
  induction plan as [|[r ref] plan IH]; intros st Hplan; csimpl.
  - by rewrite app_nil_r.
  - apply Forall_cons in Hplan as [Hr Hplan]. simpl in Hr.
    assert (exists st',
              Batch.launch now st r = st' /\
              Batch.results st' = Batch.results st /\
              Batch.processRequest st' = Batch.processRequest st /\
              Batch.inflight st'
              = Batch.inflight st ++
                [(ref, Batch.call (Batch.processRequest st) r)] /\
              Batch.heap st'
              = alter (Batch.mark_processing now) ref (Batch.heap st))
      as (st' & -> & Hres' & Hproc' & Hfly' & Hheap').
    { eexists. split; [unfold Batch.launch; by rewrite Hr|]. by simpl. }
    destruct (IH st') as (Hres & Hproc & Hfly & Hheap);
      [by rewrite Hres'|].
    rewrite Hres, Hproc, Hfly, Hheap, Hres', Hproc', Hfly', Hheap'.
    by rewrite <- app_assoc.
Qed.

(** The promises of a batch settle: each closure finishes its own
    response object. *)
Lemma settle_all_spec later (fly : list (nat * Batch.settlement)) :
  forall st,
    Batch.inflight st = fly ->
    Batch.heap (settle_all later (length fly) st)
    = alter_all ((fun p => (fst p, Batch.finish later (snd p))) <$> fly)
        (Batch.heap st).
Proof.
  induction fly as [|[ref o] fly IH]; intros st Hfly; csimpl; [done|].
  unfold Batch.settle. rewrite Hfly. cbn [lookup list_lookup].
  cbn [Batch.inflight delete list_delete].
  assert (forall st', Batch.heap (Batch.after_batch st') = Batch.heap st' /\
                      Batch.inflight (Batch.after_batch st')
                      = Batch.inflight st') as Hafter.
  { intros st'. unfold Batch.after_batch. by destruct (Batch.queue st'). }
  destruct fly as [|p fly].
  - cbn [length settle_all]. by rewrite (proj1 (Hafter _)).
  - by rewrite IH.
Qed.

(** X17.  What the drain loop does with one batch once [processRequest]
    runs a function [f]: every item of the batch ends with the record that
    its own settlement determines -- [failed] with its own message or
    [completed] with its own result -- whatever happens to the other
    items of the batch. *)
Lemma batch_items_isolated
  (f : Batch.BatchRequest -> Batch.settlement) (now later : Z)
  (plan : list (Batch.BatchRequest * nat)) (st : Batch.state) :
  (forall r, Batch.call (Batch.processRequest st) r = f r) ->
  Batch.inflight st = [] ->
  Forall (fun p => Map_get (Batch.id (fst p)) (Batch.results st)
                   = Some (snd p)) plan ->
  NoDup (snd <$> plan) ->
  let st2 :=
    settle_all later (length plan)
      (foldl (Batch.launch now) st (fst <$> plan)) in
  forall r ref, (r, ref) ∈ plan ->
    Batch.heap st2 !! ref
    = Batch.finish later (f r)
        <$> (Batch.mark_processing now <$> Batch.heap st !! ref).
Proof.
  intros Hf Hidle Hplan Hnd st2 r ref Hin.
  destruct (launch_all_spec now plan st Hplan) as (_ & _ & Hfly & Hheap).
  rewrite Hidle in Hfly. simpl in Hfly.
  unfold st2.
  replace (length plan) with
    (length ((fun p => (snd p, Batch.call (Batch.processRequest st) (fst p)))
               <$> plan)) by apply length_fmap.
  rewrite (settle_all_spec later _ _ Hfly), Hheap.
  rewrite (alter_all_lookup _ _ ref (Batch.finish later (f r))).
  - f_equal.
    apply (alter_all_lookup _ _ ref (Batch.mark_processing now)).
    + by rewrite <- list_fmap_compose.
    + apply list_elem_of_fmap. by exists (r, ref).
  - by rewrite <- !list_fmap_compose.
  - rewrite <- list_fmap_compose. apply list_elem_of_fmap.
    exists (r, ref). split; [|done]. simpl. by rewrite Hf.
Qed.

(** C1 at a failing input.  A processor is injected with
    [setProcessor] before anything is submitted, and it would fulfil
    the request with [r]; the request is submitted and the event loop
    runs.  The response ends [failed] with the message of the
    [processRequest] declared in the package, and the promise returned
    by [addRequest] rejects: [Object.assign] copied the enumerable
    properties of the processor, not what calling it does. *)
Theorem setProcessor_leaves_stub
  (batchSize processingDelayMs : Z) (processor : Batch.Function)
  (request : Batch.BatchRequest) (r : string) (t0 t1 : Z) (fuel : nat) :
  1 <= batchSize ->
  Batch.call processor request = Normal r ->
  let st :=
    Batch.drain batchSize processingDelayMs (S fuel) t1
      (Batch.addRequest batchSize t0 request
         (Batch.setProcessor processor Batch.createBatchProcessor)) in
  Batch.getStatus (Batch.id request) st
  = Some {| Batch.response_id := Batch.id request;
            Batch.status := Batch.failed;
            Batch.result := None;
            Batch.error := Some not_injected;
            Batch.startTime := Some t0;
            Batch.endTime := Some t1 |} /\
  Batch.checkResult (Batch.id request) st = Some (Throw not_injected).
Proof.
  intros Hsize _ st. subst st.
  assert (Batch.addRequest batchSize t0 request
            (Batch.setProcessor processor Batch.createBatchProcessor)
          = {| Batch.queue := [];
               Batch.results := [(Batch.id request, 0%nat)];
               Batch.heap :=
                 [{| Batch.response_id := Batch.id request;
                     Batch.status := Batch.processing;
                     Batch.result := None; Batch.error := None;
                     Batch.startTime := Some t0; Batch.endTime := None |}];
               Batch.isProcessing := true;
               Batch.processRequest :=
                 Batch.Object_assign Batch.processRequest_stub processor;
               Batch.inflight := [(0%nat, Throw not_injected)];
               Batch.sleeping := false |}) as ->.
  { unfold Batch.addRequest, Batch.processQueue, Batch.loop_head. simpl.
    destruct (Z.to_nat batchSize) as [|n] eqn:Hn; [lia|]. simpl.
    unfold Batch.launch. simpl. rewrite String.eqb_refl. simpl.
    by destruct n. }
  assert (forall st : Batch.state,
            Batch.inflight st = [] -> Batch.sleeping st = false ->
            Batch.drain batchSize processingDelayMs fuel t1 st = st) as Hidle.
  { intros st Hfly Hsleep. destruct fuel; simpl; [done|].
    by rewrite Hfly, Hsleep. }
  cbn [Batch.drain Batch.inflight]. unfold Batch.settle. simpl.
  rewrite Hidle by done.
  unfold Batch.checkResult, Batch.getStatus. simpl.
  rewrite String.eqb_refl. by simpl.
Qed.

(** C1 for a processor that fulfils every request with a fixed text. *)
Lemma setProcessor_leaves_stub_witness :
  let processor :=
    {| Batch.call := fun _ => Normal "generated text"%string;
       Batch.properties := [] |} in
  let st :=
    Batch.drain 5 100 3 11
      (Batch.addRequest 5 10 request_X
         (Batch.setProcessor processor Batch.createBatchProcessor)) in
  Batch.getStatus "X" st
  = Some {| Batch.response_id := "X";
            Batch.status := Batch.failed;
            Batch.result := None;
            Batch.error := Some not_injected;
            Batch.startTime := Some 10;
            Batch.endTime := Some 11 |} /\
  Batch.checkResult "X" st = Some (Throw not_injected).
Proof.
  apply (setProcessor_leaves_stub 5 100
           {| Batch.call := fun _ => Normal "generated text"%string;
              Batch.properties := [] |}
           request_X "generated text" 10 11 2).
  - lia.
  - reflexivity.
Defined.

(** What the drain loop does once [processRequest] runs a function
    [f]: in the batch that holds [X] and [Y], the rejection of [X] is
    recorded on [X] alone, [Y] completes with its result, and the loop
    goes on until the queue is empty. *)
Lemma drain_isolates_failures
  (f : Batch.BatchRequest -> Batch.settlement) (m r : string) :
  f request_X = Throw m ->
  f request_Y = Normal r ->
  let st :=
    Batch.drain 2 100 10 4
      (Batch.run 2
         [(1, Batch.Submit request_first); (2, Batch.Submit request_X);
          (3, Batch.Submit request_Y)]
         (processor_running f)) in
  Batch.getStatus "X" st
  = Some {| Batch.response_id := "X"; Batch.status := Batch.failed;
            Batch.result := None; Batch.error := Some m;
            Batch.startTime := Some 104; Batch.endTime := Some 104 |} /\
  Batch.getStatus "Y" st
  = Some {| Batch.response_id := "Y"; Batch.status := Batch.completed;
            Batch.result := Some r; Batch.error := None;
            Batch.startTime := Some 104; Batch.endTime := Some 104 |} /\
  Batch.queue st = [] /\ Batch.isProcessing st = false.
Proof.
  intros HX HY. unfold request_X, request_Y in HX, HY.
  vm_compute. rewrite HX, HY. by repeat split.
Qed.

(** C9 at a failing input.  The injected processor rejects [X] with
    [m] and fulfils [Y] with [r]; [X] and [Y] are submitted while the
    first request is in flight, so they form one batch.  Both end
    [failed] with the message of the [processRequest] declared in the
    package, [Y] included; the drain loop itself does reach the second
    batch and stops with an empty queue.  The cause is the one of C1. *)
Theorem batch_siblings_fail_with_injected_processor
  (processor : Batch.Function) (m r : string) :
  Batch.call processor request_X = Throw m ->
  Batch.call processor request_Y = Normal r ->
  let st :=
    Batch.drain 2 100 10 4
      (Batch.run 2
         [(0, Batch.SetProcessor processor);
          (1, Batch.Submit request_first); (2, Batch.Submit request_X);
          (3, Batch.Submit request_Y)]
         Batch.createBatchProcessor) in
  Batch.getStatus "X" st
  = Some {| Batch.response_id := "X"; Batch.status := Batch.failed;
            Batch.result := None; Batch.error := Some not_injected;
            Batch.startTime := Some 104; Batch.endTime := Some 104 |} /\
  Batch.getStatus "Y" st
  = Some {| Batch.response_id := "Y"; Batch.status := Batch.failed;
            Batch.result := None; Batch.error := Some not_injected;
            Batch.startTime := Some 104; Batch.endTime := Some 104 |} /\
  Batch.queue st = [] /\ Batch.isProcessing st = false.
Proof. intros _ _. vm_compute. by repeat split. Qed.

(** C9 for a processor that rejects [X] and fulfils everything else. *)
Lemma batch_siblings_fail_with_injected_processor_witness :
  let processor :=
    {| Batch.call :=
         fun request =>
           if String.eqb (Batch.id request) "X"
           then Throw "quota exceeded"%string
           else Normal "generated text"%string;
       Batch.properties := [] |} in
  let st :=
    Batch.drain 2 100 10 4
      (Batch.run 2
         [(0, Batch.SetProcessor processor);
          (1, Batch.Submit request_first); (2, Batch.Submit request_X);
          (3, Batch.Submit request_Y)]
         Batch.createBatchProcessor) in
  Batch.getStatus "X" st
  = Some {| Batch.response_id := "X"; Batch.status := Batch.failed;
            Batch.result := None; Batch.error := Some not_injected;
            Batch.startTime := Some 104; Batch.endTime := Some 104 |} /\
  Batch.getStatus "Y" st
  = Some {| Batch.response_id := "Y"; Batch.status := Batch.failed;
            Batch.result := None; Batch.error := Some not_injected;
            Batch.startTime := Some 104; Batch.endTime := Some 104 |} /\
  Batch.queue st = [] /\ Batch.isProcessing st = false.
Proof.
  apply (batch_siblings_fail_with_injected_processor
           {| Batch.call :=
                fun request =>
                  if String.eqb (Batch.id request) "X"
                  then Throw "quota exceeded"%string
                  else Normal "generated text"%string;
              Batch.properties := [] |}
           "quota exceeded" "generated text");
    reflexivity.
Defined.

(** * Further properties of the code *)

(** ** Rate limiter: the window, the report and the wait *)

Section rate_limiter_more.

Variables (N W : Z).

Lemma purge_sorted ws (l : list Z) :
  StronglySorted Z.le l ->
  RateLimiter.purge ws l = filter (fun t => ws <= t) l.
Proof.
  induction 1 as [|t l Hl IH Ht]; simpl; [done|].
  destruct (t <? ws) eqn:E.
  - apply Z.ltb_lt in E. rewrite filter_cons_False by lia. exact IH.
  - apply Z.ltb_ge in E. rewrite filter_cons_True by done. f_equal.
    symmetry. clear IH Hl. induction Ht as [|u l Hu Hl IH]; [done|].
    rewrite filter_cons_True by lia. by f_equal.
Qed.

(** X1.  When the recorded time stamps are in non-decreasing order (a
    clock that does not run backwards), [isAllowed] keeps exactly the
    calls of the trailing window [[now - W, now]], in order, and admits
    exactly when fewer than [N] such calls are recorded. *)
Theorem isAllowed_counts_window (now : Z) (requests : list Z) :
  StronglySorted Z.le requests ->
  let in_window := filter (fun t => now - W <= t) requests in
  RateLimiter.isAllowed N W now requests
  = (bool_decide (Z.of_nat (length in_window) < N), in_window).
Proof.
  intros Hsorted in_window. unfold RateLimiter.isAllowed.
  rewrite purge_sorted by done. fold in_window. f_equal.
  destruct (Z.ltb_spec (Z.of_nat (length in_window)) N).
  - by rewrite bool_decide_eq_true_2.
  - rewrite bool_decide_eq_false_2; [done|lia].
Qed.

Lemma purge_head ws (l : list Z) t :
  head (RateLimiter.purge ws l) = Some t -> ws <= t.
Proof.
  induction l as [|u l IH]; simpl; [done|].
  destruct (u <? ws) eqn:E; [done|].
  simpl. intros [= ->]. by apply Z.ltb_ge.
Qed.

Lemma purge_sub ws (l : list Z) t : t ∈ RateLimiter.purge ws l -> t ∈ l.
Proof.
  induction l as [|u l IH]; simpl; [done|].
  destruct (u <? ws); [|done]. intros H. right. auto.
Qed.

Lemma purge_idem ws (l : list Z) :
  RateLimiter.purge ws (RateLimiter.purge ws l) = RateLimiter.purge ws l.
Proof.
  induction l as [|u l IH]; simpl; [done|].
  destruct (u <? ws) eqn:E; [done|]. simpl. by rewrite E.
Qed.

(** X2.  The report of [getRateLimitInfo] agrees with [isAllowed] at
    the same instant: both leave the same time stamps, [remaining] lies
    between 0 and the limit, [isAllowed] holds exactly when [remaining]
    is positive, and [retryAfter] is left undefined exactly then. *)
Theorem rate_limit_info_agrees (now : Z) (requests : list Z) :
  0 <= N ->
  let info := fst (RateLimiter.getRateLimitInfo N W now requests) in
  let allowed := fst (RateLimiter.isAllowed N W now requests) in
  snd (RateLimiter.getRateLimitInfo N W now requests)
  = snd (RateLimiter.isAllowed N W now requests) /\
  0 <= RateLimiter.remaining info <= N /\
  (allowed = true <-> 0 < RateLimiter.remaining info) /\
  (RateLimiter.retryAfter info = None <-> allowed = true).
Proof.
  intros HN info allowed. subst info allowed.
  unfold RateLimiter.getRateLimitInfo, RateLimiter.isAllowed. cbn [fst snd].
  set (used := Z.of_nat (length (RateLimiter.purge (now - W) requests))).
  cbn [RateLimiter.remaining RateLimiter.retryAfter].
  split; [done|]. split; [lia|]. split.
  - rewrite Z.ltb_lt. lia.
  - rewrite Z.ltb_lt. destruct (Z.eqb_spec (Z.max 0 (N - used)) 0).
    + split; [done|lia].
    + split; [lia|done].
Qed.

(** The whole seconds of [Math.ceil(x / 1000)], in milliseconds. *)
Lemma ceil_div_1000_bounds x :
  x <= RateLimiter.ceil_div_1000 x * 1000 < x + 1000.
Proof.
  unfold RateLimiter.ceil_div_1000.
  pose proof (Z.div_mod (- x) 1000 ltac:(lia)).
  pose proof (Z.mod_pos_bound (- x) 1000 ltac:(lia)). lia.
Qed.

(** X3.  When no recorded call lies in the future, [waitForSlot]
    suspends the caller for a whole number of seconds, never for
    longer than the window plus 999 ms, and not at all while
    [isAllowed] holds. *)
Theorem waitForSlot_bounded (now : Z) (requests : list Z) :
  0 <= N ->
  Forall (fun t => t <= now) requests ->
  let wait := fst (RateLimiter.waitForSlot N W now requests) in
  0 <= wait <= Z.max 0 (W + 999) /\
  wait mod 1000 = 0 /\
  (fst (RateLimiter.isAllowed N W now requests) = true -> wait = 0).
Proof.
  intros HN Hpast wait. subst wait.
  unfold RateLimiter.waitForSlot, RateLimiter.getRateLimitInfo,
    RateLimiter.isAllowed.
  cbn [fst snd RateLimiter.remaining RateLimiter.retryAfter].
  set (kept := RateLimiter.purge (now - W) requests).
  set (used := Z.of_nat (length kept)).
  destruct (Z.eqb_spec (Z.max 0 (N - used)) 0) as [Hzero|Hfree]; cycle 1.
  { cbn [fst]. split; [lia|]. split; [done|done]. }
  assert (forall x, 0 <= x <= Z.max 0 W ->
            0 <= fst (if true && negb (RateLimiter.ceil_div_1000 x =? 0)
                      then (RateLimiter.ceil_div_1000 x * 1000, kept)
                      else (0, kept)) <= Z.max 0 (W + 999) /\
            fst (if true && negb (RateLimiter.ceil_div_1000 x =? 0)
                 then (RateLimiter.ceil_div_1000 x * 1000, kept)
                 else (0, kept)) mod 1000 = 0) as Hwait.
  { intros x Hx. pose proof (ceil_div_1000_bounds x).
    destruct (Z.eqb_spec (RateLimiter.ceil_div_1000 x) 0); cbn [andb negb fst].
    - split; [lia|done].
    - split; [lia|]. apply Z.mod_mul. lia. }
  split; [|split].
  - destruct (head kept) as [oldest|] eqn:Hhead.
    + pose proof (purge_head _ _ _ Hhead) as Hlow.
      assert (oldest <= now) as Hup.
      { rewrite Forall_forall in Hpast. apply Hpast, (purge_sub (now - W)).
        fold kept. destruct kept; simplify_eq/=. left. }
      destruct (Z.eqb_spec oldest 0); apply Hwait; lia.
    + apply Hwait. lia.
  - destruct (head kept) as [oldest|] eqn:Hhead.
    + pose proof (purge_head _ _ _ Hhead) as Hlow.
      assert (oldest <= now) as Hup.
      { rewrite Forall_forall in Hpast. apply Hpast, (purge_sub (now - W)).
        fold kept. destruct kept; simplify_eq/=. left. }
      destruct (Z.eqb_spec oldest 0); apply Hwait; lia.
    + apply Hwait. lia.
  - intros Hallowed. apply Z.ltb_lt in Hallowed. fold kept used in Hallowed.
    lia.
Qed.

(** X4.  A limiter that holds exactly [N >= 1] calls in its window, none
    of them in the future or stamped 0, admits again one millisecond
    after the wait that [waitForSlot] prescribes. *)
Theorem slot_free_after_wait (now : Z) (requests : list Z) :
  1 <= N ->
  Forall (fun t => t <= now /\ t <> 0) requests ->
  Z.of_nat (length (snd (RateLimiter.isAllowed N W now requests))) = N ->
  let '(wait, requests') := RateLimiter.waitForSlot N W now requests in
  fst (RateLimiter.isAllowed N W (now + wait + 1) requests') = true.
Proof.
  intros HN Hpast Hfull.
  unfold RateLimiter.waitForSlot, RateLimiter.getRateLimitInfo.
  unfold RateLimiter.isAllowed in Hfull. cbn [snd] in Hfull.
  cbn [RateLimiter.remaining RateLimiter.retryAfter].
  set (kept := RateLimiter.purge (now - W) requests) in *.
  rewrite Hfull. replace (Z.max 0 (N - N)) with 0 by lia.
  cbn [Z.eqb andb].
  destruct kept as [|oldest rest] eqn:Hkept; [simpl in Hfull; lia|].
  cbn [head].
  assert (now - W <= oldest) as Hlow
    by (apply (purge_head _ requests); fold kept; by rewrite Hkept).
  assert (oldest <> 0) as Hnz.
  { rewrite Forall_forall in Hpast.
    apply (Hpast oldest), (purge_sub (now - W)). fold kept. rewrite Hkept.
    left. }
  apply Z.eqb_neq in Hnz as ->.
  pose proof (ceil_div_1000_bounds (oldest + W - now)) as Hceil.
  assert (forall wait, oldest + W - now <= wait ->
            fst (RateLimiter.isAllowed N W (now + wait + 1) (oldest :: rest))
            = true) as Hfree.
  { intros wait Hwait. unfold RateLimiter.isAllowed. cbn [fst RateLimiter.purge].
    replace (oldest <? now + wait + 1 - W) with true
      by (symmetry; apply Z.ltb_lt; lia).
    apply Z.ltb_lt.
    pose proof (purge_length_le (now + wait + 1 - W) rest).
    simpl in Hfull. lia. }
  destruct (Z.eqb_spec (RateLimiter.ceil_div_1000 (oldest + W - now)) 0)
    as [Hz|Hz]; cbn [negb]; apply Hfree; lia.
Qed.

End rate_limiter_more.

Lemma isAllowed_counts_window_witness :
  RateLimiter.isAllowed 4 1000 1400 [0; 400; 900; 1400]
  = (true, [400; 900; 1400]).
Proof.
  apply (isAllowed_counts_window 4 1000 1400 [0; 400; 900; 1400]).
  repeat constructor; lia.
Defined.

Lemma rate_limit_info_agrees_witness :
  let info := fst (RateLimiter.getRateLimitInfo 2 1000 1400 [400; 900]) in
  let allowed := fst (RateLimiter.isAllowed 2 1000 1400 [400; 900]) in
  snd (RateLimiter.getRateLimitInfo 2 1000 1400 [400; 900])
  = snd (RateLimiter.isAllowed 2 1000 1400 [400; 900]) /\
  0 <= RateLimiter.remaining info <= 2 /\
  (allowed = true <-> 0 < RateLimiter.remaining info) /\
  (RateLimiter.retryAfter info = None <-> allowed = true).
Proof. apply (rate_limit_info_agrees 2 1000 1400 [400; 900]). lia. Defined.

Lemma waitForSlot_bounded_witness :
  let wait := fst (RateLimiter.waitForSlot 2 1000 1400 [450; 900]) in
  0 <= wait <= Z.max 0 (1000 + 999) /\
  wait mod 1000 = 0 /\
  (fst (RateLimiter.isAllowed 2 1000 1400 [450; 900]) = true -> wait = 0).
Proof.
  apply (waitForSlot_bounded 2 1000 1400 [450; 900]); [lia|].
  repeat constructor; lia.
Defined.

Lemma slot_free_after_wait_witness :
  let '(wait, requests') := RateLimiter.waitForSlot 2 1000 1400 [450; 900] in
  fst (RateLimiter.isAllowed 2 1000 (1400 + wait + 1) requests') = true.
Proof.
  apply (slot_free_after_wait 2 1000 1400 [450; 900]); [lia| |reflexivity].
  repeat constructor; lia.
Defined.

(** ** Cache: every sequence of operations *)

Section cache_more.

Variables (maxSize defaultTtl : Z).

Lemma Map_set_sub {V} k (v : V) m x :
  x ∈ Map_set k v m -> x = (k, v) \/ x ∈ m.
Proof.
  induction m as [|[k' v'] m IH]; simpl.
  - intros H. apply list_elem_of_singleton in H. by left.
  - destruct (String.eqb k' k).
    + rewrite !elem_of_cons. intros [->|H]; [by left|right; by right].
    + rewrite !elem_of_cons. intros [->|H]; [right; by left|].
      destruct (IH H); [by left|right; by right].
Qed.

Lemma drop_bound k e st :
  Map_get k (Cache.cache st) = Some e ->
  cache_bound maxSize st -> cache_bound maxSize (Cache.drop k e st).
Proof.
  intros Hget (Hwf & Hacc & Hsz & Hbound). unfold cache_bound. simpl.
  assert (0 <= Cache.size e) as He.
  { rewrite Forall_forall in Hsz.
    apply (Hsz (k, e)). by apply Map_get_elem_of. }
  split; [by apply Map_delete_wf|].
  split; [rewrite (live_size_delete k e) by done; lia|].
  split.
  - rewrite Forall_forall in Hsz |- *.
    intros x Hx. eapply Hsz, Map_delete_sub, Hx.
  - rewrite (live_size_delete k e) by done.
    pose proof (Map_delete_length k e _ Hget). lia.
Qed.

Lemma cleanup_loop_bound now es : forall st,
  NoDup (fst <$> es) ->
  (forall k e, (k, e) ∈ es -> Map_get k (Cache.cache st) = Some e) ->
  cache_bound maxSize st -> cache_bound maxSize (Cache.cleanup_loop now es st).
Proof.
  induction es as [|[k e] es IH]; intros st Hnd Hes Hinv; csimpl; [done|].
  apply NoDup_cons in Hnd as [Hk Hnd].
  destruct (now >? Cache.timestamp e + Cache.ttl e).
  - apply IH; [done| |].
    + intros k' e' Hin. simpl.
      rewrite Map_get_delete_ne; [apply Hes; by right|].
      intros ->. apply Hk. apply list_elem_of_fmap. by exists (k', e').
    + apply drop_bound; [|done]. apply Hes. left.
  - apply IH; [done| |done]. intros k' e' Hin. apply Hes. by right.
Qed.

Lemma cleanup_bound now st :
  cache_bound maxSize st -> cache_bound maxSize (Cache.cleanup now st).
Proof.
  intros Hinv. apply cleanup_loop_bound; [apply Hinv| |done].
  intros k e. apply elem_of_Map_get, Hinv.
Qed.

Lemma evictLRU_bound st :
  cache_bound maxSize st -> cache_bound maxSize (Cache.evictLRU st).
Proof.
  intros Hinv. unfold Cache.evictLRU.
  destruct (head _) as [[k e]|] eqn:Hhd; [|done].
  apply drop_bound; [|done]. apply evictLRU_head; [apply Hinv|done].
Qed.

Lemma evict_while_bound fuel sz : forall st,
  cache_bound maxSize st ->
  cache_bound maxSize (Cache.evict_while maxSize fuel sz st).
Proof.
  induction fuel as [|fuel IH]; intros st Hinv; simpl; [done|].
  destruct (Cache.over_capacity _ _ _); [|done].
  by apply IH, evictLRU_bound.
Qed.

Lemma evict_while_stops fuel sz : forall st,
  Map_wf (Cache.cache st) ->
  (length (Cache.cache st) <= fuel)%nat ->
  Cache.over_capacity maxSize sz (Cache.evict_while maxSize fuel sz st) = false.
Proof.
  induction fuel as [|fuel IH]; intros st Hwf Hlen; simpl.
  - unfold Cache.over_capacity.
    replace (length (Cache.cache st)) with 0%nat by lia.
    by rewrite andb_false_r.
  - destruct (Cache.over_capacity maxSize sz st) eqn:Hover; [|done].
    apply IH.
    + apply (evict_while_wf maxSize 1 sz st) in Hwf. simpl in Hwf.
      by rewrite Hover in Hwf.
    + rewrite evictLRU_length by done. lia.
Qed.

Lemma exec_bound st o :
  cache_bound maxSize st -> cache_bound maxSize (exec maxSize defaultTtl st o).
Proof.
  intros Hinv. destruct o as [now k|now k d ttl_arg|k| |now]; simpl.
  - unfold Cache.get.
    destruct (Map_get k (Cache.cache st)) as [e|] eqn:Hget; [|done].
    destruct (Cache.isExpired now e); [by apply drop_bound|].
    destruct Hinv as (Hwf & Hacc & Hsz & Hbound). unfold cache_bound. simpl.
    assert (0 <= Cache.size e) as He.
    { rewrite Forall_forall in Hsz.
      apply (Hsz (k, e)). by apply Map_get_elem_of. }
    split; [by apply Map_set_wf|].
    split; [rewrite (live_size_set_present k e) by done; simpl; lia|].
    split.
    + rewrite Forall_forall in Hsz |- *. intros x Hx.
      apply Map_set_sub in Hx as [->|Hx]; [done|auto].
    + rewrite (live_size_set_present k e) by done.
      rewrite (Map_set_length_present k _ e) by done. simpl. lia.
  - unfold Cache.set.
    destruct (JSON_stringify d None) as [text|]; [|by apply cleanup_bound].
    set (sz := Z.of_nat (String.length text)).
    set (st1 := Cache.cleanup now st).
    pose proof (cleanup_bound now st Hinv) as Hst1. fold st1 in Hst1.
    pose proof (evict_while_bound (length (Cache.cache st1)) sz st1 Hst1)
      as (Hwf & Hacc & Hsz & Hbound).
    pose proof (evict_while_stops (length (Cache.cache st1)) sz st1
                  ltac:(apply Hst1) ltac:(done)) as Hexit.
    set (st2 := Cache.evict_while maxSize (length (Cache.cache st1)) sz st1)
      in *.
    set (entry := {| Cache.data := d |}).
    unfold cache_bound. simpl.
    assert (live_size (Map_set k entry (Cache.cache st2))
            <= live_size (Cache.cache st2) + sz) as Hlive.
    { destruct (Map_get k (Cache.cache st2)) as [old|] eqn:Hold.
      - rewrite (live_size_set_present k old) by done. simpl.
        rewrite Forall_forall in Hsz.
        pose proof (Hsz (k, old) (Map_get_elem_of _ _ _ Hold)). simpl in *. lia.
      - rewrite live_size_set_absent by done. simpl. lia. }
    split; [by apply Map_set_wf|]. split; [lia|]. split.
    + rewrite Forall_forall in Hsz |- *. intros x Hx.
      apply Map_set_sub in Hx as [->|Hx]; [simpl; lia|auto].
    + unfold Cache.over_capacity in Hexit.
      apply andb_false_iff in Hexit as [Hfit|Hempty].
      * left. rewrite Z.gtb_ltb in Hfit. apply Z.ltb_ge in Hfit. lia.
      * right. rewrite Z.gtb_ltb in Hempty. apply Z.ltb_ge in Hempty.
        destruct (Cache.cache st2); [simpl; lia|simpl in Hempty; lia].
  - unfold Cache.del.
    destruct (Map_get k (Cache.cache st)) as [e|] eqn:Hget; [|done].
    by apply drop_bound.
  - unfold cache_bound, Map_wf. simpl.
    split; [apply NoDup_nil_2|]. split; [done|]. split; [done|]. right. lia.
  - by apply cleanup_bound.
Qed.

(** X5.  For a capacity [maxSize >= 0] and every sequence of cache
    operations from the empty cache, overwriting [set]s included: the
    keys stay distinct, the counter [currentSize] is never below the
    sum of the stored sizes, and that sum is at most [maxSize] unless
    the cache holds exactly one entry whose own size exceeds
    [maxSize]. *)
Theorem cache_never_undercounts (ops : list cache_op) :
  0 <= maxSize ->
  let st := exec_all maxSize defaultTtl ops Cache.createCache in
  NoDup (fst <$> Cache.cache st) /\
  live_size (Cache.cache st) <= Cache.currentSize st /\
  (live_size (Cache.cache st) <= maxSize \/
   exists k e, Cache.cache st = [(k, e)] /\ maxSize < Cache.size e).
Proof.
  intros Hmax st.
  assert (forall st0, cache_bound maxSize st0 ->
            cache_bound maxSize (exec_all maxSize defaultTtl ops st0)) as Hall.
  { induction ops as [|o rest IH]; intros st0 H0; simpl; [done|].
    by apply IH, exec_bound. }
  destruct (Hall Cache.createCache) as (Hwf & Hacc & _ & Hbound).
  { unfold cache_bound, Map_wf. simpl.
    split; [apply NoDup_nil_2|]. split; [done|]. split; [done|]. right. lia. }
  fold st in Hwf, Hacc, Hbound. split; [done|]. split; [done|].
  destruct Hbound as [Hle|Hlen]; [by left|].
  destruct (Cache.cache st) as [|[k e] [|? ?]] eqn:Hc;
    simpl in *; [left; lia| |lia].
  destruct (decide (Cache.size e <= maxSize)); [left; lia|].
  right. exists k, e. split; [done|lia].
Qed.

End cache_more.

Lemma cache_never_undercounts_witness :
  let st :=
    exec_all 100 3600000
      [OpSet 0 "k" payload_40 None; OpSet 1 "k" payload_40 None;
       OpSet 2 "j" payload_40 None; OpDel "k"; OpSet 3 "k" payload_62 None]
      Cache.createCache in
  NoDup (fst <$> Cache.cache st) /\
  live_size (Cache.cache st) <= Cache.currentSize st /\
  (live_size (Cache.cache st) <= 100 \/
   exists k e, Cache.cache st = [(k, e)] /\ 100 < Cache.size e).
Proof. apply (cache_never_undercounts 100 3600000). lia. Defined.

(** ** Cache: deletion, sweeping and the effect of a hit on eviction *)

Lemma filter_Map_wf {V} (P : string * V -> Prop) `{!forall x, Decision (P x)}
  (m : list (string * V)) :
  Map_wf m -> Map_wf (filter P m).
Proof.
  unfold Map_wf. induction m as [|[k v] m IH]; [done|].
  csimpl. rewrite NoDup_cons. intros [Hk Hnd].
  destruct (decide (P (k, v))).
  - rewrite filter_cons_True by done. csimpl. apply NoDup_cons. split; [|auto].
    intros Hin. apply Hk. apply list_elem_of_fmap in Hin as [x [-> Hx]].
    apply list_elem_of_filter in Hx as [_ Hx].
    apply list_elem_of_fmap. by exists x.
  - rewrite filter_cons_False by done. auto.
Qed.

Lemma Map_get_filter {V} (P : string * V -> Prop)
  `{!forall x, Decision (P x)} (m : list (string * V)) k v :
  Map_wf m ->
  Map_get k (filter P m) = Some v <-> Map_get k m = Some v /\ P (k, v).
Proof.
  intros Hwf. split.
  - intros Hget. apply Map_get_elem_of, list_elem_of_filter in Hget as [HP Hin].
    split; [by apply elem_of_Map_get|done].
  - intros [Hget HP]. apply elem_of_Map_get; [by apply filter_Map_wf|].
    apply list_elem_of_filter. split; [done|by apply Map_get_elem_of].
Qed.

Lemma isExpired_unexpired now k e :
  Cache.isExpired now e = false <-> unexpired now (k, e).
Proof.
  unfold Cache.isExpired, unexpired. simpl.
  rewrite Z.gtb_ltb, Z.ltb_ge. done.
Qed.

Lemma filter_idemp {A} (P : A -> Prop) `{!forall x, Decision (P x)}
  (l : list A) :
  filter P (filter P l) = filter P l.
Proof.
  induction l as [|x l IH]; [done|].
  destruct (decide (P x)).
  - rewrite !filter_cons_True by done. by rewrite IH.
  - by rewrite filter_cons_False by done.
Qed.

Lemma state_eq (a b : Cache.state) :
  Cache.cache a = Cache.cache b -> Cache.currentSize a = Cache.currentSize b ->
  a = b.
Proof. destruct a, b. simpl. by intros -> ->. Qed.

(** X6.  [del(k)] on a cache with distinct keys answers whether [k] was
    stored, leaves no entry for [k] (a following [get] is a miss at any
    time), leaves every other key as it was, and lowers the counter by
    the size of the removed entry. *)
Theorem del_removes_only_its_key (k : string) (st : Cache.state) :
  Map_wf (Cache.cache st) ->
  let found := fst (Cache.del k st) in
  let st' := snd (Cache.del k st) in
  found = bool_decide (is_Some (Map_get k (Cache.cache st))) /\
  Map_get k (Cache.cache st') = None /\
  (forall now, Cache.get now k st' = (VUndefined, st')) /\
  (forall k', k' <> k ->
     Map_get k' (Cache.cache st') = Map_get k' (Cache.cache st)) /\
  Cache.currentSize st'
  = Cache.currentSize st
    - default 0 (Cache.size <$> Map_get k (Cache.cache st)).
Proof.
  intros Hwf. unfold Cache.del.
  destruct (Map_get k (Cache.cache st)) as [e|] eqn:Hget; cbn [fst snd].
  - assert (Map_get k (Cache.cache (Cache.drop k e st)) = None) as Hgone
      by (simpl; by apply Map_get_delete_eq).
    split; [symmetry; apply bool_decide_eq_true; by eexists|].
    split; [done|]. split.
    { intros now. unfold Cache.get. by rewrite Hgone. }
    split; [|done].
    intros k' Hne. simpl. apply Map_get_delete_ne. congruence.
  - split; [symmetry; apply bool_decide_eq_false; by intros [? ?]|].
    split; [done|]. split.
    { intros now. unfold Cache.get. by rewrite Hget. }
    split; [done|]. simpl. lia.
Qed.

Lemma del_removes_only_its_key_witness :
  let st :=
    exec_all 100 3600000
      [OpSet 0 "a" payload_40 None; OpSet 1 "b" payload_40 None]
      Cache.createCache in
  let found := fst (Cache.del "a" st) in
  let st' := snd (Cache.del "a" st) in
  found = bool_decide (is_Some (Map_get "a" (Cache.cache st))) /\
  Map_get "a" (Cache.cache st') = None /\
  (forall now, Cache.get now "a" st' = (VUndefined, st')) /\
  (forall k', k' <> "a"%string ->
     Map_get k' (Cache.cache st') = Map_get k' (Cache.cache st)) /\
  Cache.currentSize st'
  = Cache.currentSize st
    - default 0 (Cache.size <$> Map_get "a" (Cache.cache st)).
Proof.
  apply (del_removes_only_its_key "a"). apply (bool_decide_unpack _). vm_compute. exact I.
Defined.

(** X7.  [cleanup] at time [now] on a cache with distinct keys removes
    exactly the entries with [now > timestamp + ttl]: a key is stored
    afterwards iff it was stored with an entry that is not expired, and
    with the same entry; the survivors keep their order; the counter
    drops by the total size of the removed entries; and a second sweep
    at the same time changes nothing. *)
Theorem cleanup_removes_exactly_expired (now : Z) (st : Cache.state) :
  Map_wf (Cache.cache st) ->
  let st' := Cache.cleanup now st in
  (forall k e,
     Map_get k (Cache.cache st') = Some e <->
     Map_get k (Cache.cache st) = Some e /\ Cache.isExpired now e = false) /\
  Cache.cache st' `sublist_of` Cache.cache st /\
  Cache.currentSize st - Cache.currentSize st'
  = live_size (Cache.cache st) - live_size (Cache.cache st') /\
  Cache.cleanup now st' = st'.
Proof.
  intros Hwf st'.
  destruct (cleanup_spec now st Hwf) as [Hc Hs]. fold st' in Hc, Hs.
  assert (Map_wf (Cache.cache st')) as Hwf'
    by (rewrite Hc; by apply filter_Map_wf).
  destruct (cleanup_spec now st' Hwf') as [Hc' Hs'].
  split; [|split; [|split]].
  - intros k e. rewrite Hc, Map_get_filter by done.
    by rewrite <- (isExpired_unexpired now k e).
  - rewrite Hc. apply sublist_filter.
  - rewrite Hs, Hc. lia.
  - assert (Cache.cache (Cache.cleanup now st') = Cache.cache st') as E1.
    { rewrite Hc'. rewrite Hc at 1. rewrite filter_idemp. by rewrite Hc. }
    assert (Cache.currentSize (Cache.cleanup now st') = Cache.currentSize st')
      as E2.
    { rewrite Hs'. rewrite <- Hc', E1. lia. }
    by apply state_eq.
Qed.

Lemma cleanup_removes_exactly_expired_witness :
  let st :=
    exec_all 100 3600000
      [OpSet 0 "a" payload_40 (Some 5); OpSet 1 "b" payload_40 None]
      Cache.createCache in
  let st' := Cache.cleanup 10 st in
  (forall k e,
     Map_get k (Cache.cache st') = Some e <->
     Map_get k (Cache.cache st) = Some e /\ Cache.isExpired 10 e = false) /\
  Cache.cache st' `sublist_of` Cache.cache st /\
  Cache.currentSize st - Cache.currentSize st'
  = live_size (Cache.cache st) - live_size (Cache.cache st') /\
  Cache.cleanup 10 st' = st'.
Proof.
  apply (cleanup_removes_exactly_expired 10). apply (bool_decide_unpack _). vm_compute. exact I.
Defined.

Lemma sorted_head_least {A} (cmp : A -> A -> Z) (l : list A) h x :
  (forall a, cmp a a <= 0) ->
  (forall x y, 0 < cmp x y -> cmp y x <= 0) ->
  (forall x y z, cmp x y <= 0 -> cmp y z <= 0 -> cmp x z <= 0) ->
  head (sort cmp l) = Some h -> x ∈ l -> cmp h x <= 0.
Proof.
  intros Hrefl Htotal Htrans Hhd Hx. apply (sort_elem_of cmp) in Hx.
  pose proof (sort_sorted cmp Htotal Htrans l) as Hs.
  destruct (sort cmp l) as [|h' r]; [done|]. simplify_eq/=.
  apply StronglySorted_inv in Hs as [_ Hall].
  apply elem_of_cons in Hx as [->|Hx]; [apply Hrefl|].
  rewrite Forall_forall in Hall. by apply Hall.
Qed.

(** X8.  A hit refreshes the entry for the eviction order: after
    [get(k)] returned the stored value at time [now], the next
    [evictLRU] does not remove [k] as long as some other stored entry
    was last accessed before [now]. *)
Theorem hit_protects_from_eviction
  (now : Z) (k k' : string) (e e' : Cache.CacheEntry) (st : Cache.state) :
  Map_wf (Cache.cache st) ->
  Map_get k (Cache.cache st) = Some e ->
  Cache.isExpired now e = false ->
  k' <> k ->
  Map_get k' (Cache.cache st) = Some e' ->
  Cache.timestamp e' < now ->
  let st1 := snd (Cache.get now k st) in
  fst (Cache.get now k st) = Cache.data e /\
  Map_get k (Cache.cache (Cache.evictLRU st1)) = Some (Cache.touch now e).
Proof.
  intros Hwf Hget Hfresh Hne Hget' Hold. unfold Cache.get.
  rewrite Hget, Hfresh. cbn [fst snd]. split; [done|].
  set (st1 := {| Cache.cache := _ |}).
  assert (Map_wf (Cache.cache st1)) as Hwf1 by (by apply Map_set_wf).
  assert (Map_get k (Cache.cache st1) = Some (Cache.touch now e)) as Hk
    by apply Map_get_set_eq.
  assert (Map_get k' (Cache.cache st1) = Some e') as Hk'.
  { simpl. rewrite Map_get_set_ne by congruence. done. }
  unfold Cache.evictLRU.
  destruct (head _) as [[kh eh]|] eqn:Hhd; [|done].
  pose proof (evictLRU_head st1 kh eh Hwf1 Hhd) as Hh.
  pose proof (sorted_head_least Cache.by_timestamp _ (kh, eh) (k', e')
                ltac:(intros a; unfold Cache.by_timestamp; lia)
                by_timestamp_total by_timestamp_trans Hhd
                (Map_get_elem_of _ _ _ Hk')) as Hle.
  unfold Cache.by_timestamp in Hle. simpl in Hle.
  assert (kh <> k) as Hkh.
  { intros ->. rewrite Hk in Hh. simplify_eq/=. lia. }
  unfold Cache.drop. cbn [Cache.cache].
  by rewrite Map_get_delete_ne.
Qed.

Lemma hit_protects_from_eviction_witness :
  let st :=
    exec_all 100 3600000
      [OpSet 0 "a" payload_40 None; OpSet 1 "b" payload_40 None]
      Cache.createCache in
  let e :=
    {| Cache.data := payload_40; Cache.timestamp := 0; Cache.ttl := 3600000;
       Cache.key := "a"; Cache.size := 40 |} in
  let st1 := snd (Cache.get 2 "a" st) in
  fst (Cache.get 2 "a" st) = Cache.data e /\
  Map_get "a" (Cache.cache (Cache.evictLRU st1)) = Some (Cache.touch 2 e).
Proof.
  apply (hit_protects_from_eviction 2 "a" "b"
           {| Cache.data := payload_40; Cache.timestamp := 0;
              Cache.ttl := 3600000; Cache.key := "a"; Cache.size := 40 |}
           {| Cache.data := payload_40; Cache.timestamp := 1;
              Cache.ttl := 3600000; Cache.key := "b"; Cache.size := 40 |}).
  - apply (bool_decide_unpack _). vm_compute. exact I.
  - reflexivity.
  - reflexivity.
  - discriminate.
  - reflexivity.
  - simpl. lia.
Defined.

Lemma evict_while_sub maxSize fuel sz : forall st x,
  x ∈ Cache.cache (Cache.evict_while maxSize fuel sz st) -> x ∈ Cache.cache st.
Proof.
  induction fuel as [|fuel IH]; intros st x; simpl; [done|].
  destruct (Cache.over_capacity _ _ _); [|done].
  intros Hx. apply IH in Hx. unfold Cache.evictLRU in Hx.
  destruct (head _) as [[k e]|]; [|done].
  simpl in Hx. by eapply Map_delete_sub.
Qed.

(** X9.  [set] at time [now] leaves no expired entry behind: whether it
    stores the value (with a life time [ttl >= 0]) or raises for a
    value without JSON text, every entry stored afterwards satisfies
    [now <= timestamp + ttl]. *)
Theorem set_leaves_no_expired_entry
  (maxSize defaultTtl now : Z) (k : string) (d : value)
  (ttl_arg : option Z) (st : Cache.state) :
  Map_wf (Cache.cache st) ->
  0 <= default defaultTtl ttl_arg ->
  Forall (fun kv => Cache.isExpired now (snd kv) = false)
    (Cache.cache (snd (Cache.set maxSize defaultTtl now k d ttl_arg st))).
Proof.
  intros Hwf Httl.
  assert (forall x, x ∈ Cache.cache (Cache.cleanup now st) ->
                    Cache.isExpired now (snd x) = false) as Hswept.
  { intros [k0 e0] Hx.
    rewrite (proj1 (cleanup_spec now st Hwf)) in Hx.
    apply list_elem_of_filter in Hx as [Hx _].
    by apply (isExpired_unexpired now k0 e0). }
  rewrite Forall_forall. intros x Hx. unfold Cache.set in Hx.
  destruct (JSON_stringify d None) as [text|]; cbn [snd Cache.cache] in Hx.
  - apply Map_set_sub in Hx as [->|Hx].
    + unfold Cache.isExpired. simpl.
      rewrite Z.gtb_ltb. apply Z.ltb_ge. lia.
    + apply evict_while_sub in Hx. by apply Hswept.
  - by apply Hswept.
Qed.

Lemma set_leaves_no_expired_entry_witness :
  let st :=
    exec_all 100 3600000
      [OpSet 0 "a" payload_40 (Some 5); OpSet 1 "b" payload_40 None]
      Cache.createCache in
  Forall (fun kv => Cache.isExpired 10 (snd kv) = false)
    (Cache.cache (snd (Cache.set 100 3600000 10 "c" payload_40 None st))).
Proof.
  apply (set_leaves_no_expired_entry 100 3600000 10 "c" payload_40 None).
  - apply (bool_decide_unpack _). vm_compute. exact I.
  - simpl. lia.
Defined.

(** ** Retry controller: any operation *)

Section retry_more.

Variable maxRetries : Z.
Variables (baseDelayMs maxDelayMs backoffMultiplier : Q).
Context {T : Type}.
Variable operation : nat -> completion T Retry.thrown.
Variable random : nat -> Q.

Local Abbreviation calculateDelay' :=
  (Retry.calculateDelay baseDelayMs maxDelayMs backoffMultiplier).
Local Abbreviation retry_loop' :=
  (Retry.retry_loop (T := T) maxRetries baseDelayMs maxDelayMs
     backoffMultiplier operation random).

(** The loop from attempt [calls + 1] on. *)
Lemma retry_loop_spec : forall fuel attempt calls last slept,
  Z.of_nat calls = attempt - 1 ->
  attempt <= maxRetries + 1 ->
  (Z.to_nat (maxRetries + 1 - attempt) < fuel)%nat ->
  exists r,
    retry_loop' fuel attempt calls last slept = Some r /\
    (calls < Retry.invocations r)%nat /\
    Z.of_nat (Retry.invocations r) <= maxRetries + 1 /\
    Retry.outcome r = operation (pred (Retry.invocations r)) /\
    (forall i, (calls <= i < pred (Retry.invocations r))%nat ->
       exists e, operation i = Throw e /\ Retry.isRetryableError e = true) /\
    (Z.of_nat (Retry.invocations r) <= maxRetries ->
       match operation (pred (Retry.invocations r)) with
       | Normal _ => True
       | Throw e => Retry.isRetryableError e = false
       end) /\
    Retry.delays r
    = slept ++
      ((fun i => calculateDelay' (random i) (Z.of_nat i + 1))
         <$> seq calls (pred (Retry.invocations r) - calls)).
Proof.
  induction fuel as [|fuel IH]; intros attempt calls last slept Hc Hle Hfuel;
    [lia|].
  cbn [Retry.retry_loop].
  replace (attempt <=? maxRetries + 1) with true
    by (symmetry; apply Z.leb_le; lia).
  destruct (operation calls) as [v|e] eqn:Hop.
  - eexists. split; [done|]. cbn [Retry.invocations Retry.outcome Retry.delays].
    cbn [pred]. rewrite Hop, Nat.sub_diag. csimpl. rewrite app_nil_r.
    split; [lia|]. split; [lia|]. split; [done|].
    split; [intros i; lia|]. done.
  - destruct ((attempt >? maxRetries) || negb (Retry.isRetryableError e))
      eqn:Hstop.
    + eexists. split; [done|].
      cbn [Retry.invocations Retry.outcome Retry.delays pred].
      rewrite Hop, Nat.sub_diag. csimpl. rewrite app_nil_r.
      split; [lia|]. split; [lia|]. split; [done|].
      split; [intros i; lia|]. split; [|done].
      intros Hin. apply orb_true_iff in Hstop as [Hgt|Hfatal].
      * rewrite Z.gtb_ltb in Hgt. apply Z.ltb_lt in Hgt. lia.
      * by apply negb_true_iff in Hfatal.
    + apply orb_false_iff in Hstop as [Hgt Hretry].
      rewrite Z.gtb_ltb in Hgt. apply Z.ltb_ge in Hgt.
      apply negb_false_iff in Hretry.
      destruct (IH (attempt + 1) (S calls) e
                  (slept ++ [calculateDelay' (random calls) attempt]))
        as (r & Hr & Hcalls & Hbound & Hout & Hearlier & Hdecisive & Hdelays);
        [lia|lia|lia|].
      exists r. split; [done|]. split; [lia|]. split; [done|].
      split; [done|]. split; [|split; [done|]].
      * intros i Hi. destruct (decide (i = calls)) as [->|Hne].
        -- by exists e.
        -- apply Hearlier. lia.
      * rewrite Hdelays, <- app_assoc. f_equal.
        replace (pred (Retry.invocations r) - calls)%nat
          with (S (pred (Retry.invocations r) - S calls)) by lia.
        csimpl. do 2 f_equal. lia.
Qed.

(** X10.  For a retry bound [maxRetries >= 0] and any operation,
    [retry] returns, and it stops at the first decisive invocation: it
    invoked the operation [n] times with [1 <= n <= maxRetries + 1], its
    outcome is that of invocation [n]; every earlier invocation raised a
    retryable error; when [n <= maxRetries] the last invocation
    returned or raised a non-retryable error; and before each further
    invocation it slept [calculateDelay(attempt)], so [n - 1] delays. *)
Theorem retry_stops_at_first_decisive :
  0 <= maxRetries ->
  exists r,
    Retry.retry maxRetries baseDelayMs maxDelayMs backoffMultiplier
      operation random = Some r /\
    (1 <= Retry.invocations r <= Z.to_nat (maxRetries + 1))%nat /\
    Retry.outcome r = operation (pred (Retry.invocations r)) /\
    (forall i, (i < pred (Retry.invocations r))%nat ->
       exists e, operation i = Throw e /\ Retry.isRetryableError e = true) /\
    (Z.of_nat (Retry.invocations r) <= maxRetries ->
       match operation (pred (Retry.invocations r)) with
       | Normal _ => True
       | Throw e => Retry.isRetryableError e = false
       end) /\
    Retry.delays r
    = (fun i => calculateDelay' (random i) (Z.of_nat i + 1))
        <$> seq 0 (pred (Retry.invocations r)).
Proof.
  intros Hmax. unfold Retry.retry.
  destruct (retry_loop_spec (S (Z.to_nat (maxRetries + 1))) 1 0%nat None [])
    as (r & Hr & Hcalls & Hbound & Hout & Hearlier & Hdecisive & Hdelays);
    [lia|lia|lia|].
  exists r. split; [done|]. split; [lia|]. split; [done|].
  split; [intros i Hi; apply Hearlier; lia|]. split; [done|].
  rewrite Hdelays. csimpl. by rewrite Nat.sub_0_r.
Qed.

(** X11.  For every retry bound, every operation and every sequence of
    random draws, [retry] returns after at most [maxRetries + 1]
    invocations; it sleeps once between two invocations and never
    longer than [maxDelayMs]; and with a negative bound it does not
    invoke the operation at all and raises [undefined]. *)
Theorem retry_is_bounded :
  exists r,
    Retry.retry maxRetries baseDelayMs maxDelayMs backoffMultiplier
      operation random = Some r /\
    Z.of_nat (Retry.invocations r) <= Z.max 0 (maxRetries + 1) /\
    length (Retry.delays r) = pred (Retry.invocations r) /\
    Forall (fun d => (d <= maxDelayMs)%Q) (Retry.delays r) /\
    (maxRetries < 0 ->
     Retry.invocations r = 0%nat /\ Retry.outcome r = Throw None).
Proof.
  destruct (decide (0 <= maxRetries)) as [Hmax|Hneg].
  - unfold Retry.retry.
    destruct (retry_loop_spec (S (Z.to_nat (maxRetries + 1))) 1 0%nat None [])
      as (r & Hr & Hcalls & Hbound & Hout & Hearlier & Hdecisive & Hdelays);
      [lia|lia|lia|].
    exists r. split; [done|]. split; [lia|]. rewrite Hdelays. csimpl.
    split; [rewrite length_fmap, length_seq; lia|]. split; [|lia].
    apply Forall_fmap, Forall_forall. intros i _. simpl.
    unfold Retry.calculateDelay. apply Q.le_min_r.
  - unfold Retry.retry. cbn [Retry.retry_loop].
    replace (1 <=? maxRetries + 1) with false
      by (symmetry; apply Z.leb_gt; lia).
    eexists. split; [done|]. cbn. split; [lia|]. split; [done|].
    split; [constructor|done].
Qed.

End retry_more.

Lemma retry_stops_at_first_decisive_witness :
  let operation :=
    fun n : nat =>
      match n with
      | O => Throw error_503
      | _ => Normal "generated text"%string
      end in
  exists r,
    Retry.retry 2 1000 30000 2 operation (fun _ => 0%Q) = Some r /\
    (1 <= Retry.invocations r <= Z.to_nat (2 + 1))%nat /\
    Retry.outcome r = operation (pred (Retry.invocations r)) /\
    (forall i, (i < pred (Retry.invocations r))%nat ->
       exists e, operation i = Throw e /\ Retry.isRetryableError e = true) /\
    (Z.of_nat (Retry.invocations r) <= 2 ->
       match operation (pred (Retry.invocations r)) with
       | Normal _ => True
       | Throw e => Retry.isRetryableError e = false
       end) /\
    Retry.delays r
    = (fun i => Retry.calculateDelay 1000 30000 2 0 (Z.of_nat i + 1))
        <$> seq 0 (pred (Retry.invocations r)).
Proof.
  intros operation.
  apply (retry_stops_at_first_decisive 2 1000 30000 2 operation
           (fun _ => 0%Q)).
  lia.
Defined.

(** ** Batch processor: every schedule *)

Section batch_more.

Variables (batchSize processingDelayMs : Z).

Local Abbreviation step' := (Batch.step batchSize).
Local Abbreviation run' := (Batch.run batchSize).
Local Abbreviation drain' := (Batch.drain batchSize processingDelayMs).

Lemma run_app evs1 evs2 st : run' (evs1 ++ evs2) st = run' evs2 (run' evs1 st).
Proof. unfold Batch.run. apply foldl_app. Qed.

Lemma run_cons ev evs st : run' (ev :: evs) st = run' evs (step' st ev).
Proof. done. Qed.

(** [launch] either finds no response for the request and does
    nothing, or marks the response and adds one promise. *)
Lemma launch_cases now st request :
  (Map_get (Batch.id request) (Batch.results st) = None /\
   Batch.launch now st request = st) \/
  (exists ref,
     Map_get (Batch.id request) (Batch.results st) = Some ref /\
     Batch.launch now st request
     = {| Batch.queue := Batch.queue st; Batch.results := Batch.results st;
          Batch.heap := alter (Batch.mark_processing now) ref (Batch.heap st);
          Batch.isProcessing := Batch.isProcessing st;
          Batch.processRequest := Batch.processRequest st;
          Batch.inflight :=
            Batch.inflight st
            ++ [(ref, Batch.call (Batch.processRequest st) request)];
          Batch.sleeping := Batch.sleeping st |}).
Proof.
  unfold Batch.launch. destruct (Map_get _ _) as [ref|]; [right|left]; eauto.
Qed.

(** What launching a batch changes: the heap cells of the launched
    responses and the promises in flight. *)
Lemma launch_all_frame now batch : forall st,
  Batch.queue (foldl (Batch.launch now) st batch) = Batch.queue st /\
  Batch.results (foldl (Batch.launch now) st batch) = Batch.results st /\
  Batch.isProcessing (foldl (Batch.launch now) st batch)
  = Batch.isProcessing st /\
  Batch.processRequest (foldl (Batch.launch now) st batch)
  = Batch.processRequest st /\
  Batch.sleeping (foldl (Batch.launch now) st batch) = Batch.sleeping st /\
  length (Batch.heap (foldl (Batch.launch now) st batch))
  = length (Batch.heap st) /\
  exists more,
    Batch.inflight (foldl (Batch.launch now) st batch)
    = Batch.inflight st ++ more /\
    (length more <= length batch)%nat /\
    (forall r ref, r ∈ batch ->
       Map_get (Batch.id r) (Batch.results st) = Some ref ->
       ref ∈ fst <$> more) /\
    (forall ref,
       ref ∈ fst <$> more \/
       Batch.heap (foldl (Batch.launch now) st batch) !! ref
       = Batch.heap st !! ref).
Proof.
  induction batch as [|request batch IH]; intros st.
  - simpl. do 6 (split; [done|]). exists []. rewrite app_nil_r.
    split; [done|]. split; [done|]. split; [|by right].
    intros r ref Hr. by apply elem_of_nil in Hr.
  - change (foldl (Batch.launch now) st (request :: batch))
      with (foldl (Batch.launch now) (Batch.launch now st request) batch).
    destruct (launch_cases now st request) as [[Hnone ->]|(ref0 & Hsome & ->)].
    + destruct (IH st) as (? & ? & ? & ? & ? & ? & more & ? & ? & Hcov & ?).
      do 6 (split; [done|]). exists more. split; [done|].
      split; [simpl; lia|]. split; [|done].
      intros r ref Hr Hget. apply elem_of_cons in Hr as [->|Hr]; [|eauto].
      congruence.
    + match goal with |- context [foldl _ ?s batch] => set (st' := s) end.
      destruct (IH st') as (? & ? & ? & ? & ? & Hlen & more & Hfly & ? & Hcov
                            & Hheap).
      do 5 (split; [done|]).
      split; [rewrite Hlen; simpl; by rewrite length_alter|].
      exists ((ref0, Batch.call (Batch.processRequest st) request) :: more).
      split; [rewrite Hfly; simpl; by rewrite <- app_assoc|].
      split; [simpl; lia|]. split.
      * intros r ref Hr Hget. csimpl.
        apply elem_of_cons in Hr as [->|Hr].
        -- apply elem_of_cons. left. congruence.
        -- apply elem_of_cons. right. by apply (Hcov r).
      * intros ref. csimpl. destruct (decide (ref = ref0)) as [->|Hne].
        -- left. apply elem_of_cons. by left.
        -- destruct (Hheap ref) as [Hin|Heq];
             [left; apply elem_of_cons; by right|right].
           rewrite Heq. simpl. by apply list_lookup_alter_ne.
Qed.

Lemma loop_head_queue now st :
  Batch.queue (Batch.loop_head batchSize now st)
  = drop (Z.to_nat batchSize) (Batch.queue st).
Proof.
  unfold Batch.loop_head.
  destruct (Batch.queue st) as [|request queue] eqn:Hq; [by rewrite drop_nil|].
  set (st1 := {| Batch.queue := _ |}).
  destruct (launch_all_frame now (take (Z.to_nat batchSize) (request :: queue))
              st1) as (Hq2 & _).
  destruct (Batch.inflight (foldl _ _ _)); [|done].
  unfold Batch.after_batch. rewrite Hq2.
  by destruct (Batch.queue st1) eqn:E; simpl; rewrite <- E.
Qed.

Lemma after_batch_scheduled st :
  Batch.inflight st = [] -> Batch.isProcessing st = true ->
  scheduled (Batch.after_batch st).
Proof.
  intros Hfly Hbusy. unfold Batch.after_batch, scheduled.
  destruct (Batch.queue st); simpl; by rewrite Hfly.
Qed.

Lemma loop_head_scheduled now st :
  Batch.inflight st = [] -> Batch.isProcessing st = true ->
  scheduled (Batch.loop_head batchSize now st).
Proof.
  intros Hfly Hbusy. unfold Batch.loop_head.
  destruct (Batch.queue st) as [|request queue] eqn:Hq.
  { unfold scheduled. simpl. by rewrite Hfly. }
  set (st1 := {| Batch.queue := _ |}).
  destruct (launch_all_frame now (take (Z.to_nat batchSize) (request :: queue))
              st1) as (_ & _ & Hbusy2 & _ & Hsleep2 & _).
  destruct (Batch.inflight (foldl _ _ _)) eqn:Hfly2.
  - apply after_batch_scheduled; [done|]. by rewrite Hbusy2.
  - unfold scheduled. rewrite Hfly2, Hsleep2, Hbusy2. done.
Qed.

Lemma step_scheduled st ev : scheduled st -> scheduled (step' st ev).
Proof.
  intros Hst. destruct ev as [now [request|i| |processor|]];
    unfold Batch.step; cbn [fst snd].
  - unfold Batch.addRequest. cbn [Batch.isProcessing].
    destruct (Batch.isProcessing st) eqn:Hbusy; cbn [negb].
    + unfold scheduled in *. simpl.
      destruct (Batch.inflight st), (Batch.sleeping st); try done.
      destruct Hst. congruence.
    + assert (Batch.inflight st = [] /\ Batch.sleeping st = false) as [Hf Hs].
      { unfold scheduled in Hst.
        destruct (Batch.inflight st), (Batch.sleeping st);
          (done || congruence). }
      unfold Batch.processQueue. cbn [Batch.isProcessing orb Batch.queue].
      destruct (bool_decide _) eqn:Hempty.
      * apply bool_decide_eq_true in Hempty.
        unfold scheduled. simpl. by rewrite Hf, Hs.
      * by apply loop_head_scheduled.
  - unfold Batch.settle.
    destruct (Batch.inflight st !! i) as [[ref o]|] eqn:Hi; [|done].
    assert (Batch.sleeping st = false /\ Batch.isProcessing st = true)
      as [Hs Hbusy].
    { unfold scheduled in Hst.
      destruct (Batch.inflight st), (Batch.sleeping st); done. }
    cbn [Batch.inflight]. destruct (delete i (Batch.inflight st)) eqn:Hrest.
    + apply after_batch_scheduled; done.
    + unfold scheduled. simpl. by rewrite Hs.
  - unfold Batch.timer. destruct (Batch.sleeping st) eqn:Hs; [|done].
    unfold scheduled in Hst. rewrite Hs in Hst.
    destruct (Batch.inflight st) eqn:Hf; [|done].
    by apply loop_head_scheduled.
  - done.
  - done.
Qed.

Lemma run_scheduled evs : forall st, scheduled st -> scheduled (run' evs st).
Proof.
  induction evs as [|ev evs IH]; intros st Hst; [done|].
  rewrite run_cons. by apply IH, step_scheduled.
Qed.

Lemma settle_measure now st :
  scheduled st -> Batch.inflight st <> [] ->
  (batch_measure (Batch.settle now 0 st) < batch_measure st)%nat.
Proof.
  intros Hst Hfly. unfold Batch.settle.
  destruct (Batch.inflight st) as [|[ref o] fly] eqn:Hf; [done|].
  assert (Batch.sleeping st = false) as Hs.
  { unfold scheduled in Hst. rewrite Hf in Hst.
    by destruct (Batch.sleeping st). }
  cbn [lookup list_lookup delete list_delete Batch.inflight].
  destruct fly as [|p fly].
  - unfold Batch.after_batch, batch_measure. cbn [Batch.queue].
    destruct (Batch.queue st); simpl; rewrite ?Hf, ?Hs; simpl; lia.
  - unfold batch_measure. simpl. rewrite Hf, Hs. simpl. lia.
Qed.

Lemma timer_measure now st :
  1 <= batchSize ->
  Batch.inflight st = [] -> Batch.sleeping st = true ->
  (batch_measure (Batch.timer batchSize now st) < batch_measure st)%nat.
Proof.
  intros Hsize Hf Hs. unfold Batch.timer. rewrite Hs. unfold Batch.loop_head.
  destruct (Batch.queue st) as [|request queue] eqn:Hq.
  { unfold batch_measure. simpl. rewrite Hf, Hq, Hs. simpl. lia. }
  set (st1 := {| Batch.queue := _ |}).
  destruct (launch_all_frame now (take (Z.to_nat batchSize) (request :: queue))
              st1) as (Hq2 & _ & _ & _ & Hs2 & _ & more & Hf2 & Hlen & _).
  simpl in Hq2, Hs2, Hf2. rewrite Hf in Hf2. simpl in Hf2.
  rewrite length_take in Hlen.
  assert (length (drop (Z.to_nat batchSize) (request :: queue))
          = (length (request :: queue) - Z.to_nat batchSize)%nat) as Hdrop
    by apply length_drop.
  destruct (Batch.inflight (foldl _ _ _)) eqn:Hfly2.
  - unfold Batch.after_batch, batch_measure. rewrite Hq2.
    destruct (drop _ _) eqn:Hd; simpl; rewrite ?Hfly2, ?Hf, ?Hq, ?Hs;
      simpl in *; lia.
  - unfold batch_measure. rewrite Hq2, Hfly2, Hs2, Hf, Hq, Hs, Hdrop.
    rewrite <- Hf2 in Hlen. simpl in *. lia.
Qed.

(** With [batchSize >= 1] the event loop comes to rest. *)
Lemma drain_reaches_idle : forall fuel now st,
  1 <= batchSize -> scheduled st ->
  (batch_measure st < fuel)%nat ->
  Batch.inflight (drain' fuel now st) = [] /\
  Batch.sleeping (drain' fuel now st) = false.
Proof.
  induction fuel as [|fuel IH]; intros now st Hsize Hst Hfuel; [lia|].
  cbn [Batch.drain]. destruct (Batch.inflight st) as [|p fly] eqn:Hf.
  - destruct (Batch.sleeping st) eqn:Hs; [|done].
    apply IH; [done| |].
    + apply (step_scheduled st (now + processingDelayMs, Batch.Timer) Hst).
    + pose proof (timer_measure (now + processingDelayMs) st Hsize Hf Hs). lia.
  - apply IH; [done| |].
    + apply (step_scheduled st (now, Batch.Settle 0) Hst).
    + pose proof (settle_measure now st Hst ltac:(by rewrite Hf)). lia.
Qed.

(** What [drain] does is a sequence of settlements and timer events. *)
Lemma drain_is_run : forall fuel now st,
  exists evs,
    drain' fuel now st = run' evs st /\
    Forall (fun ev => match snd ev with
                      | Batch.Settle _ | Batch.Timer => True
                      | _ => False
                      end) evs.
Proof.
  induction fuel as [|fuel IH]; intros now st; [by exists []|].
  cbn [Batch.drain]. destruct (Batch.inflight st) as [|p fly] eqn:Hf.
  - destruct (Batch.sleeping st) eqn:Hs; [|by exists []].
    destruct (IH (now + processingDelayMs)
                (Batch.timer batchSize (now + processingDelayMs) st))
      as [evs [-> Hevs]].
    exists ((now + processingDelayMs, Batch.Timer) :: evs).
    split; [done|]. by constructor.
  - destruct (IH now (Batch.settle now 0 st)) as [evs [-> Hevs]].
    exists ((now, Batch.Settle 0) :: evs). split; [done|]. by constructor.
Qed.

Lemma after_batch_frame st :
  Batch.queue (Batch.after_batch st) = Batch.queue st /\
  Batch.results (Batch.after_batch st) = Batch.results st /\
  Batch.heap (Batch.after_batch st) = Batch.heap st /\
  Batch.inflight (Batch.after_batch st) = Batch.inflight st /\
  Batch.processRequest (Batch.after_batch st) = Batch.processRequest st.
Proof. unfold Batch.after_batch. by destruct (Batch.queue st) eqn:E. Qed.

Lemma loop_head_results now st :
  Batch.results (Batch.loop_head batchSize now st) = Batch.results st.
Proof.
  unfold Batch.loop_head.
  destruct (Batch.queue st) as [|request queue] eqn:Hq; [done|].
  set (st1 := {| Batch.queue := _ |}).
  destruct (launch_all_frame now (take (Z.to_nat batchSize) (request :: queue))
              st1) as (_ & Hr2 & _).
  destruct (Batch.inflight (foldl _ _ _)); [|done].
  by rewrite (proj1 (proj2 (after_batch_frame _))).
Qed.

Lemma settle_frame now i st :
  Batch.queue (Batch.settle now i st) = Batch.queue st /\
  Batch.results (Batch.settle now i st) = Batch.results st.
Proof.
  unfold Batch.settle. destruct (Batch.inflight st !! i) as [[ref o]|]; [|done].
  cbn [Batch.inflight]. destruct (delete i (Batch.inflight st)); [|done].
  destruct (after_batch_frame
              {| Batch.queue := Batch.queue st;
                 Batch.results := Batch.results st;
                 Batch.heap := alter (Batch.finish now o) ref (Batch.heap st);
                 Batch.isProcessing := Batch.isProcessing st;
                 Batch.processRequest := Batch.processRequest st;
                 Batch.inflight := [];
                 Batch.sleeping := Batch.sleeping st |}) as (Hq & Hr & _).
  by rewrite Hq, Hr.
Qed.

(** How one event changes the queue: a submission inserts by
    priority, and the drain loop takes a batch from the front. *)
Lemma step_queue st ev :
  exists n,
    Batch.queue (step' st ev)
    = drop n (match snd ev with
              | Batch.Submit request =>
                  sort Batch.by_priority (Batch.queue st ++ [request])
              | _ => Batch.queue st
              end).
Proof.
  destruct ev as [now [request|i| |processor|]];
    unfold Batch.step; cbn [fst snd].
  - unfold Batch.addRequest. cbn [Batch.isProcessing].
    destruct (Batch.isProcessing st); cbn [negb]; [by exists 0%nat|].
    unfold Batch.processQueue. cbn [Batch.isProcessing orb Batch.queue].
    destruct (bool_decide _); [by exists 0%nat|].
    exists (Z.to_nat batchSize). by rewrite loop_head_queue.
  - exists 0%nat. by rewrite (proj1 (settle_frame now i st)).
  - unfold Batch.timer. destruct (Batch.sleeping st); [|by exists 0%nat].
    exists (Z.to_nat batchSize). by rewrite loop_head_queue.
  - by exists 0%nat.
  - by exists 0%nat.
Qed.

Lemma by_priority_order a b :
  Batch.by_priority a b <= 0 <-> priority_order a b.
Proof. unfold Batch.by_priority, priority_order. lia. Qed.

Lemma sort_by_priority_sorted l :
  StronglySorted priority_order (sort Batch.by_priority l).
Proof.
  assert (StronglySorted (fun a b => Batch.by_priority a b <= 0)
            (sort Batch.by_priority l)) as Hs
    by (apply sort_sorted; unfold Batch.by_priority; intros; lia).
  induction Hs as [|a r Hr IH Ha]; constructor; [done|].
  eapply Forall_impl; [exact Ha|]. intros b. apply by_priority_order.
Qed.

Lemma StronglySorted_drop {A} (R : A -> A -> Prop) n (l : list A) :
  StronglySorted R l -> StronglySorted R (drop n l).
Proof.
  intros Hl. rewrite <- (take_drop n l) in Hl.
  by apply StronglySorted_app_1_r in Hl.
Qed.

Lemma submitted_cons {E} (ev : E * Batch.event) evs :
  submitted (ev :: evs)
  = match snd ev with
    | Batch.Submit request => request :: submitted evs
    | _ => submitted evs
    end.
Proof. unfold submitted. simpl. by destruct (snd ev). Qed.

Lemma run_queue evs : forall st,
  StronglySorted priority_order (Batch.queue st) ->
  StronglySorted priority_order (Batch.queue (run' evs st)) /\
  Batch.queue (run' evs st) ⊆+ Batch.queue st ++ submitted evs.
Proof.
  induction evs as [|ev evs IH]; intros st Hst.
  - split; [done|]. simpl. by rewrite app_nil_r.
  - rewrite run_cons. destruct (step_queue st ev) as [n Hn].
    destruct (IH (step' st ev)) as [Hsorted Hsub].
    { rewrite Hn. apply StronglySorted_drop.
      destruct ev as [now [request|i| |processor|]]; cbn [snd];
        (done || apply sort_by_priority_sorted). }
    split; [done|]. etrans; [exact Hsub|]. rewrite Hn, submitted_cons.
    destruct ev as [now [request|i| |processor|]]; cbn [snd];
      try (apply submseteq_app; [apply sublist_submseteq, sublist_drop|done]).
    change (Batch.queue st ++ request :: submitted evs)
      with (Batch.queue st ++ [request] ++ submitted evs).
    rewrite (app_assoc (Batch.queue st)).
    apply submseteq_app; [|done].
    etrans; [apply sublist_submseteq, sublist_drop|].
    by rewrite sort_perm.
Qed.

(** X12.  At any moment the queue of a batch processor is ordered by
    priority, highest first (a missing priority counts as 0), and holds
    only submitted requests, each at most as often as it was
    submitted. *)
Theorem queue_ordered_by_priority (evs : list (Z * Batch.event)) :
  let st := run' evs Batch.createBatchProcessor in
  StronglySorted priority_order (Batch.queue st) /\
  Batch.queue st ⊆+ submitted evs.
Proof.
  destruct (run_queue evs Batch.createBatchProcessor) as [Hs Hsub];
    [constructor|].
  split; [done|]. by rewrite Hsub.
Qed.

(** *** The declared [processRequest] is the only one that runs *)

Section stub.

Variable P : Batch.BatchResponse -> Prop.
Hypothesis P_pending : forall i,
  P {| Batch.response_id := i; Batch.status := Batch.pending;
       Batch.result := None; Batch.error := None;
       Batch.startTime := None; Batch.endTime := None |}.
Hypothesis P_processing : forall now r, P r -> P (Batch.mark_processing now r).
Hypothesis P_rejected : forall now r,
  P r -> P (Batch.finish now (Throw not_injected) r).

Lemma after_batch_stub st :
  stub_inv P st -> stub_inv P (Batch.after_batch st).
Proof. unfold Batch.after_batch. by destruct (Batch.queue st). Qed.

Lemma launch_all_stub now batch : forall st,
  stub_inv P st -> stub_inv P (foldl (Batch.launch now) st batch).
Proof.
  induction batch as [|request batch IH]; intros st Hst; [done|].
  change (foldl (Batch.launch now) st (request :: batch))
    with (foldl (Batch.launch now) (Batch.launch now st request) batch).
  apply IH.
  destruct (launch_cases now st request) as [[_ ->]|(ref & _ & ->)]; [done|].
  destruct Hst as (Hcall & Hfly & Hheap). split; [done|]. simpl. split.
  - apply Forall_app. split; [done|]. repeat constructor. apply Hcall.
  - apply Forall_alter; [done|]. intros r _ Hr. by apply P_processing.
Qed.

Lemma loop_head_stub now st :
  stub_inv P st -> stub_inv P (Batch.loop_head batchSize now st).
Proof.
  intros Hst. unfold Batch.loop_head.
  destruct (Batch.queue st) as [|request queue] eqn:Hq; [done|].
  set (st1 := {| Batch.queue := _ |}).
  assert (stub_inv P (foldl (Batch.launch now) st1
                        (take (Z.to_nat batchSize) (request :: queue))))
    as Hlaunched by by apply launch_all_stub.
  destruct (Batch.inflight (foldl _ _ _));
    [by apply after_batch_stub|done].
Qed.

Lemma step_stub st ev : stub_inv P st -> stub_inv P (step' st ev).
Proof.
  intros Hst. destruct ev as [now [request|i| |processor|]];
    unfold Batch.step; cbn [fst snd].
  - unfold Batch.addRequest. cbn [Batch.isProcessing].
    assert (forall q b,
              stub_inv P
                {| Batch.queue := q;
                   Batch.results :=
                     Map_set (Batch.id request) (length (Batch.heap st))
                       (Batch.results st);
                   Batch.heap :=
                     Batch.heap st ++
                     [{| Batch.response_id := Batch.id request;
                         Batch.status := Batch.pending;
                         Batch.result := None; Batch.error := None;
                         Batch.startTime := None; Batch.endTime := None |}];
                   Batch.isProcessing := b;
                   Batch.processRequest := Batch.processRequest st;
                   Batch.inflight := Batch.inflight st;
                   Batch.sleeping := Batch.sleeping st |}) as Hst1.
    { intros q b. destruct Hst as (Hcall & Hfly & Hheap). split; [done|].
      split; [done|]. simpl. apply Forall_app. split; [done|].
      by repeat constructor. }
    destruct (Batch.isProcessing st); cbn [negb]; [apply Hst1|].
    unfold Batch.processQueue. cbn [Batch.isProcessing orb].
    destruct (bool_decide _); [apply Hst1|]. apply loop_head_stub, Hst1.
  - unfold Batch.settle.
    destruct (Batch.inflight st !! i) as [[ref o]|] eqn:Hi; [|done].
    destruct Hst as (Hcall & Hfly & Hheap).
    pose proof (Forall_lookup_1 _ _ _ _ Hfly Hi) as Ho. simpl in Ho. subst o.
    assert (stub_inv P
              {| Batch.queue := Batch.queue st;
                 Batch.results := Batch.results st;
                 Batch.heap :=
                   alter (Batch.finish now (Throw not_injected)) ref
                     (Batch.heap st);
                 Batch.isProcessing := Batch.isProcessing st;
                 Batch.processRequest := Batch.processRequest st;
                 Batch.inflight := delete i (Batch.inflight st);
                 Batch.sleeping := Batch.sleeping st |}) as Hst1.
    { split; [done|]. simpl. split; [by apply Forall_delete|].
      apply Forall_alter; [done|]. intros r _ Hr. by apply P_rejected. }
    cbn [Batch.inflight]. destruct (delete i (Batch.inflight st));
      [by apply after_batch_stub|done].
  - unfold Batch.timer. destruct (Batch.sleeping st); [|done].
    by apply loop_head_stub.
  - done.
  - done.
Qed.

Lemma run_stub evs : forall st, stub_inv P st -> stub_inv P (run' evs st).
Proof.
  induction evs as [|ev evs IH]; intros st Hst; [done|].
  rewrite run_cons. by apply IH, step_stub.
Qed.

End stub.

Lemma run_rejected_by_stub evs :
  stub_inv rejected_by_stub (run' evs Batch.createBatchProcessor).
Proof.
  apply run_stub.
  - intros i. by split.
  - intros now r _. by split.
  - intros now r _. by split.
  - by repeat split.
Qed.

Lemma getStatus_elem_of i st r :
  Batch.getStatus i st = Some r -> r ∈ Batch.heap st.
Proof.
  unfold Batch.getStatus. destruct (Map_get i (Batch.results st)); [|done].
  simpl. apply list_elem_of_lookup_2.
Qed.

(** X13.  Whatever is submitted, injected with [setProcessor], settled
    or cleared, in any order: no response is ever reported as
    [completed], the promise returned by [addRequest] for an id never
    resolves, and when it rejects it rejects with the text of the
    [processRequest] declared in the package. *)
Theorem batch_never_resolves (evs : list (Z * Batch.event)) (i : string) :
  let st := run' evs Batch.createBatchProcessor in
  (forall r, Batch.getStatus i st = Some r ->
             Batch.status r <> Batch.completed) /\
  Forall (fun r => Batch.status r <> Batch.completed)
    (Batch.getAllStatuses st) /\
  (forall r, Batch.checkResult i st <> Some (Normal r)) /\
  (forall m, Batch.checkResult i st = Some (Throw m) -> m = not_injected).
Proof.
  intros st. destruct (run_rejected_by_stub evs) as (_ & _ & Hheap).
  fold st in Hheap. rewrite Forall_forall in Hheap.
  split; [|split; [|split]].
  - intros r Hr. apply getStatus_elem_of in Hr. by apply Hheap in Hr as [? _].
  - apply Forall_forall. intros r Hr. unfold Batch.getAllStatuses in Hr.
    apply list_elem_of_omap in Hr as ([i' ref] & _ & Hr).
    apply list_elem_of_lookup_2 in Hr. by apply Hheap in Hr as [? _].
  - intros r. unfold Batch.checkResult.
    destruct (Batch.getStatus i st) as [r0|] eqn:Hget; [|done].
    apply getStatus_elem_of in Hget. apply Hheap in Hget as [Hnot _].
    by destruct (Batch.status r0).
  - intros m. unfold Batch.checkResult.
    destruct (Batch.getStatus i st) as [r0|] eqn:Hget; [|done].
    apply getStatus_elem_of in Hget. apply Hheap in Hget as [_ Herr].
    destruct (Batch.status r0); try done.
    rewrite Herr by done. simpl. congruence.
Qed.

(** *** Every tracked request is settled in the end *)

Lemma tracked_ext st st' :
  Batch.queue st' = Batch.queue st ->
  Batch.results st' = Batch.results st ->
  Batch.heap st' = Batch.heap st ->
  Batch.inflight st' = Batch.inflight st ->
  tracked st -> tracked st'.
Proof. unfold tracked. by intros -> -> -> ->. Qed.

Lemma after_batch_tracked st : tracked st -> tracked (Batch.after_batch st).
Proof.
  destruct (after_batch_frame st) as (? & ? & ? & ? & _). by apply tracked_ext.
Qed.

Lemma loop_head_tracked now st :
  tracked st -> tracked (Batch.loop_head batchSize now st).
Proof.
  intros [Hwf Hst]. unfold Batch.loop_head.
  destruct (Batch.queue st) as [|request queue] eqn:Hq.
  { split; [done|]. simpl. intros i ref Hin.
    destruct (Hst i ref Hin) as [Hlt Hwhy]. done. }
  set (batch := take (Z.to_nat batchSize) (request :: queue)).
  set (st1 := {| Batch.queue := _ |}).
  destruct (launch_all_frame now batch st1)
    as (Hq2 & Hr2 & _ & _ & _ & Hlen & more & Hfly & _ & Hcov & Hheap).
  assert (tracked (foldl (Batch.launch now) st1 batch)) as Hlaunched.
  { split; [by rewrite Hr2|]. rewrite Hr2, Hq2, Hlen, Hfly. simpl.
    intros i ref Hin. destruct (Hst i ref Hin) as [Hlt Hwhy].
    split; [done|].
    destruct Hwhy as [Hqueued|[Hflying|Hdone]].
    - rewrite <- (take_drop (Z.to_nat batchSize) (request :: queue)) in Hqueued.
      rewrite fmap_app in Hqueued.
      apply elem_of_app in Hqueued as [Hbatch|Hrest]; [|by left].
      right. left. rewrite fmap_app. apply elem_of_app. right.
      apply list_elem_of_fmap in Hbatch as (r & -> & Hr).
      apply (Hcov r); [done|]. simpl. by apply elem_of_Map_get.
    - right. left. rewrite fmap_app. apply elem_of_app. by left.
    - destruct (Hheap ref) as [Hnew|Hsame].
      + right. left. rewrite fmap_app. apply elem_of_app. by right.
      + right. right. by rewrite Hsame. }
  destruct (Batch.inflight (foldl _ _ _));
    [by apply after_batch_tracked|done].
Qed.

Lemma List_filter_sub {A} (f : A -> bool) (l : list A) x :
  x ∈ List.filter f l -> x ∈ l /\ f x = true.
Proof. rewrite !list_elem_of_In. apply filter_In. Qed.

Lemma List_filter_wf {V} (f : string * V -> bool) (m : list (string * V)) :
  Map_wf m -> Map_wf (List.filter f m).
Proof.
  unfold Map_wf. induction m as [|[k v] m IH]; [done|].
  csimpl. rewrite NoDup_cons. intros [Hk Hnd].
  destruct (f (k, v)); [|auto]. csimpl. apply NoDup_cons. split; [|auto].
  intros Hin. apply Hk. apply list_elem_of_fmap in Hin as (x & -> & Hx).
  apply List_filter_sub in Hx as [Hx _]. apply list_elem_of_fmap. by exists x.
Qed.

Lemma elem_of_delete_ne {A B} (l : list (A * B)) i a b x :
  l !! i = Some (a, b) -> x ∈ fst <$> l -> x <> a -> x ∈ fst <$> delete i l.
Proof.
  revert i. induction l as [|[a' b'] l IH]; intros i; [done|].
  destruct i as [|i]; csimpl.
  - intros [= -> ->]. rewrite elem_of_cons. by intros [?|?].
  - intros Hi. rewrite !elem_of_cons. intros [->|Hx] Hne; [by left|].
    right. by apply IH.
Qed.

Lemma step_tracked st ev : tracked st -> tracked (step' st ev).
Proof.
  intros Hst. destruct ev as [now [request|i| |processor|]];
    unfold Batch.step; cbn [fst snd].
  - unfold Batch.addRequest. cbn [Batch.isProcessing].
    assert (forall b,
              tracked
                {| Batch.queue :=
                     sort Batch.by_priority (Batch.queue st ++ [request]);
                   Batch.results :=
                     Map_set (Batch.id request) (length (Batch.heap st))
                       (Batch.results st);
                   Batch.heap :=
                     Batch.heap st ++
                     [{| Batch.response_id := Batch.id request;
                         Batch.status := Batch.pending;
                         Batch.result := None; Batch.error := None;
                         Batch.startTime := None; Batch.endTime := None |}];
                   Batch.isProcessing := b;
                   Batch.processRequest := Batch.processRequest st;
                   Batch.inflight := Batch.inflight st;
                   Batch.sleeping := Batch.sleeping st |}) as Hst1.
    { intros b. destruct Hst as [Hwf Hst]. split; [by apply Map_set_wf|].
      simpl. intros i ref Hin. rewrite length_app. simpl.
      apply Map_set_sub in Hin as [[= -> ->]|Hin].
      - split; [lia|]. left. apply list_elem_of_fmap. exists request.
        split; [done|]. apply sort_elem_of, elem_of_app. right.
        by apply list_elem_of_singleton.
      - destruct (Hst i ref Hin) as [Hlt Hwhy]. split; [lia|].
        destruct Hwhy as [Hqueued|[Hflying|Hdone]].
        + left. apply list_elem_of_fmap in Hqueued as (r & -> & Hr).
          apply list_elem_of_fmap. exists r. split; [done|].
          apply sort_elem_of, elem_of_app. by left.
        + right. by left.
        + right. right. by rewrite lookup_app_l. }
    destruct (Batch.isProcessing st); cbn [negb]; [apply Hst1|].
    unfold Batch.processQueue. cbn [Batch.isProcessing orb].
    destruct (bool_decide _); [apply Hst1|]. apply loop_head_tracked.
    by apply (tracked_ext _ _ eq_refl eq_refl eq_refl eq_refl (Hst1 true)).
  - unfold Batch.settle.
    destruct (Batch.inflight st !! i) as [[ref o]|] eqn:Hi; [|done].
    assert (tracked
              {| Batch.queue := Batch.queue st;
                 Batch.results := Batch.results st;
                 Batch.heap := alter (Batch.finish now o) ref (Batch.heap st);
                 Batch.isProcessing := Batch.isProcessing st;
                 Batch.processRequest := Batch.processRequest st;
                 Batch.inflight := delete i (Batch.inflight st);
                 Batch.sleeping := Batch.sleeping st |}) as Hst1.
    { destruct Hst as [Hwf Hst]. split; [done|]. simpl.
      intros i' ref' Hin. rewrite length_alter.
      destruct (Hst i' ref' Hin) as [Hlt Hwhy]. split; [done|].
      destruct (decide (ref' = ref)) as [->|Hne].
      - right. right. rewrite list_lookup_alter_eq.
        intros r Hr. apply fmap_Some in Hr as (r0 & _ & ->). by destruct o.
      - destruct Hwhy as [Hqueued|[Hflying|Hdone]]; [by left| |].
        + right. left. by apply (elem_of_delete_ne _ _ ref o).
        + right. right. by rewrite list_lookup_alter_ne. }
    cbn [Batch.inflight]. destruct (delete i (Batch.inflight st));
      [by apply after_batch_tracked|done].
  - unfold Batch.timer. destruct (Batch.sleeping st); [|done].
    by apply loop_head_tracked.
  - by apply (tracked_ext st).
  - destruct Hst as [Hwf Hst]. split; [by apply List_filter_wf|]. simpl.
    intros i ref Hin. apply List_filter_sub in Hin as [Hin _]. by apply Hst.
Qed.

Lemma run_tracked evs : forall st, tracked st -> tracked (run' evs st).
Proof.
  induction evs as [|ev evs IH]; intros st Hst; [done|].
  rewrite run_cons. by apply IH, step_tracked.
Qed.

Lemma createBatchProcessor_tracked : tracked Batch.createBatchProcessor.
Proof.
  split; [apply NoDup_nil_2|]. intros i ref Hin. by apply elem_of_nil in Hin.
Qed.

Lemma run_quiet_results evs : forall st,
  Forall (fun ev => match snd ev with
                    | Batch.Settle _ | Batch.Timer => True
                    | _ => False
                    end) evs ->
  Batch.results (run' evs st) = Batch.results st.
Proof.
  induction evs as [|[now ev] evs IH]; intros st Hevs; [done|].
  apply Forall_cons in Hevs as [Hev Hevs]. rewrite run_cons, IH by done.
  destruct ev; try done; unfold Batch.step; cbn [fst snd].
  - apply settle_frame.
  - unfold Batch.timer. destruct (Batch.sleeping st); [|done].
    apply loop_head_results.
Qed.

(** X14.  With [batchSize >= 1], after any sequence of submissions,
    injections, settlements, timer events and [clearCompleted] calls,
    the event loop left alone comes to rest: no promise is in flight, no
    timer between two batches is pending, the queue is empty and
    [isProcessing] is reset;
    and the promise [addRequest] returned for any id that [results]
    still lists has been rejected with the text of the declared
    [processRequest]. *)
Theorem drain_settles_everything
  (evs : list (Z * Batch.event)) (now : Z) (fuel : nat) :
  1 <= batchSize ->
  (batch_measure (run' evs Batch.createBatchProcessor) < fuel)%nat ->
  let st := run' evs Batch.createBatchProcessor in
  let st' := drain' fuel now st in
  Batch.inflight st' = [] /\ Batch.sleeping st' = false /\
  Batch.queue st' = [] /\ Batch.isProcessing st' = false /\
  Batch.results st' = Batch.results st /\
  forall i, is_Some (Map_get i (Batch.results st)) ->
            Batch.checkResult i st' = Some (Throw not_injected).
Proof.
  intros Hsize Hfuel st st'.
  assert (scheduled st) as Hsched by (by apply run_scheduled).
  destruct (drain_reaches_idle fuel now st Hsize Hsched Hfuel) as [Hfly Hsleep].
  destruct (drain_is_run fuel now st) as (evs' & Hrun & Hquiet).
  fold st' in Hfly, Hsleep, Hrun.
  assert (scheduled st') as Hsched' by (rewrite Hrun; by apply run_scheduled).
  assert (tracked st') as [Hwf Htracked].
  { rewrite Hrun. unfold st. rewrite <- run_app.
    apply run_tracked, createBatchProcessor_tracked. }
  assert (stub_inv rejected_by_stub st') as (_ & _ & Hheap).
  { rewrite Hrun. unfold st. rewrite <- run_app. apply run_rejected_by_stub. }
  unfold scheduled in Hsched'. rewrite Hfly, Hsleep in Hsched'.
  destruct Hsched' as [Hqueue Hbusy].
  assert (Batch.results st' = Batch.results st) as Hresults
    by (rewrite Hrun; by apply run_quiet_results).
  do 4 (split; [done|]). split; [done|].
  intros i [ref Hget]. rewrite <- Hresults in Hget.
  destruct (Htracked i ref (Map_get_elem_of _ _ _ Hget)) as [Hlt Hwhy].
  rewrite Hqueue, Hfly in Hwhy.
  destruct Hwhy as [Hqueued|[Hflying|Hdone]];
    [by apply elem_of_nil in Hqueued|by apply elem_of_nil in Hflying|].
  apply lookup_lt_is_Some_2 in Hlt as [r Hr].
  unfold Batch.checkResult, Batch.getStatus. rewrite Hget. simpl. rewrite Hr.
  specialize (Hdone r Hr). rewrite Forall_forall in Hheap.
  destruct (Hheap r (list_elem_of_lookup_2 _ _ _ Hr)) as [Hnot Herr].
  destruct (Batch.status r); try done. by rewrite Herr.
Qed.

End batch_more.

Lemma drain_settles_everything_witness :
  let evs :=
    [(1, Batch.Submit request_first); (2, Batch.Submit request_X);
     (3, Batch.Submit request_Y)] in
  let st := Batch.run 2 evs Batch.createBatchProcessor in
  let st' := Batch.drain 2 100 10 4 st in
  Batch.inflight st' = [] /\ Batch.sleeping st' = false /\
  Batch.queue st' = [] /\ Batch.isProcessing st' = false /\
  Batch.results st' = Batch.results st /\
  forall i, is_Some (Map_get i (Batch.results st)) ->
            Batch.checkResult i st' = Some (Throw not_injected).
Proof.
  apply (drain_settles_everything 2 100
           [(1, Batch.Submit request_first); (2, Batch.Submit request_X);
            (3, Batch.Submit request_Y)] 4 10).
  - lia.
  - vm_compute. lia.
Defined.

(** *** A batch size below 1, and [clearCompleted] *)

Section batch_edge.

Variables (batchSize processingDelayMs : Z).

Local Abbreviation step'' := (Batch.step batchSize).
Local Abbreviation run'' := (Batch.run batchSize).

Lemma loop_head_starving now st :
  batchSize <= 0 ->
  Batch.inflight st = [] ->
  Forall (fun r => Batch.status r = Batch.pending) (Batch.heap st) ->
  Batch.queue st <> [] -> Batch.isProcessing st = true ->
  starving (Batch.loop_head batchSize now st) /\
  Batch.queue (Batch.loop_head batchSize now st) = Batch.queue st.
Proof.
  intros Hsize Hfly Hheap Hqueue Hbusy. unfold Batch.loop_head.
  destruct (Batch.queue st) as [|request queue] eqn:Hq; [done|].
  replace (Z.to_nat batchSize) with 0%nat by lia.
  cbn [take drop foldl Batch.inflight]. rewrite Hfly.
  unfold Batch.after_batch. cbn [Batch.queue]. split; [|done].
  split; [done|]. split; [done|]. right. by repeat split.
Qed.

Lemma step_starving st ev :
  batchSize <= 0 -> starving st ->
  starving (step'' st ev) /\
  Batch.queue (step'' st ev)
  ≡ₚ Batch.queue st ++ submitted [ev].
Proof.
  intros Hsize (Hfly & Hheap & Hloop).
  destruct ev as [now [request|i| |processor|]];
    unfold Batch.step, submitted; cbn [fst snd omap]; rewrite ?app_nil_r.
  - change (Some request ≫= _) with [request].
    unfold Batch.addRequest. cbn [Batch.isProcessing].
    assert (Forall (fun r => Batch.status r = Batch.pending)
              (Batch.heap st ++
               [{| Batch.response_id := Batch.id request;
                   Batch.status := Batch.pending;
                   Batch.result := None; Batch.error := None;
                   Batch.startTime := None; Batch.endTime := None |}]))
      as Hheap1.
    { apply Forall_app. split; [done|]. by repeat constructor. }
    assert (sort Batch.by_priority (Batch.queue st ++ [request]) <> [])
      as Hne.
    { intros Hnil. apply (f_equal length) in Hnil.
      rewrite sort_length, length_app in Hnil. simpl in Hnil. lia. }
    destruct Hloop as [(Hq & Hidle & Hawake)|(Hq & Hbusy & Hasleep)].
    + rewrite Hidle. cbn [negb]. unfold Batch.processQueue.
      cbn [Batch.isProcessing orb Batch.queue].
      rewrite bool_decide_eq_false_2 by done.
      match goal with
      | |- context [Batch.loop_head _ _ ?s] =>
          destruct (loop_head_starving now s Hsize Hfly Hheap1 Hne eq_refl)
            as [Hs ->]
      end.
      split; [done|]. simpl. apply sort_perm.
    + rewrite Hbusy. cbn [negb]. split; [|simpl; apply sort_perm].
      split; [done|]. split; [done|]. right. by repeat split.
  - unfold Batch.settle. rewrite Hfly. cbn [lookup list_lookup].
    replace (([] : list (nat * Batch.settlement)) !! i) with
      (None : option (nat * Batch.settlement)) by by destruct i.
    by repeat split.
  - unfold Batch.timer.
    destruct Hloop as [(Hq & Hidle & Hawake)|(Hq & Hbusy & Hasleep)].
    + rewrite Hawake. split; [|done]. split; [done|]. split; [done|]. by left.
    + rewrite Hasleep.
      destruct (loop_head_starving now st Hsize Hfly Hheap Hq Hbusy)
        as [Hs ->].
      by split.
  - split; [|done]. by repeat split.
  - split; [|done]. by repeat split.
Qed.

Lemma run_starving evs : forall st,
  batchSize <= 0 -> starving st ->
  starving (run'' evs st) /\
  Batch.queue (run'' evs st) ≡ₚ Batch.queue st ++ submitted evs.
Proof.
  induction evs as [|ev evs IH]; intros st Hsize Hst.
  - split; [done|]. simpl. by rewrite app_nil_r.
  - change (run'' (ev :: evs) st) with (run'' evs (step'' st ev)).
    destruct (step_starving st ev Hsize Hst) as [Hst1 Hq1].
    destruct (IH _ Hsize Hst1) as [Hst2 Hq2].
    split; [done|]. rewrite Hq2, Hq1, <- app_assoc.
    apply Permutation_app_head.
    rewrite !submitted_cons. by destruct (snd ev).
Qed.

(** X15.  A batch processor created with [batchSize <= 0] never
    processes anything: whatever events occur, every submitted request
    stays in the queue, no promise is ever in flight, every response
    stays [pending], the promise of [addRequest] stays unsettled for
    every id, and while the queue is non-empty the drain loop keeps
    waking up between empty batches. *)
Theorem nonpositive_batch_size_starves (evs : list (Z * Batch.event)) :
  batchSize <= 0 ->
  let st := run'' evs Batch.createBatchProcessor in
  Batch.queue st ≡ₚ submitted evs /\
  Batch.inflight st = [] /\
  Forall (fun r => Batch.status r = Batch.pending) (Batch.heap st) /\
  (forall i, Batch.checkResult i st = None) /\
  (Batch.queue st <> [] ->
   Batch.sleeping st = true /\
   forall fuel now,
     Batch.queue (Batch.drain batchSize processingDelayMs fuel now st)
     = Batch.queue st).
Proof.
  intros Hsize st.
  destruct (run_starving evs Batch.createBatchProcessor Hsize)
    as [(Hfly & Hheap & Hloop) Hq].
  { split; [done|]. split; [constructor|]. by left. }
  fold st in Hfly, Hheap, Hloop, Hq.
  split; [done|]. split; [done|]. split; [done|]. split.
  - intros i. unfold Batch.checkResult.
    destruct (Batch.getStatus i st) as [r|] eqn:Hget; [|done].
    apply getStatus_elem_of in Hget. rewrite Forall_forall in Hheap.
    by rewrite (Hheap r Hget).
  - intros Hne. destruct Hloop as [(Hq0 & _)|(_ & Hbusy & Hasleep)]; [done|].
    split; [done|].
    clearbody st. clear Hq.
    intros fuel. revert st Hfly Hheap Hne Hbusy Hasleep.
    induction fuel as [|fuel IH];
      intros st Hfly Hheap Hne Hbusy Hasleep now; [done|].
    cbn [Batch.drain]. rewrite Hfly, Hasleep. unfold Batch.timer.
    rewrite Hasleep.
    destruct (loop_head_starving (now + processingDelayMs) st Hsize Hfly
                Hheap Hne Hbusy) as [(Hfly1 & Hheap1 & Hloop1) Hq1].
    rewrite <- Hq1.
    destruct Hloop1 as [(Hq0 & _)|(Hne1 & Hbusy1 & Hasleep1)];
      [by rewrite Hq1 in Hq0|].
    by apply IH.
Qed.

Lemma Map_get_List_filter {V} (f : string * V -> bool)
  (m : list (string * V)) k :
  Map_wf m ->
  Map_get k (List.filter f m)
  = v ← Map_get k m; if f (k, v) then Some v else None.
Proof.
  unfold Map_wf. induction m as [|[k' v'] m IH]; [done|].
  csimpl. rewrite NoDup_cons. intros [Hk Hnd].
  destruct (String.eqb k' k) eqn:E.
  - apply String.eqb_eq in E as ->. simpl.
    destruct (f (k, v')) eqn:Hf; simpl; [by rewrite String.eqb_refl|].
    rewrite IH by done.
    by rewrite (proj2 (Map_get_None k m) Hk).
  - destruct (f (k', v')); simpl; rewrite ?E; by apply IH.
Qed.

(** X16.  [clearCompleted], after any sequence of events, forgets
    exactly the ids whose response is [completed] or [failed]: such an
    id has no status afterwards, every other id keeps the response it
    had, and the queue and the requests in flight are untouched. *)
Theorem clearCompleted_forgets_terminal
  (evs : list (Z * Batch.event)) (i : string) :
  let st := run'' evs Batch.createBatchProcessor in
  Batch.getStatus i (Batch.clearCompleted st)
  = (r ← Batch.getStatus i st;
     if Batch.is_terminal (Batch.status r) then None else Some r) /\
  Batch.queue (Batch.clearCompleted st) = Batch.queue st /\
  Batch.inflight (Batch.clearCompleted st) = Batch.inflight st.
Proof.
  intros st. split; [|done].
  assert (tracked st) as [Hwf Hst]
    by apply run_tracked, createBatchProcessor_tracked.
  unfold Batch.getStatus, Batch.clearCompleted. cbn [Batch.results Batch.heap].
  rewrite Map_get_List_filter by done.
  destruct (Map_get i (Batch.results st)) as [ref|] eqn:Hget; [|done].
  simpl. destruct (Batch.heap st !! ref) as [r|] eqn:Hr; simpl.
  - destruct (Batch.is_terminal (Batch.status r)); simpl; [done|].
    by rewrite Hr.
  - by rewrite Hr.
Qed.

End batch_edge.

Lemma nonpositive_batch_size_starves_witness :
  let evs :=
    [(1, Batch.Submit request_first); (2, Batch.Timer);
     (3, Batch.Submit request_X)] in
  let st := Batch.run 0 evs Batch.createBatchProcessor in
  Batch.queue st ≡ₚ submitted evs /\
  Batch.inflight st = [] /\
  Forall (fun r => Batch.status r = Batch.pending) (Batch.heap st) /\
  (forall i, Batch.checkResult i st = None) /\
  (Batch.queue st <> [] ->
   Batch.sleeping st = true /\
   forall fuel now,
     Batch.queue (Batch.drain 0 100 fuel now st) = Batch.queue st).
Proof.
  apply (nonpositive_batch_size_starves 0 100
           [(1, Batch.Submit request_first); (2, Batch.Timer);
            (3, Batch.Submit request_X)]).
  lia.
Defined.

(** The isolation of the items of one batch, on the batch [X], [Y] of a
    processor whose [processRequest] rejects [X] and fulfils [Y]. *)
Lemma batch_items_isolated_witness :
  let f := fun request : Batch.BatchRequest =>
             if String.eqb (Batch.id request) "X"
             then Throw "quota exceeded"%string
             else Normal "generated text"%string in
  let st :=
    {| Batch.queue := [];
       Batch.results := [("X", 0); ("Y", 1)]%string%nat;
       Batch.heap :=
         [{| Batch.response_id := "X"; Batch.status := Batch.pending;
             Batch.result := None; Batch.error := None;
             Batch.startTime := None; Batch.endTime := None |};
          {| Batch.response_id := "Y"; Batch.status := Batch.pending;
             Batch.result := None; Batch.error := None;
             Batch.startTime := None; Batch.endTime := None |}];
       Batch.isProcessing := true;
       Batch.processRequest := {| Batch.call := f; Batch.properties := [] |};
       Batch.inflight := []; Batch.sleeping := false |} in
  let plan := [(request_X, 0%nat); (request_Y, 1%nat)] in
  let st2 :=
    settle_all 9 (length plan) (foldl (Batch.launch 5) st (fst <$> plan)) in
  Batch.heap st2 !! 0%nat
  = Batch.finish 9 (f request_X)
      <$> (Batch.mark_processing 5 <$> Batch.heap st !! 0%nat) /\
  Batch.heap st2 !! 1%nat
  = Batch.finish 9 (f request_Y)
      <$> (Batch.mark_processing 5 <$> Batch.heap st !! 1%nat).
Proof.
  intros f st plan.
  assert (forall r, Batch.call (Batch.processRequest st) r = f r) as Hcall
    by done.
  assert (Forall (fun p => Map_get (Batch.id (fst p)) (Batch.results st)
                           = Some (snd p)) plan) as Hplan
    by (by repeat constructor).
  assert (NoDup (snd <$> plan)) as Hrefs
    by (apply (bool_decide_unpack _); vm_compute; exact I).
  split.
  - apply (batch_items_isolated f 5 9 plan st Hcall eq_refl Hplan Hrefs
             request_X 0%nat).
    apply elem_of_cons. by left.
  - apply (batch_items_isolated f 5 9 plan st Hcall eq_refl Hplan Hrefs
             request_Y 1%nat).
    apply elem_of_cons. right. apply elem_of_cons. by left.
Defined.

(** ** Metrics collector *)

Section metrics_facts.

Lemma record_window (acc : list Metrics.GenerationMetrics)
  (metric : Metrics.GenerationMetrics) :
  let M := Z.to_nat Metrics.maxMetrics in
  Metrics.record (drop (length acc - M) acc) metric
  = drop (length (acc ++ [metric]) - M) (acc ++ [metric]).
Proof.
  intros M. unfold Metrics.record.
  assert (Z.of_nat M = Metrics.maxMetrics /\ (1 <= M)%nat) as [HM HM1]
    by (unfold M, Metrics.maxMetrics; lia).
  rewrite !length_app, length_drop. cbn [length].
  destruct (Z.of_nat (length acc - (length acc - M) + 1) >? Metrics.maxMetrics)
    eqn:Hfull.
  - rewrite Z.gtb_ltb in Hfull. apply Z.ltb_lt in Hfull.
    replace (Z.to_nat (Z.of_nat (length acc - (length acc - M) + 1)
                       - Metrics.maxMetrics)) with 1%nat by lia.
    rewrite drop_app_le by (rewrite length_drop; lia).
    rewrite drop_drop.
    replace (length acc + 1 - M)%nat with (length acc - M + 1)%nat by lia.
    by rewrite drop_app_le by lia.
  - rewrite Z.gtb_ltb in Hfull. apply Z.ltb_ge in Hfull.
    replace (length acc - M)%nat with 0%nat by lia.
    by replace (length acc + 1 - M)%nat with 0%nat by lia.
Qed.

(** X18.  The collector keeps the most recent metrics, at most
    [maxMetrics = 10000] of them and in the order of recording: after
    any sequence of [record] calls on a fresh collector, [getMetrics]
    returns the sequence without its first [length - 10000] elements. *)
Theorem record_keeps_most_recent (ms : list Metrics.GenerationMetrics) :
  let stored := Metrics.getMetrics (foldl Metrics.record [] ms) in
  stored = drop (length ms - Z.to_nat Metrics.maxMetrics) ms /\
  Z.of_nat (length stored) <= Metrics.maxMetrics.
Proof.
  assert (forall acc,
            foldl Metrics.record
              (drop (length acc - Z.to_nat Metrics.maxMetrics) acc) ms
            = drop (length (acc ++ ms) - Z.to_nat Metrics.maxMetrics)
                (acc ++ ms)) as Hall.
  { induction ms as [|m ms IH]; intros acc.
    - by rewrite app_nil_r.
    - change (foldl Metrics.record ?a (m :: ms))
        with (foldl Metrics.record (Metrics.record a m) ms).
      rewrite record_window, IH. by rewrite <- app_assoc. }
  intros stored. unfold stored, Metrics.getMetrics.
  specialize (Hall []). rewrite drop_nil in Hall. cbn [app] in Hall.
  rewrite Hall. split; [done|].
  rewrite length_drop. unfold Metrics.maxMetrics. lia.
Qed.

Lemma existsb_eqb_elem_of (e : string) (l : list string) :
  existsb (String.eqb e) l = true <-> e ∈ l.
Proof.
  rewrite existsb_exists. split.
  - intros (x & Hx & Heq). apply String.eqb_eq in Heq as ->.
    by apply list_elem_of_In.
  - intros He. exists e. split; [by apply list_elem_of_In|].
    apply String.eqb_refl.
Qed.

Lemma tally_for_succ (e : string) (c : Z) (t : gmap string Metrics.tally) :
  e <> ""%string -> 0 <= c ->
  t !! e = tally_for e c ->
  Metrics.bump t e !! e = tally_for e (c + 1).
Proof.
  intros He Hc Ht. unfold Metrics.bump, tally_for in *. rewrite Ht.
  replace (c + 1 =? 0) with false by (symmetry; apply Z.eqb_neq; lia).
  destruct (c =? 0) eqn:Hc0.
  - apply Z.eqb_eq in Hc0 as ->.
    destruct (String.eqb e "__proto__"); [done|].
    destruct (existsb _ _); by rewrite lookup_insert_eq.
  - apply Z.eqb_neq in Hc0.
    destruct (String.eqb e "__proto__") eqn:Hproto.
    + done.
    + destruct (existsb _ _); rewrite lookup_insert_eq; do 2 f_equal; lia.
Qed.

Lemma bump_other (e e' : string) (t : gmap string Metrics.tally) :
  e' <> e -> Metrics.bump t e' !! e = t !! e.
Proof.
  intros Hne. unfold Metrics.bump.
  destruct (t !! e') as [[n|ones]|].
  - by rewrite lookup_insert_ne.
  - by rewrite lookup_insert_ne.
  - destruct (String.eqb e' "__proto__"); [done|].
    destruct (existsb _ _); by rewrite lookup_insert_ne.
Qed.

Lemma count_errors_cons e m ms :
  count_errors e (m :: ms)
  = (if bool_decide (Metrics.error m = Some e) then 1 else 0)
    + count_errors e ms.
Proof.
  unfold count_errors. simpl.
  destruct (bool_decide _); simpl; lia.
Qed.

Lemma count_errors_nonneg e ms : 0 <= count_errors e ms.
Proof. unfold count_errors. lia. Qed.

Lemma errorTypes_lookup (e : string) (ms : list Metrics.GenerationMetrics) :
  e <> ""%string ->
  forall (t : gmap string Metrics.tally) (c : Z),
    0 <= c -> t !! e = tally_for e c ->
    foldl Metrics.count_error t ms !! e = tally_for e (c + count_errors e ms).
Proof.
  intros He. induction ms as [|m ms IH]; intros t c Hc Ht.
  - unfold count_errors. simpl. by rewrite Z.add_0_r.
  - change (foldl Metrics.count_error t (m :: ms))
      with (foldl Metrics.count_error (Metrics.count_error t m) ms).
    rewrite count_errors_cons. unfold Metrics.count_error.
    destruct (Metrics.error m) as [e'|] eqn:Herr.
    + destruct (decide (e' = e)) as [->|Hne].
      * rewrite bool_decide_eq_true_2 by done.
        rewrite (proj2 (String.eqb_neq e "") He).
        rewrite Z.add_assoc. apply IH; [lia|]. by apply tally_for_succ.
      * rewrite bool_decide_eq_false_2 by congruence. rewrite Z.add_0_l.
        destruct (String.eqb e' ""); [by apply IH|].
        apply IH; [done|]. by rewrite bump_other.
    + rewrite bool_decide_eq_false_2 by done. rewrite Z.add_0_l. by apply IH.
Qed.

(** X19.  In the report of [getAggregatedMetrics], [errorTypes] maps
    every error text that is non-empty and does not name a member of
    [Object.prototype] to the number of metrics of the window that
    carry it, and has no entry for a text that no metric of the window
    carries. *)
Theorem errorTypes_counts_each_error
  (timeWindowMs now : Z) (metrics : list Metrics.GenerationMetrics)
  (e : string) :
  e <> ""%string ->
  e ∉ Metrics.Object_prototype_members ->
  let report := Metrics.getAggregatedMetrics timeWindowMs now metrics in
  let n := count_errors e (recent timeWindowMs now metrics) in
  Metrics.errorTypes report !! e
  = (if n =? 0 then None else Some (Metrics.Count n)).
Proof.
  intros He Hmember report n. unfold report, Metrics.getAggregatedMetrics.
  cbn [Metrics.errorTypes]. fold (recent timeWindowMs now metrics).
  rewrite (errorTypes_lookup e _ He ∅ 0); [|done|done].
  rewrite Z.add_0_l. fold n. unfold tally_for.
  destruct (n =? 0); [done|].
  assert (existsb (String.eqb e) Metrics.Object_prototype_members = false)
    as Hnot.
  { apply not_true_iff_false. by rewrite existsb_eqb_elem_of. }
  rewrite Hnot.
  destruct (String.eqb e "__proto__") eqn:Hproto; [|done].
  apply String.eqb_eq in Hproto as ->. by vm_compute in Hnot.
Qed.

(** X20.  An error text that names a member of [Object.prototype] is
    not counted: for [__proto__] the report has no entry at all, and
    for any other member ([constructor], [toString], ...) the entry is
    not a number but the text of the inherited member with one [1]
    appended per occurrence. *)
Theorem errorTypes_miscounts_object_members
  (timeWindowMs now : Z) (metrics : list Metrics.GenerationMetrics)
  (e : string) :
  e ∈ Metrics.Object_prototype_members ->
  let report := Metrics.getAggregatedMetrics timeWindowMs now metrics in
  let n := count_errors e (recent timeWindowMs now metrics) in
  Metrics.errorTypes report !! e
  = (if (n =? 0) || String.eqb e "__proto__" then None
     else Some (Metrics.Garbled (Z.to_nat n))).
Proof.
  intros Hmember report n. unfold report, Metrics.getAggregatedMetrics.
  cbn [Metrics.errorTypes]. fold (recent timeWindowMs now metrics).
  assert (e <> ""%string) as He.
  { intros ->. apply existsb_eqb_elem_of in Hmember. by vm_compute in Hmember. }
  rewrite (errorTypes_lookup e _ He ∅ 0); [|done|done].
  rewrite Z.add_0_l. fold n. unfold tally_for.
  destruct (n =? 0); [done|]. cbn [orb].
  destruct (String.eqb e "__proto__"); [done|].
  by rewrite (proj2 (existsb_eqb_elem_of _ _) Hmember).
Qed.

Lemma List_filter_length_le {A} (f : A -> bool) (l : list A) :
  (length (List.filter f l) <= length l)%nat.
Proof. induction l as [|x l IH]; simpl; [done|]. destruct (f x); simpl; lia. Qed.

Lemma List_filter_split {A} (f : A -> bool) (l : list A) :
  (length (List.filter f l) + length (List.filter (fun x => negb (f x)) l)
   = length l)%nat.
Proof. induction l as [|x l IH]; simpl; [done|]. destruct (f x); simpl; lia. Qed.

Lemma foldl_sum_bounds (lo hi : Z) (l : list Z) :
  Forall (fun x => lo <= x <= hi) l ->
  forall acc,
    acc + lo * Z.of_nat (length l)
    <= foldl (fun sum lat => sum + lat) acc l
    <= acc + hi * Z.of_nat (length l).
Proof.
  induction 1 as [|x l Hx Hl IH]; intros acc; simpl; [lia|].
  specialize (IH (acc + x)). nia.
Qed.

(** X21.  The counts of the report are those of the window: the
    successful and the failed requests are the metrics of the window
    with [success] set and unset, they add up to [totalRequests], which
    is at most the number of stored metrics; and the average latency
    lies between any two bounds that hold for the latency of every
    metric of the window, and is 0 for an empty window. *)
Theorem aggregated_counts_and_latency
  (timeWindowMs now lo hi : Z) (metrics : list Metrics.GenerationMetrics) :
  Forall (fun m => lo <= Metrics.responseTime m - Metrics.requestTime m <= hi)
    (recent timeWindowMs now metrics) ->
  let report := Metrics.getAggregatedMetrics timeWindowMs now metrics in
  let window := recent timeWindowMs now metrics in
  Metrics.totalRequests report = Z.of_nat (length window) /\
  Metrics.totalRequests report <= Z.of_nat (length metrics) /\
  Metrics.successfulRequests report
  = Z.of_nat (length (List.filter Metrics.success window)) /\
  Metrics.failedRequests report
  = Z.of_nat (length (List.filter (fun m => negb (Metrics.success m)) window)) /\
  (window = [] -> Metrics.averageLatency report = 0%Q) /\
  (window <> [] ->
   (inject_Z lo <= Metrics.averageLatency report <= inject_Z hi)%Q).
Proof.
  intros Hlat report window. unfold report, Metrics.getAggregatedMetrics.
  fold (recent timeWindowMs now metrics). fold window.
  cbn [Metrics.totalRequests Metrics.successfulRequests
       Metrics.failedRequests Metrics.averageLatency].
  split; [done|]. split.
  { unfold window, recent. pose proof (List_filter_length_le
      (fun m => Metrics.requestTime m >=? now - timeWindowMs) metrics). lia. }
  split; [done|]. split.
  { pose proof (List_filter_split Metrics.success window). lia. }
  rewrite length_fmap. split.
  - by intros ->.
  - intros Hne.
    assert (0 < Z.of_nat (length window)) as Hpos
      by (destruct window; [done|simpl; lia]).
    replace (Z.of_nat (length window) >? 0) with true
      by (symmetry; rewrite Z.gtb_ltb; by apply Z.ltb_lt).
    pose proof (foldl_sum_bounds lo hi
                  ((fun m => Metrics.responseTime m - Metrics.requestTime m)
                     <$> window)
                  ltac:(by apply Forall_fmap) 0) as Hsum.
    rewrite length_fmap in Hsum.
    set (total := foldl _ 0 _) in *.
    set (n := Z.of_nat (length window)) in *.
    assert (0 < inject_Z n)%Q as Hn by (rewrite <- (Zlt_Qlt 0); lia).
    split.
    + apply Qle_shift_div_l; [done|]. rewrite <- inject_Z_mult.
      rewrite <- Zle_Qle. lia.
    + apply Qle_shift_div_r; [done|]. rewrite <- inject_Z_mult.
      rewrite <- Zle_Qle. lia.
Qed.

End metrics_facts.

Lemma errorTypes_counts_each_error_witness :
  let metrics :=
    [{| Metrics.requestTime := 10; Metrics.responseTime := 15;
        Metrics.success := false; Metrics.tokensUsed := 0;
        Metrics.error := Some "Unknown error"%string |};
     {| Metrics.requestTime := 20; Metrics.responseTime := 22;
        Metrics.success := true; Metrics.tokensUsed := 7;
        Metrics.error := None |};
     {| Metrics.requestTime := 30; Metrics.responseTime := 31;
        Metrics.success := false; Metrics.tokensUsed := 0;
        Metrics.error := Some "Unknown error"%string |}] in
  let report := Metrics.getAggregatedMetrics 100 40 metrics in
  let n := count_errors "Unknown error" (recent 100 40 metrics) in
  Metrics.errorTypes report !! "Unknown error"%string
  = (if n =? 0 then None else Some (Metrics.Count n)).
Proof.
  intros metrics.
  apply (errorTypes_counts_each_error 100 40 metrics "Unknown error").
  - discriminate.
  - intros Hin. apply existsb_eqb_elem_of in Hin. by vm_compute in Hin.
Defined.

Lemma errorTypes_miscounts_object_members_witness :
  let metrics :=
    [{| Metrics.requestTime := 10; Metrics.responseTime := 15;
        Metrics.success := false; Metrics.tokensUsed := 0;
        Metrics.error := Some "constructor"%string |}] in
  let report := Metrics.getAggregatedMetrics 100 40 metrics in
  let n := count_errors "constructor" (recent 100 40 metrics) in
  Metrics.errorTypes report !! "constructor"%string
  = (if (n =? 0) || String.eqb "constructor" "__proto__" then None
     else Some (Metrics.Garbled (Z.to_nat n))).
Proof.
  intros metrics.
  apply (errorTypes_miscounts_object_members 100 40 metrics "constructor").
  apply existsb_eqb_elem_of. reflexivity.
Defined.

Lemma aggregated_counts_and_latency_witness :
  let metrics :=
    [{| Metrics.requestTime := 10; Metrics.responseTime := 15;
        Metrics.success := false; Metrics.tokensUsed := 0;
        Metrics.error := Some "Unknown error"%string |};
     {| Metrics.requestTime := 20; Metrics.responseTime := 22;
        Metrics.success := true; Metrics.tokensUsed := 7;
        Metrics.error := None |}] in
  let report := Metrics.getAggregatedMetrics 100 40 metrics in
  let window := recent 100 40 metrics in
  Metrics.totalRequests report = Z.of_nat (length window) /\
  Metrics.totalRequests report <= Z.of_nat (length metrics) /\
  Metrics.successfulRequests report
  = Z.of_nat (length (List.filter Metrics.success window)) /\
  Metrics.failedRequests report
  = Z.of_nat (length (List.filter (fun m => negb (Metrics.success m)) window)) /\
  (window = [] -> Metrics.averageLatency report = 0%Q) /\
  (window <> [] ->
   (inject_Z 2 <= Metrics.averageLatency report <= inject_Z 5)%Q).
Proof.
  intros metrics.
  apply (aggregated_counts_and_latency 100 40 2 5 metrics).
  repeat constructor; simpl; lia.
Defined.

(** ** Multi-provider manager *)

Section multi_provider_facts.

Context {AIProvider : Type}.
Variable providers : list (@MultiProvider.entry AIProvider).

Local Abbreviation getProvider := (MultiProvider.getProvider providers).
Local Abbreviation weight := (@MultiProvider.weight AIProvider).
Local Abbreviation provider := (@MultiProvider.provider AIProvider).

Lemma provider_at_in_range (i : Z) :
  0 <= i < Z.of_nat (length providers) ->
  exists p, p ∈ providers /\
            MultiProvider.provider_at providers i = Normal (provider p).
Proof.
  intros Hi. unfold MultiProvider.provider_at.
  replace (i <? 0) with false by (symmetry; apply Z.ltb_ge; lia).
  destruct (lookup_lt_is_Some_2 providers (Z.to_nat i) ltac:(lia)) as [p Hp].
  rewrite Hp. exists p. split; [|done]. by eapply list_elem_of_lookup_2.
Qed.

Lemma weighted_loop_member (ps : list (@MultiProvider.entry AIProvider)) :
  forall x a,
    MultiProvider.weighted_loop x ps = Some a ->
    exists p, p ∈ ps /\ a = provider p.
Proof.
  induction ps as [|p ps IH]; intros x a; simpl; [done|].
  destruct (Qle_bool _ _).
  - intros [= <-]. exists p. split; [left|done].
  - intros Hrest. destruct (IH _ _ Hrest) as (q & Hq & ->).
    exists q. split; [by right|done].
Qed.

(** X22.  [getProvider] returns one of the configured providers,
    whichever strategy is asked for, for every value of
    [Math.random()] in [0, 1) and every clock value; a manager created
    without any provider raises a [TypeError] instead. *)
Theorem getProvider_returns_a_member
  (s : MultiProvider.strategy) (r : Q) (now : Z) :
  (0 <= r)%Q -> (r < 1)%Q -> 0 <= now ->
  match providers with
  | [] => getProvider s r now = Throw "TypeError"%string
  | _ :: _ =>
      exists p, p ∈ providers /\ getProvider s r now = Normal (provider p)
  end.
Proof.
  intros Hr0 Hr1 Hnow. destruct providers as [|p0 ps] eqn:Hps.
  - destruct s; try done. unfold MultiProvider.getProvider.
    unfold MultiProvider.provider_at.
    destruct (_ <? 0); [done|]. by rewrite lookup_nil.
  - rewrite <- Hps.
    assert (0 < Z.of_nat (length providers)) as Hlen
      by (rewrite Hps; simpl; lia).
    destruct s; unfold MultiProvider.getProvider.
    + apply provider_at_in_range.
      set (n := Z.of_nat (length providers)) in *.
      assert (0 < inject_Z n)%Q as Hn by (rewrite <- (Zlt_Qlt 0); lia).
      pose proof (Qfloor_le (r * inject_Z n)) as Hlo.
      pose proof (Qlt_floor (r * inject_Z n)) as Hhi.
      split.
      * apply (Qfloor_resp_le 0) in Hr0 as H0. simpl in H0.
        assert (0 <= r * inject_Z n)%Q as Hprod by nra.
        apply Qfloor_resp_le in Hprod. by simpl in Hprod.
      * apply Z.lt_nge. intros Hge. rewrite Zle_Qle in Hge. nra.
    + destruct (MultiProvider.weighted_loop _ _) as [a|] eqn:Hloop.
      * destruct (weighted_loop_member _ _ _ Hloop) as (p & Hp & ->).
        by exists p.
      * apply provider_at_in_range. lia.
    + rewrite bool_decide_eq_false_2 by (by rewrite Hps).
      apply provider_at_in_range.
      pose proof (Z.rem_bound_pos now (Z.of_nat (length providers))). lia.
    + apply provider_at_in_range. lia.
Qed.

End multi_provider_facts.

Lemma getProvider_returns_a_member_witness :
  let providers :=
    [{| MultiProvider.provider := "groq client"%string;
        MultiProvider.weight := 3; MultiProvider.type := "groq" |};
     {| MultiProvider.provider := "openai client"%string;
        MultiProvider.weight := 1; MultiProvider.type := "openai" |}] in
  exists p,
    p ∈ providers /\
    MultiProvider.getProvider providers MultiProvider.random (3 # 4) 7
    = Normal (MultiProvider.provider p).
Proof.
  intros providers.
  apply (getProvider_returns_a_member providers MultiProvider.random (3 # 4) 7).
  - unfold Qle. simpl. lia.
  - unfold Qlt. simpl. lia.
  - lia.
Defined.

(** ** [generateCompletion]: limiter, cache and retry together *)

Section provider_facts.

Variable name : string.
Variables (requestsPerMinute windowSizeMs : Z).
Variables (maxSize defaultTtl : Z).
Variable maxRetries : Z.
Variables (baseDelayMs maxDelayMs backoffMultiplier : Q).
Variable empty_response : Retry.thrown.

Local Abbreviation generateCompletion :=
  (Provider.generateCompletion name requestsPerMinute windowSizeMs
     maxSize defaultTtl maxRetries baseDelayMs maxDelayMs backoffMultiplier
     empty_response).
Local Abbreviation operation := (Provider.operation empty_response).

Lemma purge_suffix ws (l : list Z) :
  exists old, l = old ++ RateLimiter.purge ws l.
Proof.
  induction l as [|t l [old IH]]; simpl; [by exists []|].
  destruct (t <? ws); [|by exists []].
  exists (t :: old). simpl. by rewrite <- IH.
Qed.

(** The request log after the admission check of a call: what the
    check and the wait purge is a prefix of the log. *)
Lemma admission_frame (t1 t2 : Z) (requests : list Z) :
  exists old,
    requests
    = old ++
      snd (let '(allowed, requests1) :=
             RateLimiter.isAllowed requestsPerMinute windowSizeMs t1 requests in
           if allowed then (0, requests1)
           else RateLimiter.waitForSlot requestsPerMinute windowSizeMs t2
                  requests1).
Proof.
  unfold RateLimiter.isAllowed.
  destruct (purge_suffix (t1 - windowSizeMs) requests) as [old1 H1].
  destruct (_ <? _); [by exists old1|].
  unfold RateLimiter.waitForSlot, RateLimiter.getRateLimitInfo.
  cbn [RateLimiter.retryAfter RateLimiter.remaining].
  destruct (purge_suffix (t2 - windowSizeMs)
              (RateLimiter.purge (t1 - windowSizeMs) requests)) as [old2 H2].
  exists (old1 ++ old2). rewrite <- app_assoc.
  set (kept := RateLimiter.purge (t2 - windowSizeMs) _) in *.
  rewrite H2 in H1.
  destruct (Z.max 0 _ =? 0); cbn [andb snd]; [|done].
  by destruct (negb _).
Qed.

(** [retry] returns for every bound, and a value it returns is the
    value that some invocation of the operation returned. *)
Lemma retry_total {T} (op : nat -> completion T Retry.thrown)
  (random : nat -> Q) :
  exists r,
    Retry.retry maxRetries baseDelayMs maxDelayMs backoffMultiplier op random
    = Some r /\
    Z.of_nat (Retry.invocations r) <= Z.max 0 (maxRetries + 1) /\
    forall v, Retry.outcome r = Normal v ->
      (0 < Retry.invocations r)%nat /\
      op (pred (Retry.invocations r)) = Normal v.
Proof.
  destruct (decide (0 <= maxRetries)) as [Hmax|Hneg].
  - unfold Retry.retry.
    destruct (retry_loop_spec maxRetries baseDelayMs maxDelayMs
                backoffMultiplier op random
                (S (Z.to_nat (maxRetries + 1))) 1 0%nat None [])
      as (r & Hr & Hcalls & Hbound & Hout & _); [lia|lia|lia|].
    exists r. split; [done|]. split; [lia|].
    intros v Hv. split; [lia|]. by rewrite <- Hout.
  - unfold Retry.retry. cbn [Retry.retry_loop].
    replace (1 <=? maxRetries + 1) with false
      by (symmetry; apply Z.leb_gt; lia).
    eexists. split; [done|]. cbn. split; [lia|]. done.
Qed.

Lemma operation_truthy client n v :
  operation client n = Normal v -> Provider.ToBoolean v = true /\
  exists content, v = VStr content.
Proof.
  unfold Provider.operation.
  destruct (client n) as [[content|]|e]; try done.
  destruct (String.eqb content "") eqn:E; [done|].
  intros [= <-]. simpl. rewrite E. eauto.
Qed.

(** X24.  A cached completion is served without calling the client:
    when the global cache holds an unexpired, truthy value under the
    key of the call, [generateCompletion] returns that value, invokes
    the client not once, records no request in the rate limiter, and
    refreshes the time stamp of the entry. *)
Theorem cached_completion_skips_client
  (prompt : string) (options : list (string * value)) (clk : Provider.clock)
  (client : nat -> completion (option string) Retry.thrown)
  (random : nat -> Q) (st : Provider.state) (e : Cache.CacheEntry) :
  Map_get (Cache.generateCacheKey name prompt options)
    (Cache.cache (Provider.cache st)) = Some e ->
  Cache.isExpired (Provider.at_get clk) e = false ->
  Provider.ToBoolean (Cache.data e) = true ->
  exists tr st',
    generateCompletion prompt options clk client random st = Some (tr, st') /\
    Provider.outcome tr = Normal (Cache.data e) /\
    Provider.invocations tr = 0%nat /\
    (exists old, Provider.requests st = old ++ Provider.requests st') /\
    Map_get (Cache.generateCacheKey name prompt options)
      (Cache.cache (Provider.cache st'))
    = Some (Cache.touch (Provider.at_get clk) e).
Proof.
  intros Hget Hfresh Htruthy. unfold Provider.generateCompletion.
  destruct (admission_frame (Provider.at_isAllowed clk)
              (Provider.at_waitForSlot clk) (Provider.requests st))
    as [old Hold].
  destruct (RateLimiter.isAllowed _ _ _ _) as [allowed requests1].
  destruct (if allowed then _ else _) as [wait requests2].
  unfold Cache.get. rewrite Hget, Hfresh, Htruthy.
  eexists _, _. split; [done|]. cbn. split; [done|]. split; [done|].
  split; [by exists old|]. apply Map_get_set_eq.
Qed.


(** X26.  [generateCompletion] always finishes, after at most
    [maxRetries + 1] calls of the client; every call of the client is
    recorded in the rate limiter, after what the admission check kept
    of the log; a completion it returns is never empty; and a failure
    leaves the cache as the lookup left it. *)
Theorem generateCompletion_logs_every_call
  (prompt : string) (options : list (string * value)) (clk : Provider.clock)
  (client : nat -> completion (option string) Retry.thrown)
  (random : nat -> Q) (st : Provider.state) :
  exists tr st',
    generateCompletion prompt options clk client random st = Some (tr, st') /\
    Z.of_nat (Provider.invocations tr) <= Z.max 0 (maxRetries + 1) /\
    (exists old kept,
       Provider.requests st = old ++ kept /\
       Provider.requests st'
       = kept ++ (Provider.at_addRequest clk
                    <$> seq 0 (Provider.invocations tr))) /\
    (forall v, Provider.outcome tr = Normal v ->
               Provider.ToBoolean v = true) /\
    (forall e, Provider.outcome tr = Throw e ->
               Provider.cache st'
               = snd (Cache.get (Provider.at_get clk)
                        (Cache.generateCacheKey name prompt options)
                        (Provider.cache st))).
Proof.
  unfold Provider.generateCompletion.
  destruct (admission_frame (Provider.at_isAllowed clk)
              (Provider.at_waitForSlot clk) (Provider.requests st))
    as [old Hold].
  destruct (RateLimiter.isAllowed _ _ _ _) as [allowed requests1].
  destruct (if allowed then _ else _) as [wait requests2].
  cbn [snd] in Hold.
  destruct (Cache.get _ _ _) as [cached cache1].
  destruct (Provider.ToBoolean cached) eqn:Htruthy.
  - eexists _, _. split; [done|]. cbn. split; [lia|]. split.
    + exists old, requests2. by rewrite app_nil_r.
    + split; [by intros v [= <-]|done].
  - destruct (retry_total (operation client) random)
      as (r & -> & Hbound & Hnormal).
    destruct (Retry.outcome r) as [result|err] eqn:Hresult.
    + eexists _, _. split; [done|]. cbn. split; [done|]. split; [by eauto|].
      split; [|done]. intros v [= <-].
      destruct (Hnormal result eq_refl) as [_ Hop].
      by apply operation_truthy in Hop as [? _].
    + eexists _, _. split; [done|]. cbn. split; [done|]. split; [by eauto|].
      done.
Qed.

End provider_facts.

Lemma cached_completion_skips_client_witness :
  let key := Cache.generateCacheKey "groq" "Write a tweet about cats" [] in
  let e :=
    {| Cache.data := VStr "Cats rule."; Cache.timestamp := 5;
       Cache.ttl := 1000; Cache.key := key; Cache.size := 12 |} in
  let st :=
    {| Provider.requests := [1; 2];
       Provider.cache :=
         {| Cache.cache := [(key, e)]; Cache.currentSize := 12 |} |} in
  let clk :=
    {| Provider.at_isAllowed := 10; Provider.at_waitForSlot := 10;
       Provider.at_get := 10; Provider.at_addRequest := fun _ => 11;
       Provider.at_set := 12 |} in
  exists tr st',
    Provider.generateCompletion "groq" 60 60000 1000 3600000 3 1000 30000 2
      None "Write a tweet about cats" [] clk (fun _ => Normal None)
      (fun _ => 0%Q) st = Some (tr, st') /\
    Provider.outcome tr = Normal (Cache.data e) /\
    Provider.invocations tr = 0%nat /\
    (exists old, Provider.requests st = old ++ Provider.requests st') /\
    Map_get key (Cache.cache (Provider.cache st'))
    = Some (Cache.touch (Provider.at_get clk) e).
Proof.
  intros key e st clk.
  apply (cached_completion_skips_client "groq" 60 60000 1000 3600000 3 1000
           30000 2 None "Write a tweet about cats" [] clk
           (fun _ => Normal None) (fun _ => 0%Q) st e).
  - reflexivity.
  - reflexivity.
  - reflexivity.
Defined.


(** ** Syllable counting *)

Section content_facts.

Lemma toLowerCase_length (w : string) :
  String.length (Content.toLowerCase w) = String.length w.
Proof. induction w as [|c w IH]; simpl; [done|]. by rewrite IH. Qed.

Lemma toLowerCase_unit_idemp (c : ascii) :
  Content.toLowerCase_unit (Content.toLowerCase_unit c)
  = Content.toLowerCase_unit c.
Proof. destruct c as [[] [] [] [] [] [] [] []]; reflexivity. Qed.

Lemma toLowerCase_idemp (w : string) :
  Content.toLowerCase (Content.toLowerCase w) = Content.toLowerCase w.
Proof.
  induction w as [|c w IH]; simpl; [done|].
  by rewrite toLowerCase_unit_idemp, IH.
Qed.

(** Two vowel groups are separated by a consonant. *)
Lemma count_loop_bounds (w : string) : forall previousWasVowel syllables,
  syllables <= Content.count_loop previousWasVowel syllables w
  <= syllables
     + (Z.of_nat (String.length w) + (if previousWasVowel then 0 else 1)) / 2.
Proof.
  induction w as [|c w IH]; intros prev s.
  - simpl. destruct prev; simpl; Z.div_mod_to_equations; lia.
  - cbn [Content.count_loop String.length].
    destruct (Content.isVowel c), prev; cbn [andb negb];
      match goal with
      | |- context [Content.count_loop ?p ?x w] => specialize (IH p x)
      end; cbn iota in IH; Z.div_mod_to_equations; lia.
Qed.

(** X27.  [countSyllables] returns at least 1 and at most one
    syllable per two code units of the word (rounded up), returns 1
    for a word of at most three code units, and does not depend on the
    case of the letters. *)
Theorem countSyllables_bounds (word : string) :
  1 <= Content.countSyllables word
  <= Z.max 1 ((Z.of_nat (String.length word) + 1) / 2) /\
  ((String.length word <= 3)%nat -> Content.countSyllables word = 1) /\
  Content.countSyllables (Content.toLowerCase word)
  = Content.countSyllables word.
Proof.
  split; [|split].
  - unfold Content.countSyllables. rewrite toLowerCase_length.
    destruct (String.length word <=? 3)%nat; [Z.div_mod_to_equations; lia|].
    pose proof (count_loop_bounds (Content.toLowerCase word) false 0) as Hb.
    rewrite toLowerCase_length in Hb.
    destruct (Content.endsWith_e _); Z.div_mod_to_equations; lia.
  - intros Hshort. unfold Content.countSyllables. rewrite toLowerCase_length.
    by rewrite (proj2 (Nat.leb_le _ _) Hshort).
  - unfold Content.countSyllables. by rewrite toLowerCase_idemp.
Qed.

End content_facts.

(** The stable key on two enumerations of one option bag. *)
Lemma generateCacheKey_stable_witness :
  Cache.generateCacheKey "groq" "hi"
    [("temperature", VNum 1); ("topP", VNum 2)]%string
  = Cache.generateCacheKey "groq" "hi"
      [("topP", VNum 2); ("temperature", VNum 1)]%string.
Proof.
  apply generateCacheKey_stable.
  - apply (bool_decide_unpack _). vm_compute. exact I.
  - apply Permutation_swap.
Defined.

Lemma substring_length_le (n : nat) : forall s : string,
  (String.length (String.substring 0 n s) <= n)%nat.
Proof.
  induction n as [|n IH]; intros [|c s]; simpl; try lia.
  specialize (IH s). lia.
Qed.

Lemma string_of_list_ascii_length (l : list ascii) :
  String.length (string_of_list_ascii l) = length l.
Proof. induction l as [|c l IH]; simpl; [done|]. by rewrite IH. Qed.

(** X29.  A cache key is the text [ai:] followed by at most 32
    characters, and by exactly 32 as soon as provider name and prompt
    have 22 characters together. *)
Theorem generateCacheKey_shape
  (provider prompt : string) (options : list (string * value)) :
  exists hash,
    Cache.generateCacheKey provider prompt options = ("ai:" +:+ hash)%string /\
    (String.length hash <= 32)%nat /\
    ((22 <= String.length provider + String.length prompt)%nat ->
     String.length hash = 32%nat).
Proof.
  unfold Cache.generateCacheKey. eexists. split; [done|]. split.
  - apply substring_length_le.
  - intros Hlen. rewrite slice_btoa.
    + rewrite string_of_list_ascii_length.
      destruct (b64_encode_app 8
                  (take 24
                     (code_units
                        (provider +:+ ":" +:+ prompt +:+ ":" +:+
                         template
                           (JSON_stringify (VObj options)
                              (Some (sort string_cmp (Object_keys options)))))))
                  []) as [_ Hl]; [|exact Hl].
      rewrite length_take, !code_units_app, !length_app, !code_units_length.
      change (String.length ":") with 1%nat. lia.
    + rewrite <- code_units_length, !code_units_app, !length_app,
        !code_units_length. simpl. lia.
Qed.

(** ** Back-off delays, overflow included *)

Section backoff_facts.

Variables (baseDelayMs maxDelayMs backoffMultiplier : Q).

Local Abbreviation delay_of :=
  (Retry.calculateDelay baseDelayMs maxDelayMs backoffMultiplier).
Local Abbreviation double_delay_of :=
  (Double.calculateDelay baseDelayMs maxDelayMs backoffMultiplier).
Local Abbreviation jitter_of := (Retry.jitter baseDelayMs backoffMultiplier).





End backoff_facts.



(** Beyond the finite numbers the bound of C8 is lost for the draw 0:
    at the default configuration and attempt 1100 the power is an
    infinity, the jitter [0 * 0.1 * Infinity] is [NaN], and so is the
    delay; for any other draw the delay is [maxDelayMs]. *)
Lemma calculateDelay_overflow :
  Double.calculateDelay 1000 30000 2 0 1100 = Double.NaN /\
  Double.calculateDelay 1000 30000 2 (1 # 2) 1100 = Double.Finite 30000.
Proof. split; by vm_compute. Qed.

(** ** Cache: the round trip of a value *)

Section roundtrip_more.

Variables (maxSize defaultTtl : Z).
Variables (k : string) (e0 : Cache.CacheEntry).





End roundtrip_more.



(** ** Cache: what is evicted, and when *)

Section eviction_more.

Variables (maxSize defaultTtl : Z).

Lemma exec_all_bound ops : forall st,
  cache_bound maxSize st ->
  cache_bound maxSize (exec_all maxSize defaultTtl ops st).
Proof.
  induction ops as [|o ops IH]; intros st Hst; simpl; [done|].
  by apply IH, exec_bound.
Qed.

Lemma createCache_bound : cache_bound maxSize Cache.createCache.
Proof.
  unfold cache_bound, Map_wf. simpl.
  split; [apply NoDup_nil_2|]. split; [done|]. split; [done|]. right. lia.
Qed.

Section one_key.

Variable k : string.

Lemma Map_get_delete_Some {V} k' (m : list (string * V)) e :
  Map_wf m -> Map_get k (Map_delete k' m) = Some e -> Map_get k m = Some e.
Proof.
  intros Hwf. destruct (decide (k' = k)) as [->|Hne].
  - by rewrite Map_get_delete_eq.
  - by rewrite Map_get_delete_ne.
Qed.

Lemma cleanup_get_Some now st e :
  Map_wf (Cache.cache st) ->
  Map_get k (Cache.cache (Cache.cleanup now st)) = Some e ->
  Map_get k (Cache.cache st) = Some e.
Proof.
  intros Hwf. rewrite (proj1 (cleanup_spec now st Hwf)).
  intros Hget. by apply Map_get_filter in Hget as [? _].
Qed.

Lemma evict_while_get_Some fuel sz e : forall st,
  Map_wf (Cache.cache st) ->
  Map_get k (Cache.cache (Cache.evict_while maxSize fuel sz st)) = Some e ->
  Map_get k (Cache.cache st) = Some e.
Proof.
  induction fuel as [|fuel IH]; intros st Hwf; simpl; [done|].
  destruct (Cache.over_capacity _ _ _); [|done].
  intros Hget. unfold Cache.evictLRU in Hget.
  destruct (head _) as [[k' e']|]; [|by apply IH].
  apply IH in Hget; [|by apply Map_delete_wf].
  by apply Map_get_delete_Some in Hget.
Qed.

(** The time stamp of a stored entry is the time of the last access
    to its key: one operation. *)
Lemma exec_last_access st o (last : option Z) :
  Map_wf (Cache.cache st) ->
  (forall e, Map_get k (Cache.cache st) = Some e ->
             last = Some (Cache.timestamp e)) ->
  forall e,
    Map_get k (Cache.cache (exec maxSize defaultTtl st o)) = Some e ->
    match accesses k st o with
    | Some t => Some t
    | None => last
    end = Some (Cache.timestamp e).
Proof.
  intros Hwf Hlast e.
  destruct o as [now k'|now k' d ttl_arg|k'| |now]; simpl.
  - unfold Cache.get, hits.
    destruct (String.eqb_spec k' k) as [->|Hne]; cbn [andb].
    + destruct (Map_get k (Cache.cache st)) as [e1|] eqn:Hget;
        [|simpl; rewrite Hget; auto].
      destruct (Cache.isExpired now e1); simpl.
      * by rewrite Map_get_delete_eq.
      * rewrite Map_get_set_eq. by intros [= <-].
    + destruct (Map_get k' (Cache.cache st)) as [e1|]; [|by auto].
      destruct (Cache.isExpired now e1); simpl.
      * rewrite Map_get_delete_ne by done. auto.
      * rewrite Map_get_set_ne by done. auto.
  - unfold Cache.set.
    destruct (JSON_stringify d None) as [text|] eqn:Htext; simpl.
    + destruct (String.eqb_spec k' k) as [->|Hne]; cbn [andb].
      * rewrite Map_get_set_eq. by intros [= <-].
      * rewrite Map_get_set_ne by done. intros Hget.
        apply evict_while_get_Some in Hget; [|by apply cleanup_loop_wf].
        apply cleanup_get_Some in Hget; auto.
    + rewrite andb_false_r. intros Hget.
      apply cleanup_get_Some in Hget; auto.
  - unfold Cache.del.
    destruct (Map_get k' (Cache.cache st)) as [e1|]; [|by auto].
    simpl. intros Hget. apply Map_get_delete_Some in Hget; auto.
  - done.
  - intros Hget. apply cleanup_get_Some in Hget; auto.
Qed.

Lemma last_access_spec ops : forall st (last : option Z),
  cache_bound maxSize st ->
  (forall e, Map_get k (Cache.cache st) = Some e ->
             last = Some (Cache.timestamp e)) ->
  forall e,
    Map_get k (Cache.cache (exec_all maxSize defaultTtl ops st)) = Some e ->
    last_access maxSize defaultTtl k ops st last = Some (Cache.timestamp e).
Proof.
  induction ops as [|o ops IH]; intros st last Hst Hlast e; simpl; [by auto|].
  apply IH; [by apply exec_bound|].
  apply exec_last_access; [apply Hst|done].
Qed.

End one_key.

(** What [set] evicts from a state with distinct keys whose counter is
    not below the stored total. *)
Lemma make_room_order st now sz :
  cache_bound maxSize st ->
  let st1 := Cache.cleanup now st in
  let st2 := Cache.make_room maxSize now sz st in
  let sorted := sort Cache.by_timestamp (Cache.cache st1) in
  exists n,
    Cache.cache st2 = delete_all (take n sorted) (Cache.cache st1) /\
    (forall v s, v ∈ take n sorted -> s ∈ Cache.cache st2 ->
                 Cache.timestamp (snd v) <= Cache.timestamp (snd s)) /\
    (forall j, (j < n)%nat ->
               maxSize <
               Cache.currentSize st1 - live_size (take j sorted) + sz) /\
    (live_size (Cache.cache st2) + sz <= maxSize \/ Cache.cache st2 = []) /\
    (Cache.currentSize st = live_size (Cache.cache st) ->
     forall j, (j < n)%nat ->
               maxSize <
               live_size (Cache.cache st1) - live_size (take j sorted) + sz).
Proof.
  intros Hst st1 st2 sorted.
  pose proof (cleanup_bound maxSize now st Hst) as Hst1. fold st1 in Hst1.
  pose proof Hst1 as (Hwf & _).
  destruct (evict_while_spec maxSize (length (Cache.cache st1)) sz st1 Hwf)
    as (n & Hc & Hs & Hd & Hneed).
  simpl in Hc, Hs, Hd, Hneed.
  change (Cache.evict_while maxSize (length (Cache.cache st1)) sz st1)
    with st2 in Hc, Hs, Hd.
  fold sorted in Hc, Hs, Hd, Hneed.
  exists n. split; [done|]. split; [|split; [done|split]].
  - intros v s Hv Hs'.
    apply (sort_elem_of Cache.by_timestamp) in Hs'. rewrite Hd in Hs'.
    pose proof (sort_sorted Cache.by_timestamp by_timestamp_total
                  by_timestamp_trans (Cache.cache st1)) as Hsorted.
    fold sorted in Hsorted. rewrite <- (take_drop n sorted) in Hsorted.
    pose proof (StronglySorted_app_1_elem_of _ _ _ _ _ Hsorted Hv Hs') as H.
    unfold Cache.by_timestamp in H. lia.
  - pose proof (evict_while_bound maxSize (length (Cache.cache st1)) sz st1
                  Hst1) as (_ & Hacc2 & _).
    pose proof (evict_while_stops maxSize (length (Cache.cache st1)) sz st1
                  Hwf ltac:(done)) as Hexit.
    change (Cache.evict_while maxSize (length (Cache.cache st1)) sz st1)
      with st2 in Hacc2, Hexit.
    unfold Cache.over_capacity in Hexit.
    apply andb_false_iff in Hexit as [Hfit|Hempty].
    + left. rewrite Z.gtb_ltb in Hfit. apply Z.ltb_ge in Hfit. lia.
    + right. rewrite Z.gtb_ltb in Hempty. apply Z.ltb_ge in Hempty.
      destruct (Cache.cache st2); [done|simpl in Hempty; lia].
  - intros Hexact j Hj. specialize (Hneed j Hj).
    destruct Hst as (Hwf0 & _).
    destruct (cleanup_spec now st Hwf0) as [Hc1 Hs1].
    fold st1 in Hc1, Hs1. rewrite <- Hc1 in Hs1. lia.
Qed.

End eviction_more.

(** C6 (as amended).  [set] evicts in order of last access, oldest
    first, while the stored total does not leave room for the new
    entry; it stops as soon as the entry fits or nothing is left.
    In four parts.  (1) In every state that a run of operations reaches
    from the empty cache, the time stamp of a stored entry is the time
    of the last access to its key: the last [set] that stored it or
    [get] that found it.  (2) In every such state, for every new entry
    size [sz]: the entries that [set] evicts form a prefix
    [take n sorted] of the swept entries sorted by time stamp; each
    evicted entry is at most as recent as each survivor; an entry is
    evicted only while the size counter plus [sz] still exceeds
    [maxSize]; afterwards the stored total plus [sz] is within
    [maxSize] or nothing is left; and whenever the counter equals the
    stored total, an entry is evicted only while the stored total plus
    [sz] exceeds [maxSize].  (3) The scenario: with [maxSize = 100],
    three values of 40 JSON characters, their numbers safe integers,
    set under distinct keys at times [t1 <= t2 <= t3], nothing having
    expired, leave exactly the second and the third entry; the first
    key reads as absent, the other two read back their values.
    (4) The same scenario with a [get] of the first key between the
    second and the third [set], later than the second [set]: now the
    second entry is evicted, and the first and the third remain. *)
Theorem lru_eviction_order :
  (forall maxSize defaultTtl ops k e,
     Map_get k (Cache.cache (exec_all maxSize defaultTtl ops Cache.createCache))
       = Some e ->
     last_access maxSize defaultTtl k ops Cache.createCache None
       = Some (Cache.timestamp e)) /\
  (forall maxSize defaultTtl ops now sz,
     let st := exec_all maxSize defaultTtl ops Cache.createCache in
     let st1 := Cache.cleanup now st in
     let st2 := Cache.make_room maxSize now sz st in
     let sorted := sort Cache.by_timestamp (Cache.cache st1) in
     exists n,
       Cache.cache st2 = delete_all (take n sorted) (Cache.cache st1) /\
       (forall v s, v ∈ take n sorted -> s ∈ Cache.cache st2 ->
                    Cache.timestamp (snd v) <= Cache.timestamp (snd s)) /\
       (forall j, (j < n)%nat ->
                  maxSize <
                  Cache.currentSize st1 - live_size (take j sorted) + sz) /\
       (live_size (Cache.cache st2) + sz <= maxSize \/ Cache.cache st2 = []) /\
       (Cache.currentSize st = live_size (Cache.cache st) ->
        forall j, (j < n)%nat ->
                  maxSize <
                  live_size (Cache.cache st1) - live_size (take j sorted) + sz)) /\
  (forall defaultTtl ttl_arg k1 k2 k3 v1 v2 v3 x1 x2 x3 t1 t2 t3 t,
     k1 <> k2 -> k1 <> k3 -> k2 <> k3 ->
     safe_integers v1 = true -> safe_integers v2 = true ->
     safe_integers v3 = true ->
     JSON_stringify v1 None = Some x1 -> String.length x1 = 40%nat ->
     JSON_stringify v2 None = Some x2 -> String.length x2 = 40%nat ->
     JSON_stringify v3 None = Some x3 -> String.length x3 = 40%nat ->
     t1 <= t2 -> t2 <= t3 -> t3 <= t ->
     t <= t1 + default defaultTtl ttl_arg ->
     let st2 :=
       exec_all 100 defaultTtl
         [OpSet t1 k1 v1 ttl_arg; OpSet t2 k2 v2 ttl_arg] Cache.createCache in
     let st3 := exec 100 defaultTtl st2 (OpSet t3 k3 v3 ttl_arg) in
     fst <$> Cache.cache st2 = [k1; k2] /\
     fst <$> Cache.cache st3 = [k2; k3] /\
     fst (Cache.get t k1 st3) = VUndefined /\
     fst (Cache.get t k2 st3) = v2 /\
     fst (Cache.get t k3 st3) = v3) /\
  (forall defaultTtl ttl_arg k1 k2 k3 v1 v2 v3 x1 x2 x3 t1 t2 tr t3 t,
     k1 <> k2 -> k1 <> k3 -> k2 <> k3 ->
     safe_integers v1 = true -> safe_integers v2 = true ->
     safe_integers v3 = true ->
     JSON_stringify v1 None = Some x1 -> String.length x1 = 40%nat ->
     JSON_stringify v2 None = Some x2 -> String.length x2 = 40%nat ->
     JSON_stringify v3 None = Some x3 -> String.length x3 = 40%nat ->
     t1 <= t2 -> t2 < tr -> tr <= t3 -> t3 <= t ->
     t <= t1 + default defaultTtl ttl_arg ->
     let st2 :=
       exec_all 100 defaultTtl
         [OpSet t1 k1 v1 ttl_arg; OpSet t2 k2 v2 ttl_arg] Cache.createCache in
     let read := Cache.get tr k1 st2 in
     let st3 := exec 100 defaultTtl (snd read) (OpSet t3 k3 v3 ttl_arg) in
     fst read = v1 /\
     fst <$> Cache.cache st3 = [k1; k3] /\
     fst (Cache.get t k1 st3) = v1 /\
     fst (Cache.get t k2 st3) = VUndefined /\
     fst (Cache.get t k3 st3) = v3).
Proof.
  split; [|split; [|split]].
  - intros maxSize defaultTtl ops k e.
    apply last_access_spec; [apply createCache_bound|done].
  - intros maxSize defaultTtl ops now sz.
    apply make_room_order, exec_all_bound, createCache_bound.
  - intros defaultTtl ttl_arg k1 k2 k3 v1 v2 v3 x1 x2 x3 t1 t2 t3 t
      H12 H13 H23 _ _ _ Hx1 Hl1 Hx2 Hl2 Hx3 Hl3 Ht12 Ht23 Ht3 Hlive.
    set (life := default defaultTtl ttl_arg) in *.
    set (e1 := {| Cache.data := v1; Cache.timestamp := t1; Cache.ttl := life;
                  Cache.key := k1; Cache.size := 40 |}).
    set (e2 := {| Cache.data := v2; Cache.timestamp := t2; Cache.ttl := life;
                  Cache.key := k2; Cache.size := 40 |}).
    set (e3 := {| Cache.data := v3; Cache.timestamp := t3; Cache.ttl := life;
                  Cache.key := k3; Cache.size := 40 |}).
    assert (snd (Cache.set 100 defaultTtl t1 k1 v1 ttl_arg Cache.createCache)
            = {| Cache.cache := [(k1, e1)]; Cache.currentSize := 40 |}) as E1.
    { rewrite (set_stores _ _ _ _ _ _ _ x1 Hx1), Hl1. reflexivity. }
    assert (snd (Cache.set 100 defaultTtl t2 k2 v2 ttl_arg
                   {| Cache.cache := [(k1, e1)]; Cache.currentSize := 40 |})
            = {| Cache.cache := [(k1, e1); (k2, e2)];
                 Cache.currentSize := 80 |}) as E2.
    { rewrite (set_stores _ _ _ _ _ _ _ x2 Hx2), Hl2.
      change (Z.of_nat 40) with 40.
      unfold Cache.make_room, Cache.cleanup.
      cbn [snd Cache.cache Cache.cleanup_loop Cache.timestamp Cache.ttl e1].
      settle_comparisons.
      cbn [length Cache.cache Cache.evict_while]. unfold Cache.over_capacity.
      cbn [length Cache.cache Cache.currentSize].
      settle_comparisons.
      cbn [andb Map_set Cache.cache Cache.currentSize]. settle_keys.
      reflexivity. }
    assert (snd (Cache.set 100 defaultTtl t3 k3 v3 ttl_arg
                   {| Cache.cache := [(k1, e1); (k2, e2)];
                      Cache.currentSize := 80 |})
            = {| Cache.cache := [(k2, e2); (k3, e3)];
                 Cache.currentSize := 80 |}) as E3.
    { rewrite (set_stores _ _ _ _ _ _ _ x3 Hx3), Hl3.
      change (Z.of_nat 40) with 40.
      unfold Cache.make_room, Cache.cleanup.
      cbn [snd Cache.cache Cache.cleanup_loop Cache.timestamp Cache.ttl e1 e2].
      settle_comparisons.
      cbn [length Cache.cache Cache.evict_while]. unfold Cache.over_capacity.
      cbn [length Cache.cache Cache.currentSize].
      settle_comparisons. cbn [andb].
      unfold Cache.evictLRU, sort, Cache.by_timestamp.
      cbn [Cache.cache foldr sort_insert snd Cache.timestamp e1 e2].
      settle_comparisons.
      cbn [head]. unfold Cache.drop.
      cbn [Map_delete Cache.cache Cache.currentSize Cache.size e1].
      settle_keys.
      settle_comparisons.
      cbn [andb Map_set Cache.cache Cache.currentSize]. settle_keys.
      reflexivity. }
    cbn [exec_all foldl exec]. rewrite E1, E2, E3.
    split; [done|]. split; [done|].
    unfold Cache.get, Cache.isExpired.
    cbn [Map_get Cache.cache]. settle_keys.
    cbn [fst Cache.timestamp Cache.ttl Cache.data e2 e3].
    settle_comparisons. done.
  - intros defaultTtl ttl_arg k1 k2 k3 v1 v2 v3 x1 x2 x3 t1 t2 tr t3 t
      H12 H13 H23 _ _ _ Hx1 Hl1 Hx2 Hl2 Hx3 Hl3 Ht12 Ht2r Htr3 Ht3 Hlive.
    set (life := default defaultTtl ttl_arg) in *.
    set (e1 := {| Cache.data := v1; Cache.timestamp := t1; Cache.ttl := life;
                  Cache.key := k1; Cache.size := 40 |}).
    set (e1' := {| Cache.data := v1; Cache.timestamp := tr; Cache.ttl := life;
                   Cache.key := k1; Cache.size := 40 |}).
    set (e2 := {| Cache.data := v2; Cache.timestamp := t2; Cache.ttl := life;
                  Cache.key := k2; Cache.size := 40 |}).
    set (e3 := {| Cache.data := v3; Cache.timestamp := t3; Cache.ttl := life;
                  Cache.key := k3; Cache.size := 40 |}).
    assert (snd (Cache.set 100 defaultTtl t1 k1 v1 ttl_arg Cache.createCache)
            = {| Cache.cache := [(k1, e1)]; Cache.currentSize := 40 |}) as E1.
    { rewrite (set_stores _ _ _ _ _ _ _ x1 Hx1), Hl1. reflexivity. }
    assert (snd (Cache.set 100 defaultTtl t2 k2 v2 ttl_arg
                   {| Cache.cache := [(k1, e1)]; Cache.currentSize := 40 |})
            = {| Cache.cache := [(k1, e1); (k2, e2)];
                 Cache.currentSize := 80 |}) as E2.
    { rewrite (set_stores _ _ _ _ _ _ _ x2 Hx2), Hl2.
      change (Z.of_nat 40) with 40.
      unfold Cache.make_room, Cache.cleanup.
      cbn [snd Cache.cache Cache.cleanup_loop Cache.timestamp Cache.ttl e1].
      settle_comparisons.
      cbn [length Cache.cache Cache.evict_while]. unfold Cache.over_capacity.
      cbn [length Cache.cache Cache.currentSize].
      settle_comparisons.
      cbn [andb Map_set Cache.cache Cache.currentSize]. settle_keys.
      reflexivity. }
    assert (Cache.get tr k1
              {| Cache.cache := [(k1, e1); (k2, e2)];
                 Cache.currentSize := 80 |}
            = (v1, {| Cache.cache := [(k1, e1'); (k2, e2)];
                      Cache.currentSize := 80 |})) as ER.
    { unfold Cache.get, Cache.isExpired.
      cbn [Map_get Cache.cache]. settle_keys.
      cbn [Cache.timestamp Cache.ttl e1]. settle_comparisons.
      cbn [Map_set]. settle_keys. reflexivity. }
    assert (snd (Cache.set 100 defaultTtl t3 k3 v3 ttl_arg
                   {| Cache.cache := [(k1, e1'); (k2, e2)];
                      Cache.currentSize := 80 |})
            = {| Cache.cache := [(k1, e1'); (k3, e3)];
                 Cache.currentSize := 80 |}) as E3.
    { rewrite (set_stores _ _ _ _ _ _ _ x3 Hx3), Hl3.
      change (Z.of_nat 40) with 40.
      unfold Cache.make_room, Cache.cleanup.
      cbn [snd Cache.cache Cache.cleanup_loop Cache.timestamp Cache.ttl e1' e2].
      settle_comparisons.
      cbn [length Cache.cache Cache.evict_while]. unfold Cache.over_capacity.
      cbn [length Cache.cache Cache.currentSize].
      settle_comparisons. cbn [andb].
      unfold Cache.evictLRU, sort, Cache.by_timestamp.
      cbn [Cache.cache foldr sort_insert snd Cache.timestamp e1' e2].
      settle_comparisons.
      cbn [sort_insert head]. unfold Cache.drop.
      cbn [Map_delete Cache.cache Cache.currentSize Cache.size e2].
      settle_keys.
      settle_comparisons.
      cbn [andb Map_set Cache.cache Cache.currentSize]. settle_keys.
      reflexivity. }
    cbn [exec_all foldl exec]. rewrite E1, E2, ER. cbn [fst snd]. rewrite E3.
    split; [done|]. split; [done|].
    unfold Cache.get, Cache.isExpired.
    cbn [Map_get Cache.cache]. settle_keys.
    cbn [fst Cache.timestamp Cache.ttl Cache.data e1' e3].
    settle_comparisons. done.
Qed.

(** C6 on concrete caches: the time stamp of [k1] after two [set]s and
    a [get]; at capacity 100, a 62-character value arriving when two
    40-character entries are stored; and the two scenarios with keys
    [k1], [k2], [k3]. *)
Lemma lru_eviction_order_witness :
  (let ops := [OpSet 1 "k1" payload_40 None; OpSet 2 "k2" payload_40 None;
               OpGet 3 "k1"]%string in
   last_access 100 3600000 "k1" ops Cache.createCache None = Some 3) /\
  (let st :=
     exec_all 100 3600000
       [OpSet 1 "k1" payload_40 None; OpSet 2 "k2" payload_40 None]
       Cache.createCache in
   let st1 := Cache.cleanup 3 st in
   let st2 := Cache.make_room 100 3 62 st in
   let sorted := sort Cache.by_timestamp (Cache.cache st1) in
   exists n,
     Cache.cache st2 = delete_all (take n sorted) (Cache.cache st1) /\
     (forall v s, v ∈ take n sorted -> s ∈ Cache.cache st2 ->
                  Cache.timestamp (snd v) <= Cache.timestamp (snd s)) /\
     (forall j, (j < n)%nat ->
                100 < Cache.currentSize st1 - live_size (take j sorted) + 62) /\
     (live_size (Cache.cache st2) + 62 <= 100 \/ Cache.cache st2 = []) /\
     (Cache.currentSize st = live_size (Cache.cache st) ->
      forall j, (j < n)%nat ->
                100 < live_size (Cache.cache st1) - live_size (take j sorted) + 62)) /\
  (let st2 :=
     exec_all 100 3600000
       [OpSet 1 "k1" payload_40 None; OpSet 2 "k2" payload_40 None]
       Cache.createCache in
   let st3 := exec 100 3600000 st2 (OpSet 3 "k3" payload_40 None) in
   fst <$> Cache.cache st2 = ["k1"; "k2"]%string /\
   fst <$> Cache.cache st3 = ["k2"; "k3"]%string /\
   fst (Cache.get 4 "k1" st3) = VUndefined /\
   fst (Cache.get 4 "k2" st3) = payload_40 /\
   fst (Cache.get 4 "k3" st3) = payload_40) /\
  (let st2 :=
     exec_all 100 3600000
       [OpSet 1 "k1" payload_40 None; OpSet 2 "k2" payload_40 None]
       Cache.createCache in
   let read := Cache.get 3 "k1" st2 in
   let st3 := exec 100 3600000 (snd read) (OpSet 4 "k3" payload_40 None) in
   fst read = payload_40 /\
   fst <$> Cache.cache st3 = ["k1"; "k3"]%string /\
   fst (Cache.get 5 "k1" st3) = payload_40 /\
   fst (Cache.get 5 "k2" st3) = VUndefined /\
   fst (Cache.get 5 "k3" st3) = payload_40).
Proof.
  destruct lru_eviction_order as (Hstamp & Horder & Hscenario & Hread).
  split; [|split; [|split]].
  - apply (Hstamp 100 3600000 _ "k1"%string
             {| Cache.data := payload_40; Cache.timestamp := 3;
                Cache.ttl := 3600000; Cache.key := "k1"; Cache.size := 40 |}).
    reflexivity.
  - apply (Horder 100 3600000
             [OpSet 1 "k1" payload_40 None; OpSet 2 "k2" payload_40 None]%string).
  - eapply (Hscenario 3600000 None "k1" "k2" "k3"
              payload_40 payload_40 payload_40)%string;
      solve [ discriminate | reflexivity | lia ].
  - eapply (Hread 3600000 None "k1" "k2" "k3"
              payload_40 payload_40 payload_40)%string;
      solve [ discriminate | reflexivity | lia ].
Defined.

(** C6 as stated fails on an entry larger than the capacity: at
    [maxSize = 10] a 40-character value is stored after everything else
    has been evicted, and the stored total exceeds [maxSize]: the
    evictions have not made the new entry fit. *)
Lemma lru_eviction_counterexample :
  let st := exec_all 10 3600000 [OpSet 0 "a" payload_40 None] Cache.createCache in
  let st' := exec 10 3600000 st (OpSet 1 "b" payload_40 None) in
  fst <$> Cache.cache st = ["a"]%string /\
  fst <$> Cache.cache st' = ["b"]%string /\
  live_size (Cache.cache st') = 40 /\
  ~ (live_size (Cache.cache st') <= 10).
Proof.
  vm_compute. repeat split; try reflexivity. intros H. by apply H.
Qed.

(** Where a [set] has overwritten a stored key the counter exceeds the
    stored total, and a later [set] evicts by the counter: at capacity
    100, after two [set]s of a 40-character value under [a] the counter
    is 80 for 40 stored characters, and a [set] of 40 characters under
    [b] evicts [a] although both entries would fit. *)
Lemma eviction_after_overwrite :
  let st :=
    exec_all 100 3600000
      [OpSet 0 "a" payload_40 None; OpSet 1 "a" payload_40 None]
      Cache.createCache in
  let st' := exec 100 3600000 st (OpSet 2 "b" payload_40 None) in
  Cache.currentSize st = 80 /\ live_size (Cache.cache st) = 40 /\
  fst <$> Cache.cache st' = ["b"]%string.
Proof. vm_compute. by repeat split. Qed.
